(** * prototype-jpeg: the entropy-coding back half of [prototype_jpeg/codec.py]

    A shallow embedding of [codec.py]: the category table, the four Huffman
    codeword tables, zig-zag traversal, differential and run-length coding,
    the bit-level Huffman codec and the [Encoder] / [Decoder] classes,
    followed by the properties of the specification that concern them.

    Python integers are [Z]; bit strings are [string]s over the characters
    0 and 1; tuples and lists are [list]s; numpy arrays of shape [(n, 8, 8)]
    are lists of lists of lists.  The blocks given to the [Encoder] are
    numpy arrays of a signed integer [dtype], in which the subtraction of
    the DC coefficients wraps around; the arrays the [Decoder] builds have
    64-bit cells.  Exceptions are the [Raise] results of a small error
    monad. *)

From Stdlib Require Import ZArith List String Ascii Bool Lia Arith.
Import ListNotations.
Local Open Scope string_scope.
Local Open Scope list_scope.
Local Open Scope Z_scope.

(** ** Exceptions *)

(** The Python exceptions the module can raise.  [OutOfFuel] is not a Python
    exception: it marks the exhaustion of the iteration bound of a modelled
    [while] loop, and is shown never to be produced. *)
Inductive exn : Type :=
| ValueError
| IndexError
| KeyError
| TypeError
| OutOfFuel.

Inductive result (A : Type) : Type :=
| Ok (a : A)
| Raise (e : exn).

Arguments Ok {A} a.
Arguments Raise {A} e.

Definition bind {A B : Type} (r : result A) (k : A -> result B) : result B :=
  match r with
  | Ok a => k a
  | Raise e => Raise e
  end.

Notation "x <- r ;; k" := (bind r (fun x => k))
  (at level 61, r at next level, right associativity).
Notation "' pat <- r ;; k" := (bind r (fun x => match x with pat => k end))
  (at level 61, pat pattern, r at next level, right associativity).

Definition is_ok {A : Type} (r : result A) : bool :=
  match r with Ok _ => true | Raise _ => false end.

(** [[f(x) for x in l]] for an [f] that may raise. *)
Fixpoint mapM {A B : Type} (f : A -> result B) (l : list A) : result (list B) :=
  match l with
  | [] => Ok []
  | a :: l' => b <- f a ;; bs <- mapM f l' ;; Ok (b :: bs)
  end.

(** ** Python sequences *)

(** [l[i]] on a list or tuple: a negative index counts from the end and an
    index out of range raises [IndexError]. *)
Definition py_index {A : Type} (l : list A) (i : Z) : result A :=
  let len := Z.of_nat (List.length l) in
  let j := if i <? 0 then i + len else i in
  if (0 <=? j) && (j <? len)
  then match nth_error l (Z.to_nat j) with
       | Some a => Ok a
       | None => Raise IndexError
       end
  else Raise IndexError.

(** [range(a, b)]. *)
Fixpoint range_from (a : Z) (n : nat) : list Z :=
  match n with
  | O => []
  | S n' => a :: range_from (a + 1) n'
  end.

Definition range (a b : Z) : list Z := range_from a (Z.to_nat (b - a)).

(** ** Constants *)

Inductive dc_ac : Type := DC | AC.
Inductive layer_type : Type := LUMINANCE | CHROMINANCE.

(** A value handed to [encode_huffman] or yielded by [decode_huffman]: an
    integer (differential DC) or a pair (run-length AC). *)
Inductive hvalue : Type :=
| VInt (v : Z)
| VPair (run value : Z).

Definition EOB : Z * Z := (0, 0).
Definition ZRL : Z * Z := (15, 0).

Definition pair_eqb (p q : Z * Z) : bool :=
  (fst p =? fst q) && (snd p =? snd q).

(** ** The category table *)

Definition HUFFMAN_CATEGORIES : list (list Z) :=
  [ [0];
    [-1; 1];
    [-3; -2; 2; 3];
    range (-7) (-4 + 1) ++ range 4 (7 + 1);
    range (-15) (-8 + 1) ++ range 8 (15 + 1);
    range (-31) (-16 + 1) ++ range 16 (31 + 1);
    range (-63) (-32 + 1) ++ range 32 (63 + 1);
    range (-127) (-64 + 1) ++ range 64 (127 + 1);
    range (-255) (-128 + 1) ++ range 128 (255 + 1);
    range (-511) (-256 + 1) ++ range 256 (511 + 1);
    range (-1023) (-512 + 1) ++ range 512 (1023 + 1);
    range (-2047) (-1024 + 1) ++ range 1024 (2047 + 1);
    range (-4095) (-2048 + 1) ++ range 2048 (4095 + 1);
    range (-8191) (-4096 + 1) ++ range 4096 (8191 + 1);
    range (-16383) (-8192 + 1) ++ range 8192 (16383 + 1);
    range (-32767) (-16384 + 1) ++ range 16384 (32767 + 1) ].

(** [index_2d], the helper nested in [encode_huffman]: the position of the
    first occurrence of [target] in a table of rows. *)
Fixpoint index_row (row : list Z) (target : Z) (j : Z) : option Z :=
  match row with
  | [] => None
  | element :: row' =>
      if target =? element then Some j else index_row row' target (j + 1)
  end.

Fixpoint index_2d_from (table : list (list Z)) (target : Z) (i : Z)
  : result (Z * Z) :=
  match table with
  | [] => Raise ValueError
  | row :: table' =>
      match index_row row target 0 with
      | Some j => Ok (i, j)
      | None => index_2d_from table' target (i + 1)
      end
  end.

Definition index_2d (table : list (list Z)) (target : Z) : result (Z * Z) :=
  index_2d_from table target 0.

(** [HUFFMAN_CATEGORIES[size][index]]. *)
Definition category_value (size index : Z) : result Z :=
  row <- py_index HUFFMAN_CATEGORIES size ;; py_index row index.

(** The canonical order of the category of size [s >= 1], in the words of the
    specification: [-(2^s - 1), ..., -2^(s-1), 2^(s-1), ..., 2^s - 1]. *)
Definition canonical_order (s : Z) : list Z :=
  range (- (2 ^ s - 1)) (- 2 ^ (s - 1) + 1) ++ range (2 ^ (s - 1)) (2 ^ s).

(** ** Bit strings *)

(** [s[a:b]] for indices [0 <= a] and [0 <= b], the only ones the module
    uses: the slice is clipped at the end of [s] and empty when [b <= a]. *)
Definition slice (s : string) (a b : Z) : string :=
  substring (Z.to_nat a) (Z.to_nat (b - a)) s.

(** [s[:-1]]. *)
Fixpoint drop_last (s : string) : string :=
  match s with
  | EmptyString => EmptyString
  | String c EmptyString => EmptyString
  | String c s' => String c (drop_last s')
  end.

Definition str_len (s : string) : Z := Z.of_nat (String.length s).

(** [''.join(l)]. *)
Fixpoint join (l : list string) : string :=
  match l with
  | [] => EmptyString
  | s :: l' => (s ++ join l')%string
  end.

(** [bin(n)] without its [0b] prefix, for [n >= 0]. *)
Fixpoint bin_pos (p : positive) (acc : string) : string :=
  match p with
  | xH => String "1" acc
  | xO q => bin_pos q (String "0" acc)
  | xI q => bin_pos q (String "1" acc)
  end.

Fixpoint zeros (n : nat) : string :=
  match n with
  | O => EmptyString
  | S n' => String "0" (zeros n')
  end.

(** ['{:0{padding}b}'.format(n, padding=padding)]: the binary digits of [n],
    most significant first, padded on the left with zeros to a width of at
    least [padding]; a sign comes before the padding and counts in the
    width. *)
Definition format_0b (n padding : Z) : string :=
  match n with
  | Z0 => zeros (Z.to_nat padding - 1) ++ "0"
  | Zpos p =>
      let digits := bin_pos p EmptyString in
      zeros (Z.to_nat padding - String.length digits) ++ digits
  | Zneg p =>
      let digits := bin_pos p EmptyString in
      String "-" (zeros (Z.to_nat padding - 1 - String.length digits) ++ digits)
  end.

(** [int(s, 2)] on a string over the characters 0 and 1, the only strings
    on which the properties below read it: the empty string raises
    [ValueError], and so does here any other character (of which Python
    accepts a sign, blanks and underscores). *)
Fixpoint int2_acc (s : string) (acc : Z) : result Z :=
  match s with
  | EmptyString => Ok acc
  | String c s' =>
      if Ascii.eqb c "0" then int2_acc s' (2 * acc)
      else if Ascii.eqb c "1" then int2_acc s' (2 * acc + 1)
      else Raise ValueError
  end.

Definition int2 (s : string) : result Z :=
  match s with
  | EmptyString => Raise ValueError
  | _ => int2_acc s 0
  end.

(** ** The Huffman codeword tables *)

(** The keys of the tables: a category (DC) or a pair (run, category) (AC). *)
Inductive hkey : Type :=
| KInt (size : Z)
| KPair (run size : Z).

Definition hkey_eqb (k1 k2 : hkey) : bool :=
  match k1, k2 with
  | KInt a, KInt b => a =? b
  | KPair a1 a2, KPair b1 b2 => (a1 =? b1) && (a2 =? b2)
  | _, _ => false
  end.

Definition DC_LUMINANCE : list (hkey * string) :=
  [ (KInt 0, "00"); (KInt 1, "010");
    (KInt 2, "011"); (KInt 3, "100");
    (KInt 4, "101"); (KInt 5, "110");
    (KInt 6, "1110"); (KInt 7, "11110");
    (KInt 8, "111110"); (KInt 9, "1111110");
    (KInt 10, "11111110"); (KInt 11, "111111110") ].

Definition DC_CHROMINANCE : list (hkey * string) :=
  [ (KInt 0, "00"); (KInt 1, "01");
    (KInt 2, "10"); (KInt 3, "110");
    (KInt 4, "1110"); (KInt 5, "11110");
    (KInt 6, "111110"); (KInt 7, "1111110");
    (KInt 8, "11111110"); (KInt 9, "111111110");
    (KInt 10, "1111111110"); (KInt 11, "11111111110") ].

Definition AC_LUMINANCE : list (hkey * string) :=
  [ (KPair 0 0, "1010"); (KPair 15 0, "11111111001");
    (KPair 0 1, "00"); (KPair 0 2, "01");
    (KPair 0 3, "100"); (KPair 0 4, "1011");
    (KPair 0 5, "11010"); (KPair 0 6, "1111000");
    (KPair 0 7, "11111000"); (KPair 0 8, "1111110110");
    (KPair 0 9, "1111111110000010"); (KPair 0 10, "1111111110000011");
    (KPair 1 1, "1100"); (KPair 1 2, "11011");
    (KPair 1 3, "1111001"); (KPair 1 4, "111110110");
    (KPair 1 5, "11111110110"); (KPair 1 6, "1111111110000100");
    (KPair 1 7, "1111111110000101"); (KPair 1 8, "1111111110000110");
    (KPair 1 9, "1111111110000111"); (KPair 1 10, "1111111110001000");
    (KPair 2 1, "11100"); (KPair 2 2, "11111001");
    (KPair 2 3, "1111110111"); (KPair 2 4, "111111110100");
    (KPair 2 5, "1111111110001001"); (KPair 2 6, "1111111110001010");
    (KPair 2 7, "1111111110001011"); (KPair 2 8, "1111111110001100");
    (KPair 2 9, "1111111110001101"); (KPair 2 10, "1111111110001110");
    (KPair 3 1, "111010"); (KPair 3 2, "111110111");
    (KPair 3 3, "111111110101"); (KPair 3 4, "1111111110001111");
    (KPair 3 5, "1111111110010000"); (KPair 3 6, "1111111110010001");
    (KPair 3 7, "1111111110010010"); (KPair 3 8, "1111111110010011");
    (KPair 3 9, "1111111110010100"); (KPair 3 10, "1111111110010101");
    (KPair 4 1, "111011"); (KPair 4 2, "1111111000");
    (KPair 4 3, "1111111110010110"); (KPair 4 4, "1111111110010111");
    (KPair 4 5, "1111111110011000"); (KPair 4 6, "1111111110011001");
    (KPair 4 7, "1111111110011010"); (KPair 4 8, "1111111110011011");
    (KPair 4 9, "1111111110011100"); (KPair 4 10, "1111111110011101");
    (KPair 5 1, "1111010"); (KPair 5 2, "11111110111");
    (KPair 5 3, "1111111110011110"); (KPair 5 4, "1111111110011111");
    (KPair 5 5, "1111111110100000"); (KPair 5 6, "1111111110100001");
    (KPair 5 7, "1111111110100010"); (KPair 5 8, "1111111110100011");
    (KPair 5 9, "1111111110100100"); (KPair 5 10, "1111111110100101");
    (KPair 6 1, "1111011"); (KPair 6 2, "111111110110");
    (KPair 6 3, "1111111110100110"); (KPair 6 4, "1111111110100111");
    (KPair 6 5, "1111111110101000"); (KPair 6 6, "1111111110101001");
    (KPair 6 7, "1111111110101010"); (KPair 6 8, "1111111110101011");
    (KPair 6 9, "1111111110101100"); (KPair 6 10, "1111111110101101");
    (KPair 7 1, "11111010"); (KPair 7 2, "111111110111");
    (KPair 7 3, "1111111110101110"); (KPair 7 4, "1111111110101111");
    (KPair 7 5, "1111111110110000"); (KPair 7 6, "1111111110110001");
    (KPair 7 7, "1111111110110010"); (KPair 7 8, "1111111110110011");
    (KPair 7 9, "1111111110110100"); (KPair 7 10, "1111111110110101");
    (KPair 8 1, "111111000"); (KPair 8 2, "111111111000000");
    (KPair 8 3, "1111111110110110"); (KPair 8 4, "1111111110110111");
    (KPair 8 5, "1111111110111000"); (KPair 8 6, "1111111110111001");
    (KPair 8 7, "1111111110111010"); (KPair 8 8, "1111111110111011");
    (KPair 8 9, "1111111110111100"); (KPair 8 10, "1111111110111101");
    (KPair 9 1, "111111001"); (KPair 9 2, "1111111110111110");
    (KPair 9 3, "1111111110111111"); (KPair 9 4, "1111111111000000");
    (KPair 9 5, "1111111111000001"); (KPair 9 6, "1111111111000010");
    (KPair 9 7, "1111111111000011"); (KPair 9 8, "1111111111000100");
    (KPair 9 9, "1111111111000101"); (KPair 9 10, "1111111111000110");
    (KPair 10 1, "111111010"); (KPair 10 2, "1111111111000111");
    (KPair 10 3, "1111111111001000"); (KPair 10 4, "1111111111001001");
    (KPair 10 5, "1111111111001010"); (KPair 10 6, "1111111111001011");
    (KPair 10 7, "1111111111001100"); (KPair 10 8, "1111111111001101");
    (KPair 10 9, "1111111111001110"); (KPair 10 10, "1111111111001111");
    (KPair 11 1, "1111111001"); (KPair 11 2, "1111111111010000");
    (KPair 11 3, "1111111111010001"); (KPair 11 4, "1111111111010010");
    (KPair 11 5, "1111111111010011"); (KPair 11 6, "1111111111010100");
    (KPair 11 7, "1111111111010101"); (KPair 11 8, "1111111111010110");
    (KPair 11 9, "1111111111010111"); (KPair 11 10, "1111111111011000");
    (KPair 12 1, "1111111010"); (KPair 12 2, "1111111111011001");
    (KPair 12 3, "1111111111011010"); (KPair 12 4, "1111111111011011");
    (KPair 12 5, "1111111111011100"); (KPair 12 6, "1111111111011101");
    (KPair 12 7, "1111111111011110"); (KPair 12 8, "1111111111011111");
    (KPair 12 9, "1111111111100000"); (KPair 12 10, "1111111111100001");
    (KPair 13 1, "11111111000"); (KPair 13 2, "1111111111100010");
    (KPair 13 3, "1111111111100011"); (KPair 13 4, "1111111111100100");
    (KPair 13 5, "1111111111100101"); (KPair 13 6, "1111111111100110");
    (KPair 13 7, "1111111111100111"); (KPair 13 8, "1111111111101000");
    (KPair 13 9, "1111111111101001"); (KPair 13 10, "1111111111101010");
    (KPair 14 1, "1111111111101011"); (KPair 14 2, "1111111111101100");
    (KPair 14 3, "1111111111101101"); (KPair 14 4, "1111111111101110");
    (KPair 14 5, "1111111111101111"); (KPair 14 6, "1111111111110000");
    (KPair 14 7, "1111111111110001"); (KPair 14 8, "1111111111110010");
    (KPair 14 9, "1111111111110011"); (KPair 14 10, "1111111111110100");
    (KPair 15 1, "1111111111110101"); (KPair 15 2, "1111111111110110");
    (KPair 15 3, "1111111111110111"); (KPair 15 4, "1111111111111000");
    (KPair 15 5, "1111111111111001"); (KPair 15 6, "1111111111111010");
    (KPair 15 7, "1111111111111011"); (KPair 15 8, "1111111111111100");
    (KPair 15 9, "1111111111111101"); (KPair 15 10, "1111111111111110") ].

Definition AC_CHROMINANCE : list (hkey * string) :=
  [ (KPair 0 0, "00"); (KPair 15 0, "1111111010");
    (KPair 0 1, "01"); (KPair 0 2, "100");
    (KPair 0 3, "1010"); (KPair 0 4, "11000");
    (KPair 0 5, "11001"); (KPair 0 6, "111000");
    (KPair 0 7, "1111000"); (KPair 0 8, "111110100");
    (KPair 0 9, "1111110110"); (KPair 0 10, "111111110100");
    (KPair 1 1, "1011"); (KPair 1 2, "111001");
    (KPair 1 3, "11110110"); (KPair 1 4, "111110101");
    (KPair 1 5, "11111110110"); (KPair 1 6, "111111110101");
    (KPair 1 7, "1111111110001000"); (KPair 1 8, "1111111110001001");
    (KPair 1 9, "1111111110001010"); (KPair 1 10, "1111111110001011");
    (KPair 2 1, "11010"); (KPair 2 2, "11110111");
    (KPair 2 3, "1111110111"); (KPair 2 4, "111111110110");
    (KPair 2 5, "111111111000010"); (KPair 2 6, "1111111110001100");
    (KPair 2 7, "1111111110001101"); (KPair 2 8, "1111111110001110");
    (KPair 2 9, "1111111110001111"); (KPair 2 10, "1111111110010000");
    (KPair 3 1, "11011"); (KPair 3 2, "11111000");
    (KPair 3 3, "1111111000"); (KPair 3 4, "111111110111");
    (KPair 3 5, "1111111110010001"); (KPair 3 6, "1111111110010010");
    (KPair 3 7, "1111111110010011"); (KPair 3 8, "1111111110010100");
    (KPair 3 9, "1111111110010101"); (KPair 3 10, "1111111110010110");
    (KPair 4 1, "111010"); (KPair 4 2, "111110110");
    (KPair 4 3, "1111111110010111"); (KPair 4 4, "1111111110011000");
    (KPair 4 5, "1111111110011001"); (KPair 4 6, "1111111110011010");
    (KPair 4 7, "1111111110011011"); (KPair 4 8, "1111111110011100");
    (KPair 4 9, "1111111110011101"); (KPair 4 10, "1111111110011110");
    (KPair 5 1, "111011"); (KPair 5 2, "1111111001");
    (KPair 5 3, "1111111110011111"); (KPair 5 4, "1111111110100000");
    (KPair 5 5, "1111111110100001"); (KPair 5 6, "1111111110100010");
    (KPair 5 7, "1111111110100011"); (KPair 5 8, "1111111110100100");
    (KPair 5 9, "1111111110100101"); (KPair 5 10, "1111111110100110");
    (KPair 6 1, "1111001"); (KPair 6 2, "11111110111");
    (KPair 6 3, "1111111110100111"); (KPair 6 4, "1111111110101000");
    (KPair 6 5, "1111111110101001"); (KPair 6 6, "1111111110101010");
    (KPair 6 7, "1111111110101011"); (KPair 6 8, "1111111110101100");
    (KPair 6 9, "1111111110101101"); (KPair 6 10, "1111111110101110");
    (KPair 7 1, "1111010"); (KPair 7 2, "111111110000");
    (KPair 7 3, "1111111110101111"); (KPair 7 4, "1111111110110000");
    (KPair 7 5, "1111111110110001"); (KPair 7 6, "1111111110110010");
    (KPair 7 7, "1111111110110011"); (KPair 7 8, "1111111110110100");
    (KPair 7 9, "1111111110110101"); (KPair 7 10, "1111111110110110");
    (KPair 8 1, "11111001"); (KPair 8 2, "1111111110110111");
    (KPair 8 3, "1111111110111000"); (KPair 8 4, "1111111110111001");
    (KPair 8 5, "1111111110111010"); (KPair 8 6, "1111111110111011");
    (KPair 8 7, "1111111110111100"); (KPair 8 8, "1111111110111101");
    (KPair 8 9, "1111111110111110"); (KPair 8 10, "1111111110111111");
    (KPair 9 1, "111110111"); (KPair 9 2, "1111111111000000");
    (KPair 9 3, "1111111111000001"); (KPair 9 4, "1111111111000010");
    (KPair 9 5, "1111111111000011"); (KPair 9 6, "1111111111000100");
    (KPair 9 7, "1111111111000101"); (KPair 9 8, "1111111111000110");
    (KPair 9 9, "1111111111000111"); (KPair 9 10, "1111111111001000");
    (KPair 10 1, "111111000"); (KPair 10 2, "1111111111001001");
    (KPair 10 3, "1111111111001010"); (KPair 10 4, "1111111111001011");
    (KPair 10 5, "1111111111001100"); (KPair 10 6, "1111111111001101");
    (KPair 10 7, "1111111111001110"); (KPair 10 8, "1111111111001111");
    (KPair 10 9, "1111111111010000"); (KPair 10 10, "1111111111010001");
    (KPair 11 1, "111111001"); (KPair 11 2, "1111111111010010");
    (KPair 11 3, "1111111111010011"); (KPair 11 4, "1111111111010100");
    (KPair 11 5, "1111111111010101"); (KPair 11 6, "1111111111010110");
    (KPair 11 7, "1111111111010111"); (KPair 11 8, "1111111111011000");
    (KPair 11 9, "1111111111011001"); (KPair 11 10, "1111111111011010");
    (KPair 12 1, "111111010"); (KPair 12 2, "1111111111011011");
    (KPair 12 3, "1111111111011100"); (KPair 12 4, "1111111111011101");
    (KPair 12 5, "1111111111011110"); (KPair 12 6, "1111111111011111");
    (KPair 12 7, "1111111111100000"); (KPair 12 8, "1111111111100001");
    (KPair 12 9, "1111111111100010"); (KPair 12 10, "1111111111100011");
    (KPair 13 1, "11111111001"); (KPair 13 2, "1111111111100100");
    (KPair 13 3, "1111111111100101"); (KPair 13 4, "1111111111100110");
    (KPair 13 5, "1111111111100111"); (KPair 13 6, "1111111111101000");
    (KPair 13 7, "1111111111101001"); (KPair 13 8, "1111111111101010");
    (KPair 13 9, "1111111111101011"); (KPair 13 10, "1111111111101100");
    (KPair 14 1, "11111111100000"); (KPair 14 2, "1111111111101101");
    (KPair 14 3, "1111111111101110"); (KPair 14 4, "1111111111101111");
    (KPair 14 5, "1111111111110000"); (KPair 14 6, "1111111111110001");
    (KPair 14 7, "1111111111110010"); (KPair 14 8, "1111111111110011");
    (KPair 14 9, "1111111111110100"); (KPair 14 10, "1111111111110101");
    (KPair 15 1, "111111111000011"); (KPair 15 2, "1111111111110110");
    (KPair 15 3, "1111111111110111"); (KPair 15 4, "1111111111111000");
    (KPair 15 5, "1111111111111001"); (KPair 15 6, "1111111111111010");
    (KPair 15 7, "1111111111111011"); (KPair 15 8, "1111111111111100");
    (KPair 15 9, "1111111111111101"); (KPair 15 10, "1111111111111110") ].
Definition HUFFMAN_CATEGORY_CODEWORD (m : dc_ac) (layer : layer_type)
  : list (hkey * string) :=
  match m, layer with
  | DC, LUMINANCE => DC_LUMINANCE
  | DC, CHROMINANCE => DC_CHROMINANCE
  | AC, LUMINANCE => AC_LUMINANCE
  | AC, CHROMINANCE => AC_CHROMINANCE
  end.

(** [table[key]] on a [bidict]. *)
Fixpoint lookup (table : list (hkey * string)) (key : hkey) : result string :=
  match table with
  | [] => Raise KeyError
  | (k, cw) :: table' => if hkey_eqb key k then Ok cw else lookup table' key
  end.

(** [table.inv.get(bits)] on a [bidict]. *)
Fixpoint inv_lookup (table : list (hkey * string)) (bits : string)
  : option hkey :=
  match table with
  | [] => None
  | (k, cw) :: table' =>
      if String.eqb bits cw then Some k else inv_lookup table' bits
  end.

(** ** [encode_huffman] *)

Definition encode_huffman (value : hvalue) (layer : layer_type)
  : result string :=
  match value with
  | VInt value =>
      if (value <=? -2048) || (value >=? 2048) then Raise ValueError
      else
        '(size, fixed_code_idx) <- index_2d HUFFMAN_CATEGORIES value ;;
        if size =? 0
        then lookup (HUFFMAN_CATEGORY_CODEWORD DC layer) (KInt size)
        else
          cw <- lookup (HUFFMAN_CATEGORY_CODEWORD DC layer) (KInt size) ;;
          Ok (cw ++ format_0b fixed_code_idx size)%string
  | VPair run nonzero =>
      if pair_eqb (run, nonzero) EOB || pair_eqb (run, nonzero) ZRL
      then lookup (HUFFMAN_CATEGORY_CODEWORD AC layer) (KPair run nonzero)
      else if (nonzero =? 0) || (nonzero <=? -1024) || (nonzero >=? 1024)
      then Raise ValueError
      else
        '(size, fixed_code_idx) <- index_2d HUFFMAN_CATEGORIES nonzero ;;
        cw <- lookup (HUFFMAN_CATEGORY_CODEWORD AC layer) (KPair run size) ;;
        Ok (cw ++ format_0b fixed_code_idx size)%string
  end.

(** ** [decode_huffman] *)

(** The nested helper [diff_value]. *)
Definition diff_value (bit_seq : string) (idx size : Z) : result Z :=
  let bit_len := str_len bit_seq in
  if (idx >=? bit_len) || (idx + size >? bit_len) then Raise IndexError
  else int2 (slice bit_seq idx (idx + size)).

(** The inner [while current_slice:] loop, which looks the slice up in the
    inverse table and strips its last bit until the lookup succeeds; its
    [else] branch raises [KeyError].  [fuel] bounds the iterations; the
    length of the slice is enough. *)
Fixpoint search_codeword (table : list (hkey * string)) (fuel : nat)
  (current_slice : string) : result (hkey * string) :=
  if String.eqb current_slice EmptyString then Raise KeyError
  else
    match inv_lookup table current_slice with
    | Some key => Ok (key, current_slice)
    | None =>
        match fuel with
        | O => Raise OutOfFuel
        | S fuel' => search_codeword table fuel' (drop_last current_slice)
        end
    end.

(** The value yielded for a key found at [current_idx], with the number of
    amplitude bits it consumed. *)
Definition decode_key (bit_seq : string) (m : dc_ac) (key : hkey)
  (after_codeword : Z) : result (hvalue * Z) :=
  match m, key with
  | DC, KInt size =>
      if size =? 0 then Ok (VInt 0, size)
      else
        row <- py_index HUFFMAN_CATEGORIES size ;;
        i <- diff_value bit_seq after_codeword size ;;
        v <- py_index row i ;;
        Ok (VInt v, size)
  | AC, KPair run size =>
      if pair_eqb (run, size) EOB || pair_eqb (run, size) ZRL
      then Ok (VPair run size, size)
      else
        row <- py_index HUFFMAN_CATEGORIES size ;;
        i <- diff_value bit_seq after_codeword size ;;
        v <- py_index row i ;;
        Ok (VPair run v, size)
  | _, _ => Raise TypeError
  end.

(** The outer [while current_idx < bit_len:] loop; the generator is consumed
    whole by each of its callers, so it is modelled by the list of the values
    it yields, or the exception that ends it. *)
Fixpoint decode_huffman_loop (fuel : nat) (bit_seq : string) (m : dc_ac)
  (layer : layer_type) (current_idx : Z) : result (list hvalue) :=
  let bit_len := str_len bit_seq in
  if current_idx <? bit_len then
    match fuel with
    | O => Raise OutOfFuel
    | S fuel' =>
        let remaining_len := bit_len - current_idx in
        let current_slice :=
          slice bit_seq current_idx
            (current_idx + (if remaining_len >? 16 then 16 else remaining_len)) in
        '(key, current_slice) <-
          search_codeword (HUFFMAN_CATEGORY_CODEWORD m layer)
            (String.length current_slice) current_slice ;;
        '(item, size) <-
          decode_key bit_seq m key (current_idx + str_len current_slice) ;;
        rest <- decode_huffman_loop fuel' bit_seq m layer
                  (current_idx + (str_len current_slice + size)) ;;
        Ok (item :: rest)
    end
  else Ok [].

Definition decode_huffman (bit_seq : string) (m : dc_ac) (layer : layer_type)
  : result (list hvalue) :=
  decode_huffman_loop (String.length bit_seq) bit_seq m layer 0.

(** ** Differential coding of the DC coefficients *)

(** [enumerate(l)], counting from [start]. *)
Fixpoint enumerate_from {A : Type} (start : Z) (l : list A) : list (Z * A) :=
  match l with
  | [] => []
  | a :: l' => (start, a) :: enumerate_from (start + 1) l'
  end.

Definition enumerate {A : Type} (l : list A) : list (Z * A) :=
  enumerate_from 0 l.

Definition encode_differential (seq : list Z) : result (list Z) :=
  mapM (fun '(idx, item) =>
          if idx =? 0 then Ok item
          else prev <- py_index seq (idx - 1) ;; Ok (item - prev))
       (enumerate seq).

(** The signed integer dtypes of numpy, the range of their values, and the
    value their arithmetic keeps of an exact result: the one congruent to
    it modulo [2 ^ bits] within the range. *)
Inductive dtype : Type := Int8 | Int16 | Int32 | Int64.

Definition dtype_bits (dt : dtype) : Z :=
  match dt with Int8 => 8 | Int16 => 16 | Int32 => 32 | Int64 => 64 end.

Definition dtype_min (dt : dtype) : Z := - 2 ^ (dtype_bits dt - 1).
Definition dtype_max (dt : dtype) : Z := 2 ^ (dtype_bits dt - 1) - 1.

Definition dtype_wrap (dt : dtype) (v : Z) : Z :=
  (v - dtype_min dt) mod 2 ^ dtype_bits dt + dtype_min dt.

(** [encode_differential] on a one-dimensional numpy array of dtype [dt], as
    [Encoder._get_diff_dc] calls it: the items are numpy scalars of that
    dtype, and [item - seq[idx - 1]] wraps around in it. *)
Definition encode_differential_np (dt : dtype) (seq : list Z)
  : result (list Z) :=
  mapM (fun '(idx, item) =>
          if idx =? 0 then Ok item
          else prev <- py_index seq (idx - 1) ;;
               Ok (dtype_wrap dt (item - prev)))
       (enumerate seq).

(** [itertools.accumulate]. *)
Fixpoint accumulate_from (total : Z) (seq : list Z) : list Z :=
  match seq with
  | [] => []
  | x :: seq' => (total + x) :: accumulate_from (total + x) seq'
  end.

Definition accumulate (seq : list Z) : list Z :=
  match seq with
  | [] => []
  | x :: seq' => x :: accumulate_from x seq'
  end.

Definition decode_differential (seq : list Z) : list Z := accumulate seq.

(** ** Run-length coding of the AC coefficients *)

(** [[(len(tuple(group)), key) for key, group in itertools.groupby(seq)]]:
    the maximal runs of equal values, as (length, value) pairs. *)
Fixpoint groupby (seq : list Z) : list (Z * Z) :=
  match seq with
  | [] => []
  | x :: seq' =>
      match groupby seq' with
      | (n, key) :: groups =>
          if x =? key then (n + 1, key) :: groups
          else (1, x) :: (n, key) :: groups
      | [] => [(1, x)]
      end
  end.

(** [while length >= 16: ret.append(ZRL); length -= 16]; [fuel] bounds the
    iterations and [length] itself is enough. *)
Fixpoint zrl_loop (fuel : nat) (length : Z) (ret : list (Z * Z))
  : list (Z * Z) * Z :=
  if length >=? 16 then
    match fuel with
    | O => (ret, length)
    | S fuel' => zrl_loop fuel' (length - 16) (ret ++ [ZRL])
    end
  else (ret, length).

(** The [for idx, (length, key) in enumerate(groups)] loop, with the state
    [borrow], [ret] it updates. *)
Fixpoint run_length_loop (groups : list (Z * Z)) (todo : list (Z * (Z * Z)))
  (borrow : bool) (ret : list (Z * Z)) : result (list (Z * Z)) :=
  match todo with
  | [] => Ok ret
  | (idx, (length, key)) :: todo' =>
      let length := if borrow then length - 1 else length in
      let borrow := false in
      if length =? 0 then run_length_loop groups todo' borrow ret
      else if key =? 0 then
        let '(ret, length) := zrl_loop (Z.to_nat length) length ret in
        next <- py_index groups (idx + 1) ;;
        run_length_loop groups todo' true (ret ++ [(length, snd next)])
      else
        run_length_loop groups todo' borrow
          (ret ++ repeat (0, key) (Z.to_nat length))
  end.

Definition encode_run_length (seq : list Z) : result (list (Z * Z)) :=
  let groups := groupby seq in
  last_group <- py_index groups (-1) ;;
  let groups := if snd last_group =? 0 then removelast groups else groups in
  ret <- run_length_loop groups (enumerate groups) false [] ;;
  Ok (ret ++ [EOB]).

Definition decode_run_length (seq : list (Z * Z)) : list Z :=
  removelast
    (flat_map (fun '(l, k) => repeat 0 (Z.to_nat l) ++ [k]) seq).

(** ** Zig-zag traversal *)

(** A two-dimensional array is the list of its rows, all of one length. *)
Definition matrix : Type := list (list Z).

Definition shape0 (data : matrix) : Z := Z.of_nat (List.length data).
Definition shape1 (data : matrix) : Z := Z.of_nat (List.length (hd [] data)).

(** [a[y][x]]. *)
Definition get2 (a : matrix) (y x : Z) : result Z :=
  row <- py_index a y ;; py_index row x.

(** [l[i] = v]. *)
Definition py_set {A : Type} (l : list A) (i : Z) (v : A) : result (list A) :=
  let len := Z.of_nat (List.length l) in
  let j := if i <? 0 then i + len else i in
  if (0 <=? j) && (j <? len)
  then Ok (firstn (Z.to_nat j) l ++ v :: skipn (S (Z.to_nat j)) l)
  else Raise IndexError.

(** [a[y][x] = v]. *)
Definition set2 (a : matrix) (y x : Z) (v : Z) : result matrix :=
  row <- py_index a y ;;
  row' <- py_set row x v ;;
  py_set a y row'.

Definition move_zig_zag_idx (i j size : Z) : Z * Z :=
  if j <? size - 1 then (Z.max 0 (i - 1), j + 1) else (i + 1, j).

(** The update of the cursor [(x, y)] shared by both traversals. *)
Definition zig_zag_step (x y size : Z) : Z * Z :=
  if (x + y) mod 2 =? 1 then move_zig_zag_idx x y size
  else let '(y', x') := move_zig_zag_idx y x size in (x', y').

(** The [for _ in np.nditer(data)] loop: one iteration per element. *)
Fixpoint iter_zig_zag_loop (n : nat) (data : matrix) (x y : Z)
  : result (list Z) :=
  match n with
  | O => Ok []
  | S n' =>
      v <- get2 data y x ;;
      let '(x', y') := zig_zag_step x y (shape0 data) in
      rest <- iter_zig_zag_loop n' data x' y' ;;
      Ok (v :: rest)
  end.

(** [np.nditer] refuses an array without elements with a [ValueError]. *)
Definition iter_zig_zag (data : matrix) : result (list Z) :=
  if negb (shape0 data =? shape1 data) then Raise ValueError
  else if shape0 data * shape1 data =? 0 then Raise ValueError
  else iter_zig_zag_loop (Z.to_nat (shape0 data * shape1 data)) data 0 0.

(** [np.empty((size, size), dtype=int)]: an array whose contents are whatever
    the memory held, given here by [garbage]. *)
Definition np_empty (garbage : nat -> nat -> Z) (size : Z) : result matrix :=
  if size <? 0 then Raise ValueError
  else
    let n := Z.to_nat size in
    Ok (map (fun r => map (fun c => garbage r c) (seq 0 n)) (seq 0 n)).

(** The [for value in seq] loop of [inverse_iter_zig_zag]. *)
Fixpoint inverse_iter_zig_zag_loop (seq : list Z) (size : Z) (ret : matrix)
  (x y : Z) : result matrix :=
  match seq with
  | [] => Ok ret
  | value :: seq' =>
      ret' <- set2 ret y x value ;;
      let '(x', y') := zig_zag_step x y size in
      inverse_iter_zig_zag_loop seq' size ret' x' y'
  end.

(** [inverse_iter_zig_zag(seq, size, fill)] with [size] given, as at every
    call of this module.  The cells of the array are 64-bit integers: the
    values written are taken here to fit them, as the properties below
    assume or establish (a Python integer that does not fit makes the
    assignment raise [OverflowError], which is not modelled). *)
Definition inverse_iter_zig_zag (garbage : nat -> nat -> Z) (seq : list Z)
  (size : Z) (fill : Z) : result matrix :=
  let seq := seq ++ repeat fill (Z.to_nat (size ^ 2 - Z.of_nat (List.length seq))) in
  ret <- np_empty garbage size ;;
  inverse_iter_zig_zag_loop seq size ret 0 0.

(** ** [Encoder] *)

(** The blocks of the three planes; a block is an 8 x 8 [matrix]. *)
Record planes : Type := Planes {
  plane_y : list matrix;
  plane_cb : list matrix;
  plane_cr : list matrix
}.

(** The four bit strings: [{DC: {LUMINANCE: ..., CHROMINANCE: ...},
    AC: {LUMINANCE: ..., CHROMINANCE: ...}}]. *)
Record bitstreams : Type := Bitstreams {
  dc_luminance : string;
  dc_chrominance : string;
  ac_luminance : string;
  ac_chrominance : string
}.

Definition bits_of (d : bitstreams) (m : dc_ac) (layer : layer_type) : string :=
  match m, layer with
  | DC, LUMINANCE => dc_luminance d
  | DC, CHROMINANCE => dc_chrominance d
  | AC, LUMINANCE => ac_luminance d
  | AC, CHROMINANCE => ac_chrominance d
  end.

Module Encoder.

(** [self.data], as [__init__] builds it. *)
Definition data (d : planes) (layer : layer_type) : list matrix :=
  match layer with
  | LUMINANCE => plane_y d
  | CHROMINANCE => plane_cb d ++ plane_cr d
  end.

(** [_get_diff_dc], for one layer whose array has the dtype [dt]:
    [encode_differential(l[:, 0, 0])]. *)
Definition diff_dc (dt : dtype) (d : planes) (layer : layer_type)
  : result (list Z) :=
  dcs <- mapM (fun block => get2 block 0 0) (data d layer) ;;
  encode_differential_np dt dcs.

(** [_get_run_length_ac], for one layer. *)
Definition run_length_ac (d : planes) (layer : layer_type)
  : result (list (Z * Z)) :=
  groups <- mapM (fun block =>
                    zz <- iter_zig_zag block ;;
                    encode_run_length (tl zz))
                 (data d layer) ;;
  Ok (List.concat groups).

Definition encode_dc (diff : list Z) (layer : layer_type) : result string :=
  codes <- mapM (fun v => encode_huffman (VInt v) layer) diff ;;
  Ok (join codes).

Definition encode_ac (rl : list (Z * Z)) (layer : layer_type)
  : result string :=
  codes <- mapM (fun '(run, v) => encode_huffman (VPair run v) layer) rl ;;
  Ok (join codes).

(** [encode]: the cached properties [diff_dc] and [run_length_ac] are
    computed for both layers at their first use.  [dt] gives the dtype of
    the array of each layer: that of [data['y']], and the common dtype
    [np.vstack] gives the blocks of [data['cb']] and [data['cr']]. *)
Definition encode (dt : layer_type -> dtype) (d : planes)
  : result bitstreams :=
  diff_l <- diff_dc (dt LUMINANCE) d LUMINANCE ;;
  diff_c <- diff_dc (dt CHROMINANCE) d CHROMINANCE ;;
  dc_l <- encode_dc diff_l LUMINANCE ;;
  rl_l <- run_length_ac d LUMINANCE ;;
  rl_c <- run_length_ac d CHROMINANCE ;;
  ac_l <- encode_ac rl_l LUMINANCE ;;
  dc_c <- encode_dc diff_c CHROMINANCE ;;
  ac_c <- encode_ac rl_c CHROMINANCE ;;
  Ok (Bitstreams dc_l dc_c ac_l ac_c).

End Encoder.

(** ** [Decoder] *)

Module Decoder.

Definition as_int (v : hvalue) : result Z :=
  match v with VInt z => Ok z | VPair _ _ => Raise TypeError end.

Definition as_pair (v : hvalue) : result (Z * Z) :=
  match v with VPair run value => Ok (run, value) | VInt _ => Raise TypeError end.

(** [_get_dc], for one layer. *)
Definition dc (d : bitstreams) (layer : layer_type) : result (list Z) :=
  values <- decode_huffman (bits_of d DC layer) DC layer ;;
  ints <- mapM as_int values ;;
  Ok (decode_differential ints).

(** The generator [isplit] nested in [_get_ac]; [ret] is the group being
    collected. *)
Fixpoint isplit (iterable : list (Z * Z)) (splitter : Z * Z)
  (ret : list (Z * Z)) : list (list (Z * Z)) :=
  match iterable with
  | [] => []
  | item :: iterable' =>
      let ret := ret ++ [item] in
      if pair_eqb item splitter then ret :: isplit iterable' splitter []
      else isplit iterable' splitter ret
  end.

(** [_get_ac], for one layer. *)
Definition ac (d : bitstreams) (layer : layer_type)
  : result (list (list Z)) :=
  values <- decode_huffman (bits_of d AC layer) AC layer ;;
  pairs <- mapM as_pair values ;;
  Ok (map decode_run_length (isplit pairs EOB [])).

(** [zip(a, b)]. *)
Definition zip {A B : Type} (a : list A) (b : list B) : list (A * B) :=
  combine a b.

(** The body of the [for layer in (LUMINANCE, CHROMINANCE)] loop. *)
Definition shape_layer (garbage : nat -> nat -> Z) (dcs : list Z)
  (acs : list (list Z)) : result (list matrix) :=
  if negb (Z.of_nat (List.length dcs) =? Z.of_nat (List.length acs))
  then Raise ValueError
  else mapM (fun '(dc, ac) => inverse_iter_zig_zag garbage (dc :: ac) 8 0)
            (zip dcs acs).

(** [np.split(a, 2)] along the first axis: two halves, or [ValueError]
    when the length is odd. *)
Definition np_split2 {A : Type} (a : list A) : result (list A * list A) :=
  let n := Z.of_nat (List.length a) in
  if n mod 2 =? 0
  then Ok (firstn (Z.to_nat (n / 2)) a, skipn (Z.to_nat (n / 2)) a)
  else Raise ValueError.

(** [decode]: the cached properties [dc] and [ac] are computed for both
    layers at their first use.  The test of the chrominance counts reads
    [self.dc] and, unless the DC count is odd, [self.ac]; the message of its
    [ValueError] reads both.  So the DC values and then the AC groups of
    both layers are decoded in every case, an exception of theirs escaping,
    before the [ValueError] of an odd count is raised. *)
Definition decode (garbage : nat -> nat -> Z) (d : bitstreams)
  : result planes :=
  dc_l <- dc d LUMINANCE ;;
  dc_c <- dc d CHROMINANCE ;;
  ac_l <- ac d LUMINANCE ;;
  ac_c <- ac d CHROMINANCE ;;
  if negb (Z.of_nat (List.length dc_c) mod 2 =? 0)
     || negb (Z.of_nat (List.length ac_c) mod 2 =? 0)
  then Raise ValueError
  else
    shaped_l <- shape_layer garbage dc_l ac_l ;;
    shaped_c <- shape_layer garbage dc_c ac_c ;;
    '(cb, cr) <- np_split2 shaped_c ;;
    Ok (Planes shaped_l cb cr).

End Decoder.

(** ** Auxiliary definitions for the properties *)

(** The index [index_2d] finds for a nonzero [v] of category [s]: the
    negative values of a category come first. *)
Definition category_index (s v : Z) : Z :=
  if v <? 0 then v + (2 ^ s - 1) else v.

(** [p] is a prefix of [s], as a test and as a proposition. *)
Fixpoint is_prefix (p s : string) : bool :=
  match p, s with
  | EmptyString, _ => true
  | String a p', String b s' => Ascii.eqb a b && is_prefix p' s'
  | String _ _, EmptyString => false
  end.

Definition prefix_of (p s : string) : Prop := exists r, s = (p ++ r)%string.

(** What the codec relies on in a codeword table, as a test that computes:
    no codeword is empty or longer than the 16-bit window of the decoder, a
    codeword that is a prefix of a codeword belongs to the same key, and a
    key has one codeword. *)
Definition table_wf (t : list (hkey * string)) : bool :=
  forallb (fun e1 =>
    negb (String.eqb (snd e1) EmptyString) &&
    (String.length (snd e1) <=? 16)%nat &&
    forallb (fun e2 =>
      implb (is_prefix (snd e1) (snd e2)) (hkey_eqb (fst e1) (fst e2)) &&
      implb (hkey_eqb (fst e1) (fst e2)) (String.eqb (snd e1) (snd e2))) t) t.

Fixpoint nodup_keys (l : list hkey) : bool :=
  match l with
  | [] => true
  | k :: l' => negb (existsb (hkey_eqb k) l') && nodup_keys l'
  end.

(** The arguments [encode_huffman] accepts: a DC difference within
    [-2047, 2047], [EOB], [ZRL], or a run within [0, 15] with a nonzero value
    within [-1023, 1023]. *)
Definition valid_value (v : hvalue) : Prop :=
  match v with
  | VInt v => Z.abs v <= 2047
  | VPair run value =>
      (run, value) = EOB \/ (run, value) = ZRL \/
      (0 <= run <= 15 /\ 1 <= Z.abs value <= 1023)
  end.

(** The mode in which a value is decoded. *)
Definition mode_of (v : hvalue) : dc_ac :=
  match v with VInt _ => DC | VPair _ _ => AC end.

(** What one iteration of the decoding loop needs of the bits at the cursor:
    a codeword [cw] of key [k], followed by amplitude bits [amp] from which
    [decode_key] yields [v]. *)
Definition decodes_as (m : dc_ac) (layer : layer_type) (code : string)
  (v : hvalue) : Prop :=
  exists (k : hkey) (cw amp : string),
    code = (cw ++ amp)%string /\
    In (k, cw) (HUFFMAN_CATEGORY_CODEWORD m layer) /\
    forall pre rest : string,
      decode_key (pre ++ code ++ rest) m k (str_len pre + str_len cw)
      = Ok (v, str_len amp).

(** The size a key announces, and the test that no key of a table announces
    a negative one. *)
Definition key_size (k : hkey) : Z :=
  match k with KInt size => size | KPair _ size => size end.

Definition table_sizes_nonneg (t : list (hkey * string)) : bool :=
  forallb (fun e => 0 <=? key_size (fst e)) t.

(** The coefficients a list of (length, value) groups stands for. *)
Definition expand (groups : list (Z * Z)) : list Z :=
  flat_map (fun '(n, key) => repeat key (Z.to_nat n)) groups.

(** The coefficients a list of run-length symbols stands for, before
    [decode_run_length] strips the last one. *)
Definition decode_symbols (seq : list (Z * Z)) : list Z :=
  flat_map (fun '(l, k) => repeat 0 (Z.to_nat l) ++ [k]) seq.

(** A list without its trailing zeros. *)
Fixpoint strip_trailing_zeros (l : list Z) : list Z :=
  match l with
  | [] => []
  | x :: l' =>
      match strip_trailing_zeros l' with
      | [] => if x =? 0 then [] else [x]
      | r => x :: r
      end
  end.

(** Groups as [groupby] makes them: no group is empty and neighbours have
    different values. *)
Fixpoint groups_ok (groups : list (Z * Z)) : Prop :=
  match groups with
  | [] => True
  | (n, key) :: tl =>
      1 <= n /\
      match tl with [] => True | (_, key') :: _ => key <> key' end /\
      groups_ok tl
  end.

(** The last group, if any, is not a group of zeros. *)
Fixpoint ends_nonzero (groups : list (Z * Z)) : Prop :=
  match groups with
  | [] => True
  | (_, key) :: tl =>
      match tl with [] => key <> 0 | _ :: _ => ends_nonzero tl end
  end.

(** The symbols [encode_run_length] emits before [EOB], for groups of the
    values [keys]: [ZRL], or a run within [0, 15] and a nonzero value. *)
Definition symbol_ok (keys : list Z) (s : Z * Z) : Prop :=
  s = ZRL \/ (0 <= fst s <= 15 /\ snd s <> 0 /\ In (snd s) keys).

(** The number of [EOB] symbols of a stream. *)
Definition count_eob (stream : list (Z * Z)) : nat :=
  List.length (filter (fun s => pair_eqb s EOB) stream).

(** The groups without a last group of zeros, as [encode_run_length] keeps
    them after [del groups[-1]]. *)
Fixpoint drop_zero_tail (groups : list (Z * Z)) : list (Z * Z) :=
  match groups with
  | [] => []
  | (n, key) :: tl =>
      match tl with
      | [] => if key =? 0 then [] else [(n, key)]
      | _ :: _ => (n, key) :: drop_zero_tail tl
      end
  end.

(** The cursor [(x, y)] of the zig-zag traversals after [k] steps. *)
Fixpoint zig_zag_cursor (size : Z) (k : nat) : Z * Z :=
  match k with
  | O => (0, 0)
  | S k' => let '(x, y) := zig_zag_cursor size k' in zig_zag_step x y size
  end.

(** A [size] x [size] array. *)
Definition is_square (size : Z) (a : matrix) : Prop :=
  shape0 a = size /\ Forall (fun row => Z.of_nat (List.length row) = size) a.

(** Twice the number of cells the traversal of a [size] x [size] array visits
    before the cell [(x, y)]: the cells of the diagonals before its own, and
    those of its own diagonal [d = x + y], which is walked towards larger
    [x] when [d] is even and towards larger [y] when it is odd. *)
Definition zig_zag_rank2 (size x y : Z) : Z :=
  let d := x + y in
  (if d <=? size then d * (d + 1)
   else 2 * size * size - (2 * size - 1 - d) * (2 * size - d))
  + 2 * ((if d mod 2 =? 1 then y else x) - Z.max 0 (d - (size - 1))).

(** The entry of an array at a cursor [(x, y)] within it. *)
Definition entry (a : matrix) (c : Z * Z) : Z :=
  nth (Z.to_nat (fst c)) (nth (Z.to_nat (snd c)) a []) 0.

(** The cursors within a [size] x [size] array. *)
Definition in_square (size : Z) (c : Z * Z) : Prop :=
  0 <= fst c < size /\ 0 <= snd c < size.

(** The cursors of the steps [k], ..., [k + n - 1]. *)
Definition zig_zag_path (size : Z) (k n : nat) : list (Z * Z) :=
  map (zig_zag_cursor size) (seq k n).

(** A list with its element at position [j] replaced. *)
Definition replace_nth {A : Type} (l : list A) (j : nat) (v : A) : list A :=
  firstn j l ++ v :: skipn (S j) l.

(** The DC coefficient of an 8 x 8 block and its 63 AC coefficients in
    zig-zag order. *)
Definition block_dc (block : matrix) : Z := entry block (0, 0).

Definition block_ac (block : matrix) : list Z :=
  tl (map (entry block) (zig_zag_path 8 0 64)).

(** The differences of a sequence: its first value, then each value less
    the one before it. *)
Fixpoint diff_from (prev : Z) (seq : list Z) : list Z :=
  match seq with
  | [] => []
  | x :: seq' => (x - prev) :: diff_from x seq'
  end.

Definition diff_list (seq : list Z) : list Z :=
  match seq with
  | [] => []
  | x :: seq' => x :: diff_from x seq'
  end.

(** The values of a dtype, and the blocks that hold such values only. *)
Definition in_dtype (dt : dtype) (v : Z) : Prop :=
  dtype_min dt <= v <= dtype_max dt.

Definition block_in_dtype (dt : dtype) (block : matrix) : Prop :=
  Forall (Forall (in_dtype dt)) block.

(** The differences of a sequence as they are computed in a dtype: each
    difference is wrapped around. *)
Definition np_diff_list (dt : dtype) (seq : list Z) : list Z :=
  match seq with
  | [] => []
  | x :: seq' => x :: map (dtype_wrap dt) (diff_from x seq')
  end.

(** The dtype of numpy's default integer, for both layers. *)
Definition default_int : layer_type -> dtype := fun _ => Int64.

(** The value [encode_huffman] is given for a run-length symbol. *)
Definition symbol_value (s : Z * Z) : hvalue := VPair (fst s) (snd s).

(** The symbols [out] that come before [EOB] for a block: they stand for its
    AC coefficients without the trailing zeros. *)
Definition block_symbols (block : matrix) (out : list (Z * Z)) : Prop :=
  decode_symbols out = strip_trailing_zeros (block_ac block) /\
  Forall (symbol_ok (block_ac block)) out.

(** ** Sample data *)

(** A block with the DC coefficient [dc] and three nonzero AC
    coefficients. *)
Definition sample_block (dc : Z) : matrix :=
  [ [dc; 2; 0; 0; 0; 0; 0; 0];
    [-1; 0; 0; 0; 0; 0; 0; 0];
    [0; 0; 0; 0; 0; 0; 0; 0];
    [0; 0; 0; -17; 0; 0; 0; 0];
    [0; 0; 0; 0; 0; 0; 0; 0];
    [0; 0; 0; 0; 0; 0; 0; 0];
    [0; 0; 0; 0; 0; 0; 0; 0];
    [0; 0; 0; 0; 0; 0; 0; 0] ].

Definition sample_planes : planes :=
  Planes [sample_block 3; sample_block (-2)] [sample_block 10] [sample_block 7].

Definition zero_garbage : nat -> nat -> Z := fun _ _ => 0.


(** A block that is zero but for its DC coefficient. *)
Definition dc_only_block (dc : Z) : matrix :=
  (dc :: repeat 0 7) :: repeat (repeat 0 8) 7.

(** ** Auxiliary definitions for the further properties *)

(** The keys of a codeword table hold a run within [0, 15], as a test that
    computes. *)
Definition table_runs_in_range (t : list (hkey * string)) : bool :=
  forallb (fun e =>
             match fst e with
             | KInt _ => true
             | KPair run _ => (0 <=? run) && (run <=? 15)
             end) t.

(** The keys a table of mode [m] may hold, as a test that computes: a
    category within [0, 11] in a DC table; in an AC table a run within
    [0, 15] with a category within [1, 10], or [EOB], or [ZRL]. *)
Definition key_in_domain (m : dc_ac) (k : hkey) : bool :=
  match m, k with
  | DC, KInt size => (0 <=? size) && (size <=? 11)
  | AC, KPair run size =>
      (0 <=? run) && (run <=? 15) &&
      ((1 <=? size) && (size <=? 10)
       || (size =? 0) && ((run =? 0) || (run =? 15)))
  | _, _ => false
  end.

Definition table_in_domain (m : dc_ac) (t : list (hkey * string)) : bool :=
  forallb (fun e => key_in_domain m (fst e)) t.

(** A string over the characters 0 and 1. *)
Fixpoint binary (s : string) : bool :=
  match s with
  | EmptyString => true
  | String c s' => (Ascii.eqb c "0" || Ascii.eqb c "1") && binary s'
  end.

(** The groups of a sequence to which one zero is appended. *)
Fixpoint snoc_zero (groups : list (Z * Z)) : list (Z * Z) :=
  match groups with
  | [] => [(1, 0)]
  | (n, key) :: tl =>
      match tl with
      | [] => if key =? 0 then [(n + 1, 0)] else [(n, key); (1, 0)]
      | _ :: _ => (n, key) :: snoc_zero tl
      end
  end.

(** The codewords of a table are strings over 0 and 1. *)
Definition table_binary (t : list (hkey * string)) : bool :=
  forallb (fun e => binary (snd e)) t.

(** The nested helper [smallest_square_larger_than] of
    [inverse_iter_zig_zag]: [for ret in itertools.count(): if ret**2 >=
    value: return ret]; [fuel] bounds the iterations and [value] itself is
    enough. *)
Fixpoint smallest_square_from (fuel : nat) (ret value : Z) : result Z :=
  if ret ^ 2 >=? value then Ok ret
  else
    match fuel with
    | O => Raise OutOfFuel
    | S fuel' => smallest_square_from fuel' (ret + 1) value
    end.

Definition smallest_square_larger_than (value : Z) : result Z :=
  smallest_square_from (Z.to_nat value) 0 value.

(** [inverse_iter_zig_zag(seq, fill=fill)], with [size] left to its default
    [None]. *)
Definition inverse_iter_zig_zag_default (garbage : nat -> nat -> Z)
  (seq : list Z) (fill : Z) : result matrix :=
  size <- smallest_square_larger_than (Z.of_nat (List.length seq)) ;;
  inverse_iter_zig_zag garbage seq size fill.

(** * Properties *)

(** ** Python sequences *)

Lemma range_nil (a b : Z) : b <= a -> range a b = [].
Proof.
  intros H. unfold range. replace (Z.to_nat (b - a)) with O by lia. reflexivity.
Qed.

Lemma range_cons (a b : Z) : a < b -> range a b = a :: range (a + 1) b.
Proof.
  intros H. unfold range.
  replace (Z.to_nat (b - a)) with (S (Z.to_nat (b - (a + 1)))) by lia.
  reflexivity.
Qed.

Lemma range_from_length (a : Z) (n : nat) : List.length (range_from a n) = n.
Proof.
  revert a. induction n as [|n IH]; intros a; cbn; [reflexivity|].
  now rewrite IH.
Qed.

Lemma range_length (a b : Z) : List.length (range a b) = Z.to_nat (b - a).
Proof. apply range_from_length. Qed.

Lemma nth_error_range_from (a : Z) (n i : nat) :
  nth_error (range_from a n) i
  = if (i <? n)%nat then Some (a + Z.of_nat i) else None.
Proof.
  revert a i. induction n as [|n IH]; intros a i.
  - destruct i; reflexivity.
  - destruct i as [|i].
    + cbn. f_equal. lia.
    + cbn [range_from nth_error]. rewrite IH.
      change (S i <? S n)%nat with (i <? n)%nat.
      destruct (i <? n)%nat; [f_equal; lia|reflexivity].
Qed.

Lemma nth_error_range (a b : Z) (i : nat) :
  nth_error (range a b) i =
  if Z.of_nat i <? b - a then Some (a + Z.of_nat i) else None.
Proof.
  unfold range. rewrite nth_error_range_from.
  destruct (Nat.ltb_spec i (Z.to_nat (b - a))),
    (Z.ltb_spec (Z.of_nat i) (b - a)); try reflexivity; lia.
Qed.

Lemma py_index_nonneg {A : Type} (l : list A) (i : Z) (a : A) :
  0 <= i -> nth_error l (Z.to_nat i) = Some a -> py_index l i = Ok a.
Proof.
  intros Hi Hn. unfold py_index.
  assert (Hlt : (Z.to_nat i < List.length l)%nat)
    by (apply nth_error_Some; congruence).
  destruct (Z.ltb_spec i 0); [lia|].
  destruct (Z.leb_spec 0 i); [|lia].
  destruct (Z.ltb_spec i (Z.of_nat (List.length l))); [|lia].
  cbn. now rewrite Hn.
Qed.

(** ** The category table *)

Lemma index_row_app (l1 l2 : list Z) (v j : Z) :
  index_row (l1 ++ l2) v j =
  match index_row l1 v j with
  | Some i => Some i
  | None => index_row l2 v (j + Z.of_nat (List.length l1))
  end.
Proof.
  revert j. induction l1 as [|e l1 IH]; intros j.
  - cbn. f_equal. lia.
  - cbn [app index_row]. destruct (v =? e); [reflexivity|].
    rewrite IH. destruct (index_row l1 v (j + 1)); [reflexivity|].
    f_equal. cbn [List.length]. lia.
Qed.

Lemma index_row_range (a b v j : Z) :
  index_row (range a b) v j =
  if (a <=? v) && (v <? b) then Some (j + (v - a)) else None.
Proof.
  remember (Z.to_nat (b - a)) as n eqn:Hn.
  revert a j Hn. induction n as [|n IH]; intros a j Hn.
  - rewrite range_nil by lia.
    destruct (Z.leb_spec a v), (Z.ltb_spec v b); cbn; try reflexivity; lia.
  - rewrite range_cons by lia. cbn [index_row].
    destruct (Z.eqb_spec v a) as [->|Hne].
    + destruct (Z.leb_spec a a), (Z.ltb_spec a b); cbn; try lia.
      f_equal. lia.
    + rewrite IH by lia.
      destruct (Z.leb_spec (a + 1) v), (Z.leb_spec a v), (Z.ltb_spec v b);
        cbn; try reflexivity; try lia.
      f_equal. lia.
Qed.

Lemma pow2_pos (s : Z) : 0 <= s -> 0 < 2 ^ s.
Proof. intros. apply Z.pow_pos_nonneg; lia. Qed.

Lemma pow2_step (s : Z) : 1 <= s -> 2 ^ s = 2 * 2 ^ (s - 1).
Proof.
  intros. replace s with (Z.succ (s - 1)) at 1 by lia.
  rewrite Z.pow_succ_r by lia. reflexivity.
Qed.

Lemma index_row_canonical (s v : Z) :
  1 <= s ->
  index_row (canonical_order s) v 0 =
  if (2 ^ (s - 1) <=? Z.abs v) && (Z.abs v <? 2 ^ s)
  then Some (category_index s v) else None.
Proof.
  intros Hs. unfold canonical_order, category_index.
  pose proof (pow2_pos (s - 1) ltac:(lia)) as Hp.
  pose proof (pow2_step s Hs) as Hstep.
  rewrite index_row_app, !index_row_range, range_length.
  destruct (Z.leb_spec (- (2 ^ s - 1)) v), (Z.ltb_spec v (- 2 ^ (s - 1) + 1)),
    (Z.leb_spec (2 ^ (s - 1)) v), (Z.ltb_spec v (2 ^ s)),
    (Z.leb_spec (2 ^ (s - 1)) (Z.abs v)), (Z.ltb_spec (Z.abs v) (2 ^ s)),
    (Z.ltb_spec v 0); cbv [andb]; try reflexivity; try lia; f_equal; lia.
Qed.

Lemma canonical_order_ranges (s a b c d : Z) :
  - (2 ^ s - 1) = a -> - 2 ^ (s - 1) + 1 = b -> 2 ^ (s - 1) = c -> 2 ^ s = d ->
  range a b ++ range c d = canonical_order s.
Proof. intros <- <- <- <-. reflexivity. Qed.

Lemma HUFFMAN_CATEGORIES_rows :
  HUFFMAN_CATEGORIES = [0] :: map canonical_order (map Z.of_nat (seq 1 15)).
Proof.
  unfold HUFFMAN_CATEGORIES.
  repeat match goal with
         | |- context [range ?a ?b ++ range ?c ?d] =>
             rewrite (canonical_order_ranges (Z.log2 d) a b c d) by reflexivity
         end.
  change [-1; 1] with (canonical_order 1).
  change [-3; -2; 2; 3] with (canonical_order 2).
  reflexivity.
Qed.

Lemma index_2d_from_canonical (n k : nat) (v : Z) :
  (1 <= k)%nat ->
  2 ^ (Z.of_nat k - 1) <= Z.abs v < 2 ^ (Z.of_nat (k + n) - 1) ->
  index_2d_from (map canonical_order (map Z.of_nat (seq k n))) v (Z.of_nat k)
  = Ok (Z.log2 (Z.abs v) + 1, category_index (Z.log2 (Z.abs v) + 1) v).
Proof.
  revert k. induction n as [|n IH]; intros k Hk Hv.
  - replace (k + 0)%nat with k in Hv by lia. lia.
  - cbn [seq map index_2d_from].
    rewrite index_row_canonical by lia.
    destruct (Z.ltb_spec (Z.abs v) (2 ^ Z.of_nat k)) as [Hlt|Hge].
    + destruct (Z.leb_spec (2 ^ (Z.of_nat k - 1)) (Z.abs v)); [|lia]. cbv [andb].
      assert (Hlog : Z.log2 (Z.abs v) = Z.of_nat k - 1).
      { apply Z.log2_unique; [lia|].
        replace (Z.succ (Z.of_nat k - 1)) with (Z.of_nat k) by lia. lia. }
      rewrite Hlog. repeat f_equal; lia.
    + rewrite andb_false_r.
      replace (Z.of_nat k + 1) with (Z.of_nat (S k)) by lia.
      apply IH; [lia|].
      replace (Z.of_nat (S k) - 1) with (Z.of_nat k) by lia.
      replace (S k + n)%nat with (k + S n)%nat by lia. lia.
Qed.

Lemma index_2d_zero : index_2d HUFFMAN_CATEGORIES 0 = Ok (0, 0).
Proof. reflexivity. Qed.

Lemma index_2d_nonzero (v : Z) :
  v <> 0 -> Z.abs v <= 32767 ->
  index_2d HUFFMAN_CATEGORIES v
  = Ok (Z.log2 (Z.abs v) + 1, category_index (Z.log2 (Z.abs v) + 1) v).
Proof.
  intros Hv Hb. unfold index_2d. rewrite HUFFMAN_CATEGORIES_rows.
  cbn [index_2d_from index_row].
  destruct (Z.eqb_spec v 0); [contradiction|].
  apply (index_2d_from_canonical 15 1); [lia|].
  change (2 ^ (Z.of_nat 1 - 1)) with 1.
  change (2 ^ (Z.of_nat (1 + 15) - 1)) with 32768. lia.
Qed.

Lemma log2_size_bounds (v : Z) :
  v <> 0 ->
  let s := Z.log2 (Z.abs v) + 1 in
  1 <= s /\ 2 ^ (s - 1) <= Z.abs v < 2 ^ s.
Proof.
  intros Hv s. subst s.
  pose proof (Z.log2_nonneg (Z.abs v)).
  pose proof (Z.log2_spec (Z.abs v) ltac:(lia)) as Hs.
  replace (Z.log2 (Z.abs v) + 1 - 1) with (Z.log2 (Z.abs v)) by lia.
  replace (Z.succ (Z.log2 (Z.abs v))) with (Z.log2 (Z.abs v) + 1) in Hs by lia.
  lia.
Qed.

Lemma size_le (v b : Z) :
  v <> 0 -> 0 <= b -> Z.abs v < 2 ^ b -> Z.log2 (Z.abs v) + 1 <= b.
Proof.
  intros Hv Hb Hlt.
  assert (Z.log2 (Z.abs v) < b); [|lia].
  apply Z.log2_lt_pow2; lia.
Qed.

Lemma nth_error_canonical (s v : Z) (j : nat) :
  1 <= s ->
  nth_error (canonical_order s) j = Some v <->
  2 ^ (s - 1) <= Z.abs v < 2 ^ s /\ j = Z.to_nat (category_index s v).
Proof.
  intros Hs. unfold canonical_order, category_index.
  pose proof (pow2_pos (s - 1) ltac:(lia)) as Hp.
  pose proof (pow2_step s Hs) as Hstep.
  destruct (Nat.ltb_spec j (List.length (range (- (2 ^ s - 1)) (- 2 ^ (s - 1) + 1))))
    as [Hj|Hj].
  - rewrite nth_error_app1 by assumption. rewrite range_length in Hj.
    rewrite nth_error_range.
    destruct (Z.ltb_spec (Z.of_nat j) (- 2 ^ (s - 1) + 1 - - (2 ^ s - 1))); [|lia].
    split.
    + intros [= <-]. destruct (Z.ltb_spec (- (2 ^ s - 1) + Z.of_nat j) 0); lia.
    + intros [Hb ->]. f_equal. destruct (Z.ltb_spec v 0); lia.
  - rewrite nth_error_app2 by assumption. rewrite range_length in *.
    rewrite nth_error_range.
    destruct (Z.ltb_spec
      (Z.of_nat (j - Z.to_nat (- 2 ^ (s - 1) + 1 - - (2 ^ s - 1))))
      (2 ^ s - 2 ^ (s - 1))).
    + split.
      * intros [= <-].
        destruct (Z.ltb_spec (2 ^ (s - 1) + Z.of_nat
          (j - Z.to_nat (- 2 ^ (s - 1) + 1 - - (2 ^ s - 1)))) 0); lia.
      * intros [Hb ->]. f_equal. destruct (Z.ltb_spec v 0); lia.
    + split; [discriminate|].
      intros [Hb ->]. destruct (Z.ltb_spec v 0); lia.
Qed.

Lemma py_index_categories (s : Z) :
  1 <= s <= 15 -> py_index HUFFMAN_CATEGORIES s = Ok (canonical_order s).
Proof.
  intros Hs. apply py_index_nonneg; [lia|].
  rewrite HUFFMAN_CATEGORIES_rows.
  replace (Z.to_nat s) with (S (Z.to_nat (s - 1))) by lia.
  cbn [nth_error]. rewrite !nth_error_map, nth_error_seq.
  destruct (Nat.ltb_spec (Z.to_nat (s - 1)) 15); [|lia].
  cbn. f_equal. f_equal. lia.
Qed.

Lemma category_index_bounds (s v : Z) :
  1 <= s -> 2 ^ (s - 1) <= Z.abs v < 2 ^ s ->
  0 <= category_index s v < 2 ^ s.
Proof.
  intros Hs Hv. unfold category_index.
  pose proof (pow2_step s Hs). destruct (Z.ltb_spec v 0); lia.
Qed.

Lemma category_value_index (s v : Z) :
  1 <= s <= 15 -> 2 ^ (s - 1) <= Z.abs v < 2 ^ s ->
  category_value s (category_index s v) = Ok v.
Proof.
  intros Hs Hv. unfold category_value. rewrite py_index_categories by lia.
  cbn [bind]. pose proof (category_index_bounds s v ltac:(lia) Hv).
  apply py_index_nonneg; [lia|].
  apply nth_error_canonical; [lia|]. split; [lia|reflexivity].
Qed.

(** C6.  Category classification is canonical: the lookup of 0 gives
    (0, 0); for a nonzero [v] with [|v| <= 32767] the lookup gives the size
    [floor(log2 |v|) + 1] and the index that is the position of [v] in the
    canonical order of that size, which is also where the category table
    holds [v]. *)
Theorem category_classification_canonical :
  index_2d HUFFMAN_CATEGORIES 0 = Ok (0, 0) /\
  forall v : Z, v <> 0 -> Z.abs v <= 32767 ->
    exists size index : Z,
      index_2d HUFFMAN_CATEGORIES v = Ok (size, index) /\
      size = Z.log2 (Z.abs v) + 1 /\
      0 <= index /\
      (forall j : nat,
          nth_error (canonical_order size) j = Some v <-> j = Z.to_nat index) /\
      category_value size index = Ok v.
Proof.
  split; [exact index_2d_zero|].
  intros v Hv Hb.
  destruct (log2_size_bounds v Hv) as [Hs1 Hs2].
  assert (Hs15 : Z.log2 (Z.abs v) + 1 <= 15).
  { apply size_le; [assumption|lia|]. change (2 ^ 15) with 32768. lia. }
  exists (Z.log2 (Z.abs v) + 1), (category_index (Z.log2 (Z.abs v) + 1) v).
  split; [now apply index_2d_nonzero|]. split; [reflexivity|].
  split; [apply category_index_bounds; assumption|].
  split.
  - intros j. rewrite nth_error_canonical by assumption. tauto.
  - apply category_value_index; [lia|assumption].
Qed.

(** ** Bit strings *)

Lemma str_append_nil_r (s : string) : (s ++ "")%string = s.
Proof. induction s as [|c s IH]; cbn; [reflexivity|now rewrite IH]. Qed.

Lemma str_append_assoc (a b c : string) :
  ((a ++ b) ++ c)%string = (a ++ (b ++ c))%string.
Proof. induction a as [|x a IH]; cbn; [reflexivity|now rewrite IH]. Qed.

Lemma str_length_append (a b : string) :
  String.length (a ++ b) = (String.length a + String.length b)%nat.
Proof. induction a as [|x a IH]; cbn; [reflexivity|now rewrite IH]. Qed.

Lemma str_length_zero (s : string) : String.length s = O -> s = "".
Proof. destruct s; [reflexivity|discriminate]. Qed.

Lemma str_append_inv_r (a b : string) : (a ++ b)%string = a -> b = "".
Proof.
  intros H. apply str_length_zero.
  apply (f_equal String.length) in H. rewrite str_length_append in H. lia.
Qed.

Lemma is_prefix_append (p r : string) : is_prefix p (p ++ r) = true.
Proof.
  induction p as [|c p IH]; cbn; [reflexivity|].
  now rewrite Ascii.eqb_refl, IH.
Qed.

Lemma is_prefix_spec (p s : string) : is_prefix p s = true <-> prefix_of p s.
Proof.
  split.
  - revert s. induction p as [|a p IH]; intros s H.
    + now exists s.
    + destruct s as [|b s]; [discriminate|]. cbn in H.
      apply andb_true_iff in H as [Hab Hp]. apply Ascii.eqb_eq in Hab as ->.
      destruct (IH s Hp) as [r ->]. now exists r.
  - intros [r ->]. apply is_prefix_append.
Qed.

Lemma substring_append_skip (pre s : string) (m : nat) :
  substring (String.length pre) m (pre ++ s) = substring 0 m s.
Proof. induction pre as [|c pre IH]; cbn; [reflexivity|exact IH]. Qed.

Lemma substring_0_append (a b : string) (m : nat) :
  (String.length a <= m)%nat ->
  substring 0 m (a ++ b) = (a ++ substring 0 (m - String.length a) b)%string.
Proof.
  revert m. induction a as [|c a IH]; intros m H.
  - cbn. now rewrite Nat.sub_0_r.
  - cbn in H. destruct m as [|m]; [lia|]. cbn. f_equal. apply IH. lia.
Qed.

Lemma substring_0_all (a : string) :
  substring 0 (String.length a) a = a.
Proof. induction a as [|c a IH]; cbn; [reflexivity|now rewrite IH]. Qed.

Lemma substring_0_exact (a b : string) :
  substring 0 (String.length a) (a ++ b) = a.
Proof.
  induction a as [|c a IH]; cbn; [now destruct b|now rewrite IH].
Qed.

Lemma substring_0_length (s : string) (m : nat) :
  String.length (substring 0 m s) = Nat.min m (String.length s).
Proof.
  revert m. induction s as [|c s IH]; intros [|m]; cbn; try reflexivity.
  now rewrite IH.
Qed.

Lemma drop_last_append (a u : string) :
  u <> "" -> drop_last (a ++ u) = (a ++ drop_last u)%string.
Proof.
  intros Hu. induction a as [|c a IH]; [reflexivity|].
  cbn [append]. cbn [drop_last]. rewrite IH.
  destruct (a ++ u)%string eqn:E; [|reflexivity].
  destruct a; [cbn in E; contradiction|discriminate].
Qed.

Lemma drop_last_length (u : string) :
  String.length (drop_last u) = (String.length u - 1)%nat.
Proof.
  induction u as [|c u IH]; [reflexivity|].
  destruct u as [|d u]; [reflexivity|].
  change (drop_last (String c (String d u))) with (String c (drop_last (String d u))).
  cbn [String.length] in *. rewrite IH. lia.
Qed.

Lemma join_app (l1 l2 : list string) :
  join (l1 ++ l2) = (join l1 ++ join l2)%string.
Proof.
  induction l1 as [|s l1 IH]; cbn; [reflexivity|].
  now rewrite IH, str_append_assoc.
Qed.

(** ** The Huffman codeword tables *)

Lemma hkey_eqb_eq (k1 k2 : hkey) : hkey_eqb k1 k2 = true <-> k1 = k2.
Proof.
  destruct k1, k2; cbn; split; intros H; try discriminate.
  - apply Z.eqb_eq in H. now subst.
  - injection H as ->. apply Z.eqb_refl.
  - apply andb_true_iff in H as [H1 H2].
    apply Z.eqb_eq in H1, H2. now subst.
  - injection H as -> ->. now rewrite !Z.eqb_refl.
Qed.

Lemma hkey_eqb_refl (k : hkey) : hkey_eqb k k = true.
Proof. now apply hkey_eqb_eq. Qed.

Lemma lookup_In (t : list (hkey * string)) (k : hkey) (cw : string) :
  lookup t k = Ok cw -> In (k, cw) t.
Proof.
  induction t as [|[k' cw'] t IH]; cbn; [discriminate|].
  destruct (hkey_eqb k k') eqn:E.
  - apply hkey_eqb_eq in E as ->. intros [= ->]. now left.
  - intros H. right. now apply IH.
Qed.

Lemma inv_lookup_In (t : list (hkey * string)) (k : hkey) (cw : string) :
  inv_lookup t cw = Some k -> In (k, cw) t.
Proof.
  induction t as [|[k' cw'] t IH]; cbn; [discriminate|].
  destruct (String.eqb_spec cw cw') as [->|Hne].
  - intros [= ->]. now left.
  - intros H. right. now apply IH.
Qed.

Section TableFacts.

Variable t : list (hkey * string).
Hypothesis Hwf : table_wf t = true.

Lemma table_wf_entry (k : hkey) (cw : string) :
  In (k, cw) t -> cw <> "" /\ (String.length cw <= 16)%nat.
Proof.
  intros Hin. unfold table_wf in Hwf.
  rewrite forallb_forall in Hwf. specialize (Hwf _ Hin). cbn [fst snd] in Hwf.
  apply andb_true_iff in Hwf as [H12 _].
  apply andb_true_iff in H12 as [H1 H2].
  split.
  - destruct (String.eqb_spec cw ""); [discriminate|assumption].
  - now apply Nat.leb_le.
Qed.

Lemma table_wf_pair (k1 k2 : hkey) (cw1 cw2 : string) :
  In (k1, cw1) t -> In (k2, cw2) t ->
  (prefix_of cw1 cw2 -> k1 = k2) /\ (k1 = k2 -> cw1 = cw2).
Proof.
  intros H1 H2. unfold table_wf in Hwf.
  rewrite forallb_forall in Hwf. specialize (Hwf _ H1). cbn [fst snd] in Hwf.
  apply andb_true_iff in Hwf as [_ H].
  rewrite forallb_forall in H. specialize (H _ H2). cbn [fst snd] in H.
  apply andb_true_iff in H as [Ha Hb].
  split.
  - intros Hp. apply is_prefix_spec in Hp. rewrite Hp in Ha. cbn in Ha.
    now apply hkey_eqb_eq.
  - intros ->. rewrite hkey_eqb_refl in Hb. cbn in Hb.
    now apply String.eqb_eq.
Qed.

Lemma table_prefix_free (k1 k2 : hkey) (cw1 cw2 : string) :
  In (k1, cw1) t -> In (k2, cw2) t -> prefix_of cw1 cw2 -> cw1 = cw2.
Proof.
  intros H1 H2 Hp. destruct (table_wf_pair _ _ _ _ H1 H2) as [Ha Hb]. auto.
Qed.

Lemma table_injective (k1 k2 : hkey) (cw : string) :
  In (k1, cw) t -> In (k2, cw) t -> k1 = k2.
Proof.
  intros H1 H2. destruct (table_wf_pair _ _ _ _ H1 H2) as [Ha _].
  apply Ha. exists "". now rewrite str_append_nil_r.
Qed.

Lemma inv_lookup_found (k : hkey) (cw : string) :
  In (k, cw) t -> inv_lookup t cw = Some k.
Proof.
  intros Hin. destruct (inv_lookup t cw) as [k'|] eqn:E.
  - apply inv_lookup_In in E. f_equal. exact (table_injective _ _ _ E Hin).
  - exfalso. clear Hwf. induction t as [|[k' cw'] t' IH]; [contradiction|].
    cbn in E. destruct (String.eqb_spec cw cw') as [->|Hne]; [discriminate|].
    destruct Hin as [[= -> ->]|Hin]; [contradiction|]. now apply IH.
Qed.

Lemma inv_lookup_longer (k : hkey) (cw u : string) :
  In (k, cw) t -> u <> "" -> inv_lookup t (cw ++ u) = None.
Proof.
  intros Hin Hu. destruct (inv_lookup t (cw ++ u)) as [k'|] eqn:E;
    [|reflexivity].
  apply inv_lookup_In in E. exfalso. apply Hu.
  apply (str_append_inv_r cw). symmetry.
  apply (table_prefix_free _ _ _ _ Hin E). now exists u.
Qed.

(** The inner loop of the decoder finds the codeword that starts its
    window, whatever follows it there. *)
Lemma search_codeword_found (k : hkey) (cw : string) :
  In (k, cw) t ->
  forall (fuel : nat) (u : string),
    (String.length u <= fuel)%nat ->
    search_codeword t fuel (cw ++ u) = Ok (k, cw).
Proof.
  intros Hin. destruct (table_wf_entry _ _ Hin) as [Hne _].
  induction fuel as [|fuel IH]; intros u Hu.
  - rewrite (str_length_zero u) by lia. rewrite str_append_nil_r. cbn.
    destruct (String.eqb_spec cw ""); [contradiction|].
    now rewrite (inv_lookup_found k cw Hin).
  - destruct u as [|c u].
    + rewrite str_append_nil_r. cbn.
      destruct (String.eqb_spec cw ""); [contradiction|].
      now rewrite (inv_lookup_found k cw Hin).
    + cbn [search_codeword].
      destruct (String.eqb_spec (cw ++ String c u) "") as [E|_].
      { destruct cw; discriminate. }
      rewrite (inv_lookup_longer k) by (assumption || discriminate).
      rewrite drop_last_append by discriminate.
      apply IH. rewrite drop_last_length. cbn in *. lia.
Qed.

End TableFacts.

Lemma nodup_keys_NoDup (l : list hkey) : nodup_keys l = true -> NoDup l.
Proof.
  induction l as [|k l IH]; cbn; intros H; constructor.
  - apply andb_true_iff in H as [H _]. intros Hin.
    apply negb_true_iff in H.
    assert (existsb (hkey_eqb k) l = true); [|congruence].
    apply existsb_exists. exists k. split; [assumption|apply hkey_eqb_refl].
  - apply IH. now apply andb_true_iff in H as [_ H].
Qed.

Lemma tables_wf (m : dc_ac) (layer : layer_type) :
  table_wf (HUFFMAN_CATEGORY_CODEWORD m layer) = true.
Proof. destruct m, layer; vm_compute; reflexivity. Qed.

Lemma tables_nodup_keys (m : dc_ac) (layer : layer_type) :
  nodup_keys (map fst (HUFFMAN_CATEGORY_CODEWORD m layer)) = true.
Proof. destruct m, layer; vm_compute; reflexivity. Qed.

(** C4.  Each of the four codeword tables maps its keys, each of which occurs
    once, injectively to bit strings, and is prefix-free: a codeword that is
    a prefix of a codeword of the same table is that codeword. *)
Theorem huffman_tables_injective_prefix_free :
  forall (m : dc_ac) (layer : layer_type),
    let t := HUFFMAN_CATEGORY_CODEWORD m layer in
    NoDup (map fst t) /\
    (forall (k1 k2 : hkey) (cw : string),
        lookup t k1 = Ok cw -> lookup t k2 = Ok cw -> k1 = k2) /\
    (forall (k1 k2 : hkey) (cw1 cw2 : string),
        lookup t k1 = Ok cw1 -> lookup t k2 = Ok cw2 ->
        prefix_of cw1 cw2 -> cw1 = cw2).
Proof.
  intros m layer t. pose proof (tables_wf m layer) as Hwf. fold t in Hwf.
  split; [|split].
  - apply nodup_keys_NoDup, tables_nodup_keys.
  - intros k1 k2 cw H1 H2.
    apply (table_injective t Hwf k1 k2 cw); now apply lookup_In.
  - intros k1 k2 cw1 cw2 H1 H2.
    apply (table_prefix_free t Hwf k1 k2); now apply lookup_In.
Qed.

(** ** Amplitude bits *)

Lemma bin_pos_length (p : positive) (acc : string) :
  String.length (bin_pos p acc) = (Pos.size_nat p + String.length acc)%nat.
Proof.
  revert acc. induction p as [p IH|p IH|]; intros acc; cbn;
    try rewrite IH; cbn; lia.
Qed.

Lemma int2_acc_bin_pos (p : positive) (acc : string) (a : Z) :
  int2_acc (bin_pos p acc) a =
  int2_acc acc (a * 2 ^ Z.of_nat (Pos.size_nat p) + Z.pos p).
Proof.
  revert acc a. induction p as [p IH|p IH|]; intros acc a.
  - cbn [bin_pos Pos.size_nat]. rewrite IH. cbn [int2_acc].
    change (Ascii.eqb "1" "0") with false. change (Ascii.eqb "1" "1") with true.
    cbv iota. f_equal. rewrite Nat2Z.inj_succ, Z.pow_succ_r by lia. lia.
  - cbn [bin_pos Pos.size_nat]. rewrite IH. cbn [int2_acc].
    change (Ascii.eqb "0" "0") with true. cbv iota.
    f_equal. rewrite Nat2Z.inj_succ, Z.pow_succ_r by lia. lia.
  - cbn [bin_pos Pos.size_nat int2_acc].
    change (Ascii.eqb "1" "0") with false. change (Ascii.eqb "1" "1") with true.
    cbv iota. f_equal. change (2 ^ Z.of_nat 1) with 2. lia.
Qed.

Lemma int2_acc_zeros (n : nat) (s : string) :
  int2_acc (zeros n ++ s) 0 = int2_acc s 0.
Proof. induction n as [|n IH]; [reflexivity|exact IH]. Qed.

Lemma zeros_length (n : nat) : String.length (zeros n) = n.
Proof. induction n as [|n IH]; cbn; [reflexivity|now rewrite IH]. Qed.

Lemma size_nat_bound (p : positive) (n : nat) :
  Z.pos p < 2 ^ Z.of_nat n -> (Pos.size_nat p <= n)%nat.
Proof.
  revert n. induction p as [p IH|p IH|]; intros n H.
  - destruct n as [|n]; [cbn in H; lia|].
    rewrite Nat2Z.inj_succ, Z.pow_succ_r in H by lia.
    cbn [Pos.size_nat]. apply le_n_S, IH. lia.
  - destruct n as [|n]; [cbn in H; lia|].
    rewrite Nat2Z.inj_succ, Z.pow_succ_r in H by lia.
    cbn [Pos.size_nat]. apply le_n_S, IH. lia.
  - destruct n as [|n]; [cbn in H; lia|]. cbn. lia.
Qed.

Lemma int2_nonempty (s : string) : s <> "" -> int2 s = int2_acc s 0.
Proof. destruct s; [contradiction|reflexivity]. Qed.

(** The amplitude bits written by the encoder have the declared width and
    read back as the index they encode. *)
Lemma format_0b_roundtrip (idx size : Z) :
  1 <= size -> 0 <= idx < 2 ^ size ->
  Z.of_nat (String.length (format_0b idx size)) = size /\
  int2 (format_0b idx size) = Ok idx.
Proof.
  intros Hs Hi. destruct idx as [|p|p]; [| |lia].
  - unfold format_0b. split.
    + rewrite str_length_append, zeros_length. cbn. lia.
    + rewrite int2_nonempty.
      * now rewrite int2_acc_zeros.
      * intros E. apply (f_equal String.length) in E.
        rewrite str_length_append in E. cbn in E. lia.
  - unfold format_0b.
    assert (Hp : (Pos.size_nat p <= Z.to_nat size)%nat).
    { apply size_nat_bound. rewrite Z2Nat.id by lia. lia. }
    assert (Hlen : String.length (bin_pos p "") = Pos.size_nat p).
    { rewrite bin_pos_length. cbn. lia. }
    split.
    + rewrite str_length_append, zeros_length, Hlen. lia.
    + rewrite int2_nonempty.
      * rewrite int2_acc_zeros, int2_acc_bin_pos. reflexivity.
      * intros E. apply (f_equal String.length) in E.
        rewrite str_length_append, Hlen in E. cbn in E.
        destruct p; cbn in E; lia.
Qed.

(** ** [encode_huffman] *)

Lemma In_range (a b x : Z) : a <= x < b -> In x (range a b).
Proof.
  intros H. apply (nth_error_In _ (Z.to_nat (x - a))).
  rewrite nth_error_range.
  destruct (Z.ltb_spec (Z.of_nat (Z.to_nat (x - a))) (b - a)); [|lia].
  f_equal. lia.
Qed.

Lemma lookup_dc_ok (layer : layer_type) (size : Z) :
  0 <= size <= 11 ->
  exists cw, lookup (HUFFMAN_CATEGORY_CODEWORD DC layer) (KInt size) = Ok cw.
Proof.
  intros Hs.
  assert (Hall : forallb (fun s =>
            is_ok (lookup (HUFFMAN_CATEGORY_CODEWORD DC layer) (KInt s)))
            (range 0 12) = true)
    by (destruct layer; vm_compute; reflexivity).
  rewrite forallb_forall in Hall.
  specialize (Hall size (In_range 0 12 size ltac:(lia))).
  destruct (lookup _ _) as [cw|]; [now exists cw|discriminate].
Qed.

Lemma lookup_ac_ok (layer : layer_type) (run size : Z) :
  0 <= run <= 15 -> 1 <= size <= 10 ->
  exists cw,
    lookup (HUFFMAN_CATEGORY_CODEWORD AC layer) (KPair run size) = Ok cw.
Proof.
  intros Hr Hs.
  assert (Hall : forallb (fun r => forallb (fun s =>
            is_ok (lookup (HUFFMAN_CATEGORY_CODEWORD AC layer) (KPair r s)))
            (range 1 11)) (range 0 16) = true)
    by (destruct layer; vm_compute; reflexivity).
  rewrite forallb_forall in Hall.
  specialize (Hall run (In_range 0 16 run ltac:(lia))).
  rewrite forallb_forall in Hall.
  specialize (Hall size (In_range 1 11 size ltac:(lia))).
  destruct (lookup _ _) as [cw|]; [now exists cw|discriminate].
Qed.

Lemma size_bounds_of_abs (v b : Z) :
  v <> 0 -> 0 <= b -> Z.abs v < 2 ^ b ->
  let s := Z.log2 (Z.abs v) + 1 in
  1 <= s <= b /\ 2 ^ (s - 1) <= Z.abs v < 2 ^ s.
Proof.
  intros Hv Hb Hlt s. destruct (log2_size_bounds v Hv) as [H1 H2].
  pose proof (size_le v b Hv Hb Hlt). subst s. lia.
Qed.

(** The bit string of a nonzero DC difference: the codeword of its size and
    the bits of its index. *)
Lemma encode_huffman_dc_nonzero (v : Z) (layer : layer_type) :
  v <> 0 -> Z.abs v <= 2047 ->
  let s := Z.log2 (Z.abs v) + 1 in
  exists cw,
    lookup (HUFFMAN_CATEGORY_CODEWORD DC layer) (KInt s) = Ok cw /\
    encode_huffman (VInt v) layer
    = Ok (cw ++ format_0b (category_index s v) s)%string.
Proof.
  intros Hv Hb s.
  destruct (size_bounds_of_abs v 11 Hv ltac:(lia)) as [Hs Hvs].
  { change (2 ^ 11) with 2048. lia. }
  fold s in Hs, Hvs.
  destruct (lookup_dc_ok layer s ltac:(lia)) as [cw Hcw].
  exists cw. split; [exact Hcw|].
  unfold encode_huffman.
  destruct (Z.leb_spec v (-2048)); [lia|].
  destruct (Z.geb_spec v 2048); [lia|]. cbv [orb].
  rewrite index_2d_nonzero by lia. fold s. cbn [bind].
  destruct (Z.eqb_spec s 0); [lia|]. rewrite Hcw. reflexivity.
Qed.

Lemma encode_huffman_dc_zero (layer : layer_type) :
  exists cw,
    lookup (HUFFMAN_CATEGORY_CODEWORD DC layer) (KInt 0) = Ok cw /\
    encode_huffman (VInt 0) layer = Ok cw.
Proof. destruct layer; eexists; split; reflexivity. Qed.

Lemma encode_huffman_eob_zrl (run value : Z) (layer : layer_type) :
  (run, value) = EOB \/ (run, value) = ZRL ->
  exists cw,
    lookup (HUFFMAN_CATEGORY_CODEWORD AC layer) (KPair run value) = Ok cw /\
    encode_huffman (VPair run value) layer = Ok cw.
Proof.
  intros [[= -> ->]|[= -> ->]]; destruct layer; eexists; split; reflexivity.
Qed.

Lemma encode_huffman_ac_nonzero (run v : Z) (layer : layer_type) :
  0 <= run <= 15 -> v <> 0 -> Z.abs v <= 1023 ->
  let s := Z.log2 (Z.abs v) + 1 in
  exists cw,
    lookup (HUFFMAN_CATEGORY_CODEWORD AC layer) (KPair run s) = Ok cw /\
    encode_huffman (VPair run v) layer
    = Ok (cw ++ format_0b (category_index s v) s)%string.
Proof.
  intros Hr Hv Hb s.
  destruct (size_bounds_of_abs v 10 Hv ltac:(lia)) as [Hs Hvs].
  { change (2 ^ 10) with 1024. lia. }
  fold s in Hs, Hvs.
  destruct (lookup_ac_ok layer run s Hr ltac:(lia)) as [cw Hcw].
  exists cw. split; [exact Hcw|].
  unfold encode_huffman, pair_eqb, EOB, ZRL. cbn [fst snd].
  destruct (Z.eqb_spec v 0); [contradiction|]. rewrite !andb_false_r.
  destruct (Z.leb_spec v (-1024)); [lia|].
  destruct (Z.geb_spec v 1024); [lia|]. cbv [orb].
  rewrite index_2d_nonzero by lia. fold s. cbn [bind].
  rewrite Hcw. reflexivity.
Qed.

(** C7.  [encode_huffman] raises [ValueError] exactly on an argument out of
    bounds: on a DC difference [v] when [|v| >= 2048]; on an AC pair
    [(run, value)] with [run] in [0, 15] that is neither [EOB] nor [ZRL] when
    [value = 0] or [|value| >= 1024].  On every other such argument it
    returns a bit string. *)
Theorem encode_huffman_raises_iff_out_of_bounds :
  forall layer : layer_type,
    (forall v : Z,
        (Z.abs v >= 2048 -> encode_huffman (VInt v) layer = Raise ValueError) /\
        (Z.abs v < 2048 ->
         exists bits, encode_huffman (VInt v) layer = Ok bits)) /\
    (forall run value : Z,
        0 <= run <= 15 -> (run, value) <> EOB -> (run, value) <> ZRL ->
        (value = 0 \/ Z.abs value >= 1024 ->
         encode_huffman (VPair run value) layer = Raise ValueError) /\
        (~ (value = 0 \/ Z.abs value >= 1024) ->
         exists bits, encode_huffman (VPair run value) layer = Ok bits)).
Proof.
  intros layer. split.
  - intros v. split.
    + intros Hv. unfold encode_huffman.
      destruct (Z.leb_spec v (-2048)); [reflexivity|].
      destruct (Z.geb_spec v 2048); [reflexivity|]. lia.
    + intros Hv. destruct (Z.eq_dec v 0) as [->|Hne].
      * destruct (encode_huffman_dc_zero layer) as [cw [_ H]]. now exists cw.
      * destruct (encode_huffman_dc_nonzero v layer Hne ltac:(lia))
          as [cw [_ H]]. eexists. exact H.
  - intros run value Hr Heob Hzrl. split.
    + intros Hv. unfold encode_huffman.
      assert (E : pair_eqb (run, value) EOB || pair_eqb (run, value) ZRL = false).
      { unfold pair_eqb, EOB, ZRL in *. cbn [fst snd].
        destruct (Z.eqb_spec run 0), (Z.eqb_spec run 15), (Z.eqb_spec value 0);
          subst; try reflexivity; try lia; congruence. }
      rewrite E.
      destruct (Z.eqb_spec value 0); [reflexivity|].
      destruct (Z.leb_spec value (-1024)); [reflexivity|].
      destruct (Z.geb_spec value 1024); [reflexivity|]. lia.
    + intros Hv.
      destruct (encode_huffman_ac_nonzero run value layer Hr
                  ltac:(lia) ltac:(lia)) as [cw [_ H]].
      eexists. exact H.
Qed.

(** ** [decode_huffman] *)

Lemma str_len_append (a b : string) : str_len (a ++ b) = str_len a + str_len b.
Proof. unfold str_len. rewrite str_length_append. lia. Qed.

Lemma str_len_nonneg (a : string) : 0 <= str_len a.
Proof. unfold str_len. lia. Qed.

(** The amplitude bits [amp] that follow [pre] are read back by
    [diff_value]. *)
Lemma diff_value_at (pre amp rest : string) (size : Z) :
  str_len amp = size -> 1 <= size ->
  diff_value (pre ++ amp ++ rest) (str_len pre) size = int2 amp.
Proof.
  intros <- Hne. unfold diff_value, slice.
  rewrite !str_len_append.
  pose proof (str_len_nonneg rest).
  destruct (Z.geb_spec (str_len pre) (str_len pre + (str_len amp + str_len rest)));
    [lia|].
  destruct (Z.gtb_spec (str_len pre + str_len amp)
              (str_len pre + (str_len amp + str_len rest))); [lia|].
  cbv [orb]. f_equal. unfold str_len.
  rewrite Nat2Z.id.
  replace (Z.to_nat (Z.of_nat (String.length pre) + Z.of_nat (String.length amp)
                     - Z.of_nat (String.length pre)))
    with (String.length amp) by lia.
  rewrite substring_append_skip. apply substring_0_exact.
Qed.

Lemma decode_huffman_loop_step (m : dc_ac) (layer : layer_type)
  (code : string) (v : hvalue) (pre rest : string) (fuel : nat) :
  decodes_as m layer code v ->
  decode_huffman_loop (S fuel) (pre ++ code ++ rest) m layer (str_len pre)
  = (tl <- decode_huffman_loop fuel (pre ++ code ++ rest) m layer
             (str_len (pre ++ code)) ;;
     Ok (v :: tl)).
Proof.
  intros (k & cw & amp & -> & Hin & Hkey).
  pose proof (tables_wf m layer) as Hwf.
  destruct (table_wf_entry _ Hwf k cw Hin) as [Hne H16].
  specialize (Hkey pre rest).
  set (bit_seq := (pre ++ (cw ++ amp) ++ rest)%string) in *.
  assert (Hlen : str_len bit_seq
                 = str_len pre + (str_len cw + (str_len amp + str_len rest))).
  { unfold bit_seq. rewrite !str_len_append. lia. }
  assert (Hcw : 0 < str_len cw).
  { unfold str_len. destruct cw; [contradiction|cbn; lia]. }
  pose proof (str_len_nonneg amp). pose proof (str_len_nonneg rest).
  cbn [decode_huffman_loop].
  destruct (Z.ltb_spec (str_len pre) (str_len bit_seq)); [|lia].
  set (w := if str_len bit_seq - str_len pre >? 16 then 16
            else str_len bit_seq - str_len pre).
  assert (Hw : str_len cw <= w).
  { subst w. unfold str_len in *.
    destruct (Z.gtb_spec (Z.of_nat (String.length bit_seq)
                          - Z.of_nat (String.length pre)) 16); lia. }
  assert (Hslice : exists u,
             slice bit_seq (str_len pre) (str_len pre + w) = (cw ++ u)%string).
  { unfold slice, str_len. rewrite Nat2Z.id. unfold bit_seq.
    rewrite substring_append_skip, !str_append_assoc.
    rewrite substring_0_append by (unfold str_len in *; lia).
    eexists. reflexivity. }
  destruct Hslice as [u Hu]. rewrite Hu.
  rewrite (search_codeword_found _ Hwf k cw Hin)
    by (rewrite str_length_append; lia).
  cbn [bind]. rewrite Hkey. cbn [bind].
  rewrite !str_len_append.
  replace (str_len pre + (str_len cw + str_len amp))
    with (str_len pre + (str_len cw + str_len amp)) by reflexivity.
  reflexivity.
Qed.

Lemma decode_huffman_loop_end (fuel : nat) (bit_seq : string) (m : dc_ac)
  (layer : layer_type) :
  decode_huffman_loop fuel bit_seq m layer (str_len bit_seq) = Ok [].
Proof.
  destruct fuel; cbn; now rewrite Z.ltb_irrefl.
Qed.

(** A concatenation of codes decodes to the values they stand for. *)
Lemma decode_huffman_loop_codes (m : dc_ac) (layer : layer_type)
  (codes : list string) (vs : list hvalue) :
  Forall2 (decodes_as m layer) codes vs ->
  forall (pre : string) (fuel : nat),
    (List.length vs <= fuel)%nat ->
    decode_huffman_loop fuel (pre ++ join codes) m layer (str_len pre) = Ok vs.
Proof.
  induction 1 as [|code v codes vs Hcv Hall IH]; intros pre fuel Hfuel.
  - cbn [join]. rewrite str_append_nil_r. apply decode_huffman_loop_end.
  - destruct fuel as [|fuel]; [cbn in Hfuel; lia|].
    cbn [join]. rewrite (decode_huffman_loop_step m layer code v pre (join codes) fuel Hcv).
    rewrite <- str_append_assoc. rewrite IH by (cbn in Hfuel; lia).
    reflexivity.
Qed.

Lemma decodes_as_nonempty (m : dc_ac) (layer : layer_type) (code : string)
  (v : hvalue) : decodes_as m layer code v -> (1 <= String.length code)%nat.
Proof.
  intros (k & cw & amp & -> & Hin & _).
  destruct (table_wf_entry _ (tables_wf m layer) k cw Hin) as [Hne _].
  rewrite str_length_append. destruct cw; [contradiction|cbn; lia].
Qed.

Lemma join_length_ge (m : dc_ac) (layer : layer_type) (codes : list string)
  (vs : list hvalue) :
  Forall2 (decodes_as m layer) codes vs ->
  (List.length vs <= String.length (join codes))%nat.
Proof.
  induction 1 as [|code v codes vs Hcv Hall IH]; [cbn; lia|].
  cbn [join List.length]. rewrite str_length_append.
  pose proof (decodes_as_nonempty _ _ _ _ Hcv). lia.
Qed.

Lemma decode_huffman_codes (m : dc_ac) (layer : layer_type)
  (codes : list string) (vs : list hvalue) :
  Forall2 (decodes_as m layer) codes vs ->
  decode_huffman (join codes) m layer = Ok vs.
Proof.
  intros H. unfold decode_huffman.
  apply (decode_huffman_loop_codes _ _ _ _ H "").
  now apply join_length_ge with (m := m) (layer := layer).
Qed.

(** The bits written for a valid value decode as that value. *)
Lemma encode_huffman_decodes (v : hvalue) (layer : layer_type) :
  valid_value v ->
  exists code,
    encode_huffman v layer = Ok code /\ decodes_as (mode_of v) layer code v.
Proof.
  destruct v as [v|run v]; cbn [valid_value mode_of].
  - intros Hb. destruct (Z.eq_dec v 0) as [->|Hne].
    + destruct (encode_huffman_dc_zero layer) as [cw [Hcw He]].
      exists cw. split; [exact He|].
      exists (KInt 0), cw, "". rewrite str_append_nil_r.
      split; [reflexivity|]. split; [now apply lookup_In|].
      intros pre rest. reflexivity.
    + destruct (encode_huffman_dc_nonzero v layer Hne Hb) as [cw [Hcw He]].
      destruct (size_bounds_of_abs v 11 Hne ltac:(lia)) as [Hs Hvs].
      { change (2 ^ 11) with 2048. lia. }
      set (s := Z.log2 (Z.abs v) + 1) in *.
      pose proof (category_index_bounds s v ltac:(lia) Hvs) as Hidx.
      destruct (format_0b_roundtrip (category_index s v) s ltac:(lia) Hidx)
        as [Hlen Hint].
      eexists. split; [exact He|].
      exists (KInt s), cw, (format_0b (category_index s v) s).
      split; [reflexivity|]. split; [now apply lookup_In|].
      intros pre rest. unfold decode_key.
      destruct (Z.eqb_spec s 0); [lia|].
      rewrite py_index_categories by lia. cbn [bind].
      rewrite <- str_len_append, !str_append_assoc, <- str_append_assoc.
      rewrite (diff_value_at _ _ _ s Hlen) by lia.
      rewrite Hint. cbn [bind]. unfold str_len at 1. rewrite Hlen.
      rewrite (py_index_nonneg _ _ v); [reflexivity|lia|].
      apply nth_error_canonical; [lia|]. split; [lia|reflexivity].
  - intros [E|[E|[Hr Hb]]].
    + destruct (encode_huffman_eob_zrl run v layer (or_introl E))
        as [cw [Hcw He]].
      exists cw. split; [exact He|].
      exists (KPair run v), cw, "". rewrite str_append_nil_r.
      split; [reflexivity|]. split; [now apply lookup_In|].
      intros pre rest. injection E as -> ->. reflexivity.
    + destruct (encode_huffman_eob_zrl run v layer (or_intror E))
        as [cw [Hcw He]].
      exists cw. split; [exact He|].
      exists (KPair run v), cw, "". rewrite str_append_nil_r.
      split; [reflexivity|]. split; [now apply lookup_In|].
      intros pre rest. injection E as -> ->. reflexivity.
    + assert (Hne : v <> 0) by lia.
      destruct (encode_huffman_ac_nonzero run v layer Hr Hne ltac:(lia))
        as [cw [Hcw He]].
      destruct (size_bounds_of_abs v 10 Hne ltac:(lia)) as [Hs Hvs].
      { change (2 ^ 10) with 1024. lia. }
      set (s := Z.log2 (Z.abs v) + 1) in *.
      pose proof (category_index_bounds s v ltac:(lia) Hvs) as Hidx.
      destruct (format_0b_roundtrip (category_index s v) s ltac:(lia) Hidx)
        as [Hlen Hint].
      eexists. split; [exact He|].
      exists (KPair run s), cw, (format_0b (category_index s v) s).
      split; [reflexivity|]. split; [now apply lookup_In|].
      intros pre rest. unfold decode_key, pair_eqb, EOB, ZRL. cbn [fst snd].
      destruct (Z.eqb_spec s 0); [lia|]. rewrite !andb_false_r. cbv [orb].
      rewrite py_index_categories by lia. cbn [bind].
      rewrite <- str_len_append, !str_append_assoc, <- str_append_assoc.
      rewrite (diff_value_at _ _ _ s Hlen) by lia.
      rewrite Hint. cbn [bind]. unfold str_len at 1. rewrite Hlen.
      rewrite (py_index_nonneg _ _ v); [reflexivity|lia|].
      apply nth_error_canonical; [lia|]. split; [lia|reflexivity].
Qed.

(** C5.  Single-symbol round trip: the bit string [encode_huffman] writes
    for a DC difference within [-2047, 2047], for [EOB], for [ZRL] or for a
    pair of a run within [0, 15] and a nonzero value within [-1023, 1023]
    decodes, in the matching mode and layer, to that one value and nothing
    more. *)
Theorem huffman_single_symbol_roundtrip :
  forall (layer : layer_type) (v : hvalue),
    valid_value v ->
    exists bits,
      encode_huffman v layer = Ok bits /\
      decode_huffman bits (mode_of v) layer = Ok [v].
Proof.
  intros layer v Hv.
  destruct (encode_huffman_decodes v layer Hv) as [code [He Hd]].
  exists code. split; [exact He|].
  replace code with (join [code]) by (cbn; apply str_append_nil_r).
  apply decode_huffman_codes. constructor; [exact Hd|constructor].
Qed.

(** *** The loops of [decode_huffman] end within their bounds *)

Lemma search_codeword_result (t : list (hkey * string)) (fuel : nat)
  (w : string) :
  (String.length w <= fuel)%nat ->
  match search_codeword t fuel w with
  | Ok (key, cs) => In (key, cs) t /\ (1 <= String.length cs)%nat
  | Raise e => e = KeyError
  end.
Proof.
  revert w. induction fuel as [|fuel IH]; intros w Hlen.
  - rewrite (str_length_zero w) by lia. reflexivity.
  - cbn [search_codeword].
    destruct (String.eqb_spec w "") as [->|Hne]; [reflexivity|].
    destruct (inv_lookup t w) as [key|] eqn:E.
    + split; [now apply inv_lookup_In|].
      destruct w; [contradiction|cbn; lia].
    + apply IH. rewrite drop_last_length. lia.
Qed.

Lemma tables_sizes_nonneg (m : dc_ac) (layer : layer_type) :
  table_sizes_nonneg (HUFFMAN_CATEGORY_CODEWORD m layer) = true.
Proof. destruct m, layer; vm_compute; reflexivity. Qed.

Lemma decode_key_size (bit_seq : string) (m : dc_ac) (key : hkey) (after : Z)
  (item : hvalue) (size : Z) :
  decode_key bit_seq m key after = Ok (item, size) -> size = key_size key.
Proof.
  unfold decode_key. destruct m, key as [s|r s]; try discriminate.
  - destruct (s =? 0); [now intros [= _ <-]|].
    destruct (py_index _ _); [|discriminate]. cbn [bind].
    destruct (diff_value _ _ _); [|discriminate]. cbn [bind].
    destruct (py_index _ _); [|discriminate]. now intros [= _ <-].
  - destruct (_ || _); [now intros [= _ <-]|].
    destruct (py_index _ _); [|discriminate]. cbn [bind].
    destruct (diff_value _ _ _); [|discriminate]. cbn [bind].
    destruct (py_index _ _); [|discriminate]. now intros [= _ <-].
Qed.

Lemma decode_key_no_fuel_error (bit_seq : string) (m : dc_ac) (key : hkey)
  (after : Z) : decode_key bit_seq m key after <> Raise OutOfFuel.
Proof.
  assert (Hidx : forall (A : Type) (l : list A) i,
             py_index l i <> Raise OutOfFuel).
  { intros A l i. unfold py_index.
    destruct (_ && _); [|discriminate]. destruct (nth_error _ _); discriminate. }
  assert (Hint : forall s a, int2_acc s a <> Raise OutOfFuel).
  { induction s as [|c s IH]; intros a; cbn; [discriminate|].
    destruct (Ascii.eqb c "0"); [apply IH|].
    destruct (Ascii.eqb c "1"); [apply IH|discriminate]. }
  assert (Hdiff : forall i s, diff_value bit_seq i s <> Raise OutOfFuel).
  { intros i s. unfold diff_value. destruct (_ || _); [discriminate|].
    unfold int2. destruct (slice _ _ _); [discriminate|apply Hint]. }
  unfold decode_key. destruct m, key as [s|r s]; try discriminate.
  - destruct (s =? 0); [discriminate|].
    destruct (py_index HUFFMAN_CATEGORIES s) as [row|e] eqn:E1; cbn [bind].
    2:{ intros [= ->]. now apply (Hidx _ HUFFMAN_CATEGORIES s). }
    destruct (diff_value bit_seq after s) as [i|e] eqn:E2; cbn [bind].
    2:{ intros [= ->]. now apply (Hdiff after s). }
    destruct (py_index row i) as [v|e] eqn:E3; cbn [bind]; [discriminate|].
    intros [= ->]. now apply (Hidx _ row i).
  - destruct (_ || _); [discriminate|].
    destruct (py_index HUFFMAN_CATEGORIES s) as [row|e] eqn:E1; cbn [bind].
    2:{ intros [= ->]. now apply (Hidx _ HUFFMAN_CATEGORIES s). }
    destruct (diff_value bit_seq after s) as [i|e] eqn:E2; cbn [bind].
    2:{ intros [= ->]. now apply (Hdiff after s). }
    destruct (py_index row i) as [v|e] eqn:E3; cbn [bind]; [discriminate|].
    intros [= ->]. now apply (Hidx _ row i).
Qed.

Lemma decode_huffman_loop_in_bound (m : dc_ac) (layer : layer_type)
  (bit_seq : string) (fuel : nat) (idx : Z) :
  0 <= idx -> str_len bit_seq - idx <= Z.of_nat fuel ->
  decode_huffman_loop fuel bit_seq m layer idx <> Raise OutOfFuel.
Proof.
  revert idx. induction fuel as [|fuel IH]; intros idx Hidx Hfuel.
  - cbn. destruct (Z.ltb_spec idx (str_len bit_seq)); [lia|discriminate].
  - cbn [decode_huffman_loop].
    destruct (Z.ltb_spec idx (str_len bit_seq)); [|discriminate].
    match goal with
    | |- context [search_codeword ?t ?f ?w] =>
        pose proof (search_codeword_result t f w (le_n _)) as Hs;
        destruct (search_codeword t f w) as [[key cs]|e]
    end; cbn [bind].
    2:{ subst e. discriminate. }
    destruct Hs as [Hin Hcs].
    destruct (decode_key bit_seq m key (idx + str_len cs))
      as [[item size]|e] eqn:Ek; cbn [bind].
    2:{ intros [= ->]. now apply decode_key_no_fuel_error in Ek. }
    apply decode_key_size in Ek.
    pose proof (tables_sizes_nonneg m layer) as Hnn.
    unfold table_sizes_nonneg in Hnn. rewrite forallb_forall in Hnn.
    specialize (Hnn _ Hin). cbn [fst] in Hnn. apply Z.leb_le in Hnn.
    assert (Hnext : decode_huffman_loop fuel bit_seq m layer
                      (idx + (str_len cs + size)) <> Raise OutOfFuel).
    { apply IH; unfold str_len in *; lia. }
    destruct (decode_huffman_loop fuel bit_seq m layer
                (idx + (str_len cs + size))); cbn [bind];
      [discriminate|congruence].
Qed.

(** The iteration bound in [decode_huffman] is never reached: whatever the
    bits, the model returns the values or a Python exception. *)
Lemma decode_huffman_total (bit_seq : string) (m : dc_ac) (layer : layer_type) :
  decode_huffman bit_seq m layer <> Raise OutOfFuel.
Proof.
  unfold decode_huffman. apply decode_huffman_loop_in_bound;
    unfold str_len; lia.
Qed.

(** ** Run-length coding *)

Lemma groupby_ok (seq : list Z) : groups_ok (groupby seq).
Proof.
  induction seq as [|x seq IH]; [exact I|].
  cbn [groupby]. destruct (groupby seq) as [|[n key] groups].
  - cbn. lia.
  - destruct (Z.eqb_spec x key) as [->|Hne].
    + cbn [groups_ok] in *. destruct IH as (Hn & Hk & Hok). repeat split; auto.
      lia.
    + cbn [groups_ok] in *. repeat split; auto; try lia; tauto.
Qed.

Lemma groupby_expand (seq : list Z) : expand (groupby seq) = seq.
Proof.
  induction seq as [|x seq IH]; [reflexivity|].
  pose proof (groupby_ok seq) as Hok.
  cbn [groupby]. destruct (groupby seq) as [|[n key] groups].
  - cbn in IH. subst seq. reflexivity.
  - destruct Hok as (Hn & _ & _).
    destruct (Z.eqb_spec x key) as [->|Hne].
    + rewrite <- IH. unfold expand. cbn [flat_map].
      replace (Z.to_nat (n + 1)) with (S (Z.to_nat n)) by lia. reflexivity.
    + rewrite <- IH. reflexivity.
Qed.

Lemma py_index_last {A : Type} (l : list A) (a : A) :
  py_index (l ++ [a]) (-1) = Ok a.
Proof.
  unfold py_index. rewrite length_app. cbn [List.length].
  change (-1 <? 0) with true. cbv iota.
  destruct (Z.leb_spec 0 (-1 + Z.of_nat (List.length l + 1))); [|lia].
  destruct (Z.ltb_spec (-1 + Z.of_nat (List.length l + 1))
              (Z.of_nat (List.length l + 1))); [|lia].
  cbn [andb].
  replace (Z.to_nat (-1 + Z.of_nat (List.length l + 1))) with (List.length l)
    by lia.
  rewrite nth_error_app2, Nat.sub_diag by lia. reflexivity.
Qed.

Lemma py_index_empty {A : Type} (i : Z) : py_index (@nil A) i = Raise IndexError.
Proof.
  unfold py_index. cbn [List.length]. change (Z.of_nat 0) with 0.
  destruct (i <? 0).
  - destruct (Z.leb_spec 0 (i + 0)), (Z.ltb_spec (i + 0) 0);
      cbn [andb]; try reflexivity; lia.
  - destruct (Z.leb_spec 0 i), (Z.ltb_spec i 0);
      cbn [andb]; try reflexivity; lia.
Qed.

Lemma py_index_middle {A : Type} (done : list A) (a : A) (tl : list A) (i : Z) :
  i = Z.of_nat (List.length done) -> py_index (done ++ a :: tl) i = Ok a.
Proof.
  intros ->. apply py_index_nonneg; [lia|].
  rewrite Nat2Z.id, nth_error_app2, Nat.sub_diag by lia. reflexivity.
Qed.

(** *** Trailing zeros *)

Lemma strip_cons (x : Z) (l : list Z) :
  x <> 0 \/ strip_trailing_zeros l <> [] ->
  strip_trailing_zeros (x :: l) = x :: strip_trailing_zeros l.
Proof.
  intros H. cbn [strip_trailing_zeros].
  destruct (strip_trailing_zeros l); [|reflexivity].
  destruct (Z.eqb_spec x 0); [|reflexivity]. destruct H; contradiction.
Qed.

Lemma strip_cons_nonnil (x : Z) (l : list Z) :
  x <> 0 -> strip_trailing_zeros (x :: l) <> [].
Proof. intros H. rewrite strip_cons by now left. discriminate. Qed.

Lemma strip_zeros (n : nat) : strip_trailing_zeros (repeat 0 n) = [].
Proof.
  induction n as [|n IH]; [reflexivity|].
  cbn [repeat strip_trailing_zeros]. rewrite IH. reflexivity.
Qed.

Lemma strip_repeat_app (k : Z) (n : nat) (l : list Z) :
  k <> 0 \/ strip_trailing_zeros l <> [] ->
  strip_trailing_zeros (repeat k n ++ l) = repeat k n ++ strip_trailing_zeros l.
Proof.
  intros H. induction n as [|n IH]; [reflexivity|].
  cbn [repeat app]. rewrite strip_cons; [now rewrite IH|].
  destruct H as [H|H]; [now left|]. right. rewrite IH.
  intros E. apply app_eq_nil in E. tauto.
Qed.

Lemma strip_repeat_nonzero (k : Z) (n : nat) :
  k <> 0 -> strip_trailing_zeros (repeat k n) = repeat k n.
Proof.
  intros H. rewrite <- (app_nil_r (repeat k n)) at 1.
  rewrite strip_repeat_app by now left. apply app_nil_r.
Qed.

(** Padding with zeros undoes the stripping. *)
Lemma strip_pad (l : list Z) :
  strip_trailing_zeros l
  ++ repeat 0 (List.length l - List.length (strip_trailing_zeros l)) = l.
Proof.
  induction l as [|x l IH]; [reflexivity|].
  cbn [strip_trailing_zeros].
  destruct (strip_trailing_zeros l) as [|y r] eqn:E.
  - cbn [List.length app] in IH.
    replace (List.length l - 0)%nat with (List.length l) in IH by lia.
    destruct (Z.eqb_spec x 0) as [->|Hne]; cbn [List.length app].
    + replace (S (List.length l) - 0)%nat with (S (List.length l)) by lia.
      cbn [repeat]. now f_equal.
    + replace (S (List.length l) - 1)%nat with (List.length l) by lia.
      now f_equal.
  - change ((x :: y :: r) ++
            repeat 0 (List.length (x :: l) - List.length (x :: y :: r)))
      with (x :: ((y :: r) ++
                  repeat 0 (List.length l - List.length (y :: r)))).
    now f_equal.
Qed.

Lemma strip_length (l : list Z) :
  (List.length (strip_trailing_zeros l) <= List.length l)%nat.
Proof.
  rewrite <- (strip_pad l) at 2. rewrite length_app. lia.
Qed.

Lemma strip_In (l : list Z) (x : Z) :
  In x (strip_trailing_zeros l) -> In x l.
Proof.
  intros H. rewrite <- (strip_pad l). apply in_or_app. now left.
Qed.

(** The stripped list is the whole list exactly when that does not end
    with a zero. *)
Lemma strip_id_iff (l : list Z) :
  strip_trailing_zeros l = l <-> last l 1 <> 0.
Proof.
  induction l as [|x l IH]; [cbn; split; [lia|reflexivity]|].
  cbn [strip_trailing_zeros].
  destruct l as [|y l].
  - cbn. destruct (Z.eqb_spec x 0); split; try congruence; try discriminate.
  - change (last (x :: y :: l) 1) with (last (y :: l) 1).
    rewrite <- IH.
    destruct (strip_trailing_zeros (y :: l)) as [|z r] eqn:E.
    + split; [|discriminate].
      destruct (x =? 0); intros H; discriminate.
    + split; intros H; congruence.
Qed.

(** *** The groups the loop walks *)

Lemma drop_zero_tail_eq (groups : list (Z * Z)) (d : Z * Z) :
  (if snd (last groups d) =? 0 then removelast groups else groups)
  = drop_zero_tail groups \/ groups = [].
Proof.
  induction groups as [|[n key] tl IH]; [now right|]. left.
  destruct tl as [|g tl].
  - cbn. destruct (key =? 0); reflexivity.
  - destruct IH as [IH|IH]; [|discriminate].
    change (last ((n, key) :: g :: tl) d) with (last (g :: tl) d).
    change (removelast ((n, key) :: g :: tl))
      with ((n, key) :: removelast (g :: tl)).
    change (drop_zero_tail ((n, key) :: g :: tl))
      with ((n, key) :: drop_zero_tail (g :: tl)).
    rewrite <- IH. destruct (snd (last (g :: tl) d) =? 0); reflexivity.
Qed.

Lemma expand_cons (n key : Z) (tl : list (Z * Z)) :
  expand ((n, key) :: tl) = repeat key (Z.to_nat n) ++ expand tl.
Proof. reflexivity. Qed.

Lemma drop_zero_tail_spec (groups : list (Z * Z)) :
  groups_ok groups ->
  groups_ok (drop_zero_tail groups) /\
  ends_nonzero (drop_zero_tail groups) /\
  expand (drop_zero_tail groups) = strip_trailing_zeros (expand groups) /\
  (forall key, In key (map snd (drop_zero_tail groups)) ->
               In key (expand groups)).
Proof.
  induction groups as [|[n key] tl IH]; intros Hok.
  - cbn. tauto.
  - destruct Hok as (Hn & Hk & Hok). specialize (IH Hok).
    destruct IH as (IH1 & IH2 & IH3 & IH4).
    destruct tl as [|[n2 key2] tl].
    + cbn [drop_zero_tail]. rewrite expand_cons. cbn [expand flat_map].
      rewrite app_nil_r.
      destruct (Z.eqb_spec key 0) as [->|Hne].
      * rewrite strip_zeros. cbn. tauto.
      * rewrite strip_repeat_nonzero by assumption.
        cbn [groups_ok ends_nonzero expand flat_map map snd].
        rewrite app_nil_r. repeat split; auto.
        intros k [<-|[]]. replace (Z.to_nat n) with (S (Z.to_nat (n - 1))) by lia.
        now left.
    + change (drop_zero_tail ((n, key) :: (n2, key2) :: tl))
        with ((n, key) :: drop_zero_tail ((n2, key2) :: tl)).
      set (rest := (n2, key2) :: tl) in *.
      assert (Hhead : exists r, expand rest = key2 :: r).
      { unfold rest. rewrite expand_cons. destruct Hok as (Hn2 & _).
        replace (Z.to_nat n2) with (S (Z.to_nat (n2 - 1))) by lia.
        cbn [repeat app]. eexists. reflexivity. }
      destruct Hhead as [r Hr].
      assert (Hstrip : key <> 0 \/ strip_trailing_zeros (expand rest) <> []).
      { destruct (Z.eq_dec key 0) as [->|Hne]; [right|now left].
        rewrite Hr. apply strip_cons_nonnil. congruence. }
      rewrite !expand_cons, IH3. rewrite strip_repeat_app by assumption.
      split; [|split; [|split]].
      * cbn [groups_ok]. repeat split; auto.
        destruct (drop_zero_tail rest) as [|[n3 key3] tl3] eqn:E; [exact I|].
        unfold rest in E. cbn [drop_zero_tail] in E.
        destruct tl; [destruct (key2 =? 0)|]; congruence.
      * cbn [ends_nonzero].
        destruct (drop_zero_tail rest) as [|g3 tl3] eqn:E; [|exact IH2].
        rewrite <- IH3 in Hstrip. cbn in Hstrip. tauto.
      * reflexivity.
      * intros k [<-|Hin].
        -- apply in_or_app. left.
           replace (Z.to_nat n) with (S (Z.to_nat (n - 1))) by lia. now left.
        -- apply in_or_app. right. now apply IH4.
Qed.

(** *** The loops *)

Lemma zrl_loop_spec (fuel : nat) (n : Z) (ret : list (Z * Z)) :
  0 <= n <= Z.of_nat fuel ->
  zrl_loop fuel n ret = (ret ++ repeat ZRL (Z.to_nat (n / 16)), n mod 16).
Proof.
  revert n ret. induction fuel as [|fuel IH]; intros n ret Hn.
  - assert (n = 0) as -> by lia. cbn. now rewrite app_nil_r.
  - cbn [zrl_loop]. destruct (Z.geb_spec n 16) as [Hge|Hlt].
    + rewrite IH by lia. rewrite <- app_assoc. f_equal.
      * f_equal. change [ZRL] with (repeat ZRL 1). rewrite <- repeat_app.
        f_equal. 
        replace n with ((n - 16) + 1 * 16) at 2 by lia.
        rewrite Z.div_add by lia.
        assert (0 <= (n - 16) / 16) by (apply Z.div_pos; lia). lia.
      * replace n with ((n - 16) + 1 * 16) at 2 by lia.
        now rewrite Z.mod_add by lia.
    + rewrite Z.div_small, Z.mod_small by lia. cbn. now rewrite app_nil_r.
Qed.

Lemma decode_symbols_app (a b : list (Z * Z)) :
  decode_symbols (a ++ b) = decode_symbols a ++ decode_symbols b.
Proof. apply flat_map_app. Qed.

Lemma decode_symbols_zrl (q : nat) :
  decode_symbols (repeat ZRL q) = repeat 0 (16 * q).
Proof.
  induction q as [|q IH]; [reflexivity|].
  cbn [repeat]. change (ZRL :: repeat ZRL q) with ([ZRL] ++ repeat ZRL q).
  rewrite decode_symbols_app, IH.
  change (decode_symbols [ZRL]) with (repeat 0 16).
  rewrite <- repeat_app. f_equal. lia.
Qed.

Lemma decode_symbols_nonzero (key : Z) (n : nat) :
  decode_symbols (repeat (0, key) n) = repeat key n.
Proof.
  induction n as [|n IH]; [reflexivity|].
  cbn [repeat]. change ((0, key) :: repeat (0, key) n)
    with ([(0, key)] ++ repeat (0, key) n).
  rewrite decode_symbols_app, IH. reflexivity.
Qed.

Lemma symbol_ok_incl (keys keys' : list Z) (s : Z * Z) :
  (forall k, In k keys -> In k keys') -> symbol_ok keys s -> symbol_ok keys' s.
Proof. intros H [E|(Hr & Hv & Hin)]; [now left|right; auto]. Qed.

(** The loop over the groups: the symbols it appends stand for the
    coefficients of the groups still to do, less the first one when it was
    borrowed by the preceding run of zeros. *)
Lemma run_length_loop_spec (rest : list (Z * Z)) :
  forall (done : list (Z * Z)) (borrow : bool) (ret : list (Z * Z)),
    groups_ok rest -> ends_nonzero rest ->
    (borrow = true -> exists n key tl, rest = (n, key) :: tl /\ key <> 0) ->
    exists out,
      run_length_loop (done ++ rest)
        (enumerate_from (Z.of_nat (List.length done)) rest) borrow ret
      = Ok (ret ++ out) /\
      decode_symbols out
      = (if borrow then tl (expand rest) else expand rest) /\
      Forall (symbol_ok (map snd rest)) out.
Proof.
  induction rest as [|[n key] rest IH]; intros done borrow ret Hok Hend Hb.
  - exists []. destruct borrow.
    + destruct (Hb eq_refl) as (? & ? & ? & ? & _). discriminate.
    + cbn. rewrite app_nil_r. auto.
  - destruct Hok as (Hn & Hk & Hok).
    assert (Hend' : rest <> [] -> ends_nonzero rest).
    { destruct rest; [congruence|intros _; exact Hend]. }
    assert (Hnext : forall b ret',
      (b = true -> exists n key tl, rest = (n, key) :: tl /\ key <> 0) ->
      (rest = [] -> b = false) ->
      exists out,
        run_length_loop (done ++ (n, key) :: rest)
          (enumerate_from (Z.of_nat (List.length done) + 1) rest) b ret'
        = Ok (ret' ++ out) /\
        decode_symbols out = (if b then tl (expand rest) else expand rest) /\
        Forall (symbol_ok (map snd ((n, key) :: rest))) out).
    { intros b ret' Hb' Hnil.
      destruct rest as [|g rest'] eqn:Erest.
      - rewrite (Hnil eq_refl). exists []. cbn.
        rewrite app_nil_r. auto.
      - rewrite <- Erest in *.
        destruct (IH (done ++ [(n, key)]) b ret' Hok
                    (Hend' ltac:(subst; discriminate)) Hb')
          as (out & Hrun & Hdec & Hall).
        exists out. rewrite <- app_assoc in Hrun. cbn [app] in Hrun.
        rewrite length_app in Hrun. cbn [List.length] in Hrun.
        replace (Z.of_nat (List.length done + 1))
          with (Z.of_nat (List.length done) + 1) in Hrun by lia.
        repeat split; auto.
        eapply Forall_impl; [|exact Hall].
        intros s. apply symbol_ok_incl. intros k Hin. now right. }
    cbn [enumerate_from run_length_loop].
    rewrite expand_cons.
    destruct borrow.
    + (* one coefficient of this group was taken by the run before it *)
      destruct (Hb eq_refl) as (n0 & key0 & tl0 & [= <- <- <-] & Hkey).
      destruct (Z.eqb_spec (n - 1) 0) as [E|E].
      * destruct (Hnext false ret) as (out & Hrun & Hdec & Hall);
          [discriminate|reflexivity|].
        exists out. repeat split; auto.
        replace (Z.to_nat n) with 1%nat by lia. exact Hdec.
      * destruct (Z.eqb_spec key 0); [contradiction|].
        destruct (Hnext false (ret ++ repeat (0, key) (Z.to_nat (n - 1))))
          as (out & Hrun & Hdec & Hall); [discriminate|reflexivity|].
        exists (repeat (0, key) (Z.to_nat (n - 1)) ++ out).
        rewrite app_assoc. split; [exact Hrun|]. split.
        -- rewrite decode_symbols_app, decode_symbols_nonzero, Hdec.
           replace (Z.to_nat n) with (S (Z.to_nat (n - 1))) by lia.
           reflexivity.
        -- apply Forall_app. split; [|exact Hall].
           apply Forall_forall. intros s Hs. apply repeat_spec in Hs as ->.
           right. cbn. repeat split; auto; lia.
    + destruct (Z.eqb_spec n 0) as [E|_]; [lia|].
      destruct (Z.eqb_spec key 0) as [->|Hkey].
      * (* a run of zeros: the next group starts with a nonzero value *)
        destruct rest as [|[n2 key2] rest']; [cbn in Hend; contradiction|].
        rewrite zrl_loop_spec by lia.
        assert (Hpi : py_index (done ++ (n, 0) :: (n2, key2) :: rest')
                        (Z.of_nat (List.length done) + 1) = Ok (n2, key2)).
        { replace (done ++ (n, 0) :: (n2, key2) :: rest')
            with ((done ++ [(n, 0)]) ++ (n2, key2) :: rest')
            by (now rewrite <- app_assoc).
          apply py_index_middle. rewrite length_app. cbn. lia. }
        rewrite Hpi. cbn [bind snd].
        destruct (Hnext true
                    ((ret ++ repeat ZRL (Z.to_nat (n / 16)))
                     ++ [(n mod 16, key2)]))
          as (out & Hrun & Hdec & Hall).
        { intros _. exists n2, key2, rest'. split; [reflexivity|congruence]. }
        { discriminate. }
        exists (repeat ZRL (Z.to_nat (n / 16)) ++ [(n mod 16, key2)] ++ out).
        split; [rewrite Hrun; now rewrite <- !app_assoc|]. split.
        -- rewrite !decode_symbols_app, decode_symbols_zrl, Hdec.
           rewrite expand_cons. destruct Hok as (Hn2 & _).
           replace (Z.to_nat n2) with (S (Z.to_nat (n2 - 1))) by lia.
           cbn [repeat app tl decode_symbols flat_map].
           assert (HR : repeat 0 (Z.to_nat n)
                        = repeat 0 (16 * Z.to_nat (n / 16))
                          ++ repeat 0 (Z.to_nat (n mod 16))).
           { rewrite <- repeat_app. f_equal.
             assert (Hdiv : n = 16 * (n / 16) + n mod 16)
               by (apply Z.div_mod; lia).
             pose proof (Z.mod_pos_bound n 16 ltac:(lia)).
             assert (0 <= n / 16) by (apply Z.div_pos; lia). lia. }
           rewrite HR, app_nil_r, <- !app_assoc. reflexivity.
        -- apply Forall_app. split.
           { apply Forall_forall. intros s Hs. apply repeat_spec in Hs as ->.
             now left. }
           constructor; [|exact Hall].
           right. cbn [fst snd map].
           pose proof (Z.mod_pos_bound n 16 ltac:(lia)).
           repeat split; try lia. right. now left.
      * destruct (Hnext false (ret ++ repeat (0, key) (Z.to_nat n)))
          as (out & Hrun & Hdec & Hall); [discriminate|reflexivity|].
        exists (repeat (0, key) (Z.to_nat n) ++ out).
        rewrite app_assoc. split; [exact Hrun|]. split.
        -- now rewrite decode_symbols_app, decode_symbols_nonzero, Hdec.
        -- apply Forall_app. split; [|exact Hall].
           apply Forall_forall. intros s Hs. apply repeat_spec in Hs as ->.
           right. cbn. repeat split; auto; lia.
Qed.

(** *** [encode_run_length] and [decode_run_length] *)

Lemma groupby_nonempty (seq : list Z) : seq <> [] -> groupby seq <> [].
Proof.
  intros H E. apply H. rewrite <- (groupby_expand seq), E. reflexivity.
Qed.

(** The symbols of a non-empty vector: [EOB] after symbols that stand for
    the vector without its trailing zeros. *)
Lemma encode_run_length_spec (seq : list Z) :
  seq <> [] ->
  exists out,
    encode_run_length seq = Ok (out ++ [EOB]) /\
    decode_symbols out = strip_trailing_zeros seq /\
    Forall (symbol_ok seq) out.
Proof.
  intros Hne. unfold encode_run_length. cbv zeta.
  pose proof (groupby_ok seq) as Hok.
  pose proof (groupby_expand seq) as Hexp.
  pose proof (groupby_nonempty seq Hne) as Hg.
  remember (groupby seq) as groups eqn:Egroups. clear Egroups.
  destruct (exists_last Hg) as (front & lastg & Hsplit).
  assert (Hpi : py_index groups (-1) = Ok lastg)
    by (rewrite Hsplit; apply py_index_last).
  rewrite Hpi. cbn [bind].
  assert (Hlast : lastg = last groups (0, 0)).
  { rewrite Hsplit. now rewrite last_last. }
  rewrite Hlast.
  destruct (drop_zero_tail_eq groups (0, 0)) as [Ed|]; [|contradiction].
  rewrite Ed.
  destruct (drop_zero_tail_spec groups Hok) as (Hok' & Hend & Hexp' & Hkeys).
  destruct (run_length_loop_spec (drop_zero_tail groups) [] false [] Hok' Hend)
    as (out & Hrun & Hdec & Hall); [discriminate|].
  cbn [app List.length] in Hrun. change (Z.of_nat 0) with 0 in Hrun.
  unfold enumerate. rewrite Hrun. cbn [bind app].
  exists out. split; [reflexivity|]. split.
  - now rewrite Hdec, Hexp', Hexp.
  - eapply Forall_impl; [|exact Hall]. intros s. apply symbol_ok_incl.
    intros k Hk. rewrite <- Hexp. now apply Hkeys.
Qed.

Lemma encode_run_length_empty : encode_run_length [] = Raise IndexError.
Proof. reflexivity. Qed.

Lemma decode_run_length_eob (out : list (Z * Z)) :
  decode_run_length (out ++ [EOB]) = decode_symbols out.
Proof.
  change (decode_run_length (out ++ [EOB]))
    with (removelast (decode_symbols (out ++ [EOB]))).
  rewrite decode_symbols_app. change (decode_symbols [EOB]) with [0].
  apply removelast_last.
Qed.

Lemma symbol_ok_not_eob (keys : list Z) (s : Z * Z) :
  symbol_ok keys s -> pair_eqb s EOB = false.
Proof.
  unfold symbol_ok, pair_eqb, EOB, ZRL. destruct s as [run v]. cbn [fst snd].
  intros [[= -> ->]|(_ & Hv & _)]; [reflexivity|].
  destruct (Z.eqb_spec v 0); [contradiction|apply andb_false_r].
Qed.

Lemma pair_eqb_eq (p q : Z * Z) : pair_eqb p q = true <-> p = q.
Proof.
  destruct p as [a b], q as [c d]. unfold pair_eqb. cbn [fst snd].
  rewrite andb_true_iff, !Z.eqb_eq. split; [intros [-> ->]|intros [= -> ->]];
    auto.
Qed.

(** C2, amended.  The run-length round trip gives back a length-63 vector
    without its trailing zeros: what is decoded is the vector stripped of
    them, so that padding it with zeros to 63 values gives the vector, and
    it is the vector itself, with its 63 values, exactly when the last
    value of the vector is not zero. *)
Theorem run_length_roundtrip_strips_trailing_zeros :
  forall a : list Z,
    List.length a = 63%nat ->
    exists symbols,
      encode_run_length a = Ok symbols /\
      decode_run_length symbols = strip_trailing_zeros a /\
      decode_run_length symbols
      ++ repeat 0 (63 - List.length (decode_run_length symbols)) = a /\
      (decode_run_length symbols = a <-> last a 1 <> 0).
Proof.
  intros a Hlen.
  assert (Hne : a <> []) by (intros ->; discriminate).
  destruct (encode_run_length_spec a Hne) as (out & Henc & Hdec & _).
  exists (out ++ [EOB]). rewrite decode_run_length_eob, Hdec.
  split; [exact Henc|]. split; [reflexivity|]. split.
  - rewrite <- Hlen. apply strip_pad.
  - apply strip_id_iff.
Qed.

(** C2, as stated, fails on a vector that ends with a zero: the 63-value
    vector that is 1 followed by 62 zeros comes back as the single value 1. *)
Lemma run_length_roundtrip_counterexample :
  let a := 1 :: repeat 0 62 in
  List.length a = 63%nat /\
  encode_run_length a = Ok [(0, 1); EOB] /\
  decode_run_length [(0, 1); EOB] = [1] /\
  decode_run_length [(0, 1); EOB] <> a.
Proof.
  cbv zeta. repeat split; try reflexivity. discriminate.
Qed.

(** ** The groups of the decoder *)

Module DecoderFacts.
Import Decoder.

Lemma isplit_no_eob (t acc : list (Z * Z)) :
  Forall (fun s => pair_eqb s EOB = false) t -> isplit t EOB acc = [].
Proof.
  intros H. revert acc. induction H as [|s t Hs _ IH]; intros acc.
  - reflexivity.
  - cbn [isplit]. rewrite Hs. apply IH.
Qed.

Lemma isplit_group (g rest acc : list (Z * Z)) :
  Forall (fun s => pair_eqb s EOB = false) g ->
  isplit (g ++ EOB :: rest) EOB acc
  = (acc ++ g ++ [EOB]) :: isplit rest EOB [].
Proof.
  intros H. revert acc. induction H as [|s g Hs _ IH]; intros acc.
  - reflexivity.
  - cbn [app isplit]. rewrite Hs, IH, <- app_assoc. reflexivity.
Qed.

(** Splitting a stream of groups that each end with their only [EOB],
    followed by symbols without [EOB], gives back the groups. *)
Lemma isplit_groups (groups : list (list (Z * Z))) (trailing : list (Z * Z)) :
  Forall (Forall (fun s => pair_eqb s EOB = false)) groups ->
  Forall (fun s => pair_eqb s EOB = false) trailing ->
  isplit (List.concat (map (fun g => g ++ [EOB]) groups) ++ trailing) EOB []
  = map (fun g => g ++ [EOB]) groups.
Proof.
  intros Hg Ht. induction Hg as [|g groups Hg _ IH].
  - cbn. now apply isplit_no_eob.
  - cbn [map List.concat]. rewrite <- !app_assoc. cbn [app].
    rewrite isplit_group by assumption. cbn [app]. now rewrite IH.
Qed.

End DecoderFacts.

(** ** Zig-zag traversal *)

Local Ltac parity_test :=
  change (1 =? 1) with true; change (0 =? 1) with false; cbv iota.

Lemma zig_zag_step_rank (size x y : Z) :
  0 <= x < size -> 0 <= y < size -> (x, y) <> (size - 1, size - 1) ->
  let '(x', y') := zig_zag_step x y size in
  0 <= x' < size /\ 0 <= y' < size /\
  zig_zag_rank2 size x' y' = zig_zag_rank2 size x y + 2.
Proof.
  intros Hx Hy Hlast.
  assert (Hxy : x < size - 1 \/ y < size - 1).
  { destruct (Z.eq_dec x (size - 1)), (Z.eq_dec y (size - 1)); try lia.
    subst. contradiction. }
  unfold zig_zag_step, move_zig_zag_idx, zig_zag_rank2.
  destruct (Z.eqb_spec ((x + y) mod 2) 1) as [Hodd|Heven].
  - destruct (Z.ltb_spec y (size - 1)).
    + cbv zeta.
      destruct (Z.eq_dec x 0) as [->|Hx0].
      * replace (Z.max 0 (0 - 1)) with 0 by lia.
        assert (Hm : (0 + (y + 1)) mod 2 = 0).
        { replace (0 + (y + 1)) with (0 + y + 1) by lia.
          rewrite Z.add_mod, Hodd by lia. reflexivity. }
        rewrite Hm. parity_test.
        destruct (Z.leb_spec (0 + (y + 1)) size); [|lia].
        destruct (Z.leb_spec (0 + y) size); [|lia].
        repeat split; try lia.
      * replace (Z.max 0 (x - 1)) with (x - 1) by lia.
        replace (x - 1 + (y + 1)) with (x + y) by lia.
        rewrite Hodd. parity_test.
        destruct (Z.leb_spec (x + y) size); repeat split; lia.
    + cbv zeta. assert (y = size - 1) as -> by lia.
      assert (Hm : (x + 1 + (size - 1)) mod 2 = 0).
      { replace (x + 1 + (size - 1)) with (x + (size - 1) + 1) by lia.
        rewrite Z.add_mod, Hodd by lia. reflexivity. }
      rewrite Hm. parity_test.
      destruct (Z.leb_spec (x + 1 + (size - 1)) size),
        (Z.leb_spec (x + (size - 1)) size); repeat split; try lia; nia.
  - assert (Hev : (x + y) mod 2 = 0).
    { pose proof (Z.mod_pos_bound (x + y) 2 ltac:(lia)). lia. }
    destruct (Z.ltb_spec x (size - 1)).
    + cbv zeta.
      destruct (Z.eq_dec y 0) as [->|Hy0].
      * replace (Z.max 0 (0 - 1)) with 0 by lia.
        assert (Hm : (x + 1 + 0) mod 2 = 1).
        { replace (x + 1 + 0) with (x + 0 + 1) by lia.
          rewrite Z.add_mod, Hev by lia. reflexivity. }
        rewrite Hm. parity_test.
        destruct (Z.leb_spec (x + 1 + 0) size); [|lia].
        destruct (Z.leb_spec (x + 0) size); [|lia].
        repeat split; try lia.
      * replace (Z.max 0 (y - 1)) with (y - 1) by lia.
        replace (x + 1 + (y - 1)) with (x + y) by lia.
        rewrite Hev. parity_test.
        destruct (Z.leb_spec (x + y) size); repeat split; lia.
    + cbv zeta. assert (x = size - 1) as -> by lia.
      assert (Hm : (size - 1 + (y + 1)) mod 2 = 1).
      { replace (size - 1 + (y + 1)) with (size - 1 + y + 1) by lia.
        rewrite Z.add_mod, Hev by lia. reflexivity. }
      rewrite Hm. parity_test.
      destruct (Z.leb_spec (size - 1 + (y + 1)) size),
        (Z.leb_spec (size - 1 + y) size); repeat split; try lia; nia.
Qed.

Lemma zig_zag_rank2_last (size : Z) :
  1 <= size -> zig_zag_rank2 size (size - 1) (size - 1) = 2 * size * size - 2.
Proof.
  intros Hs. unfold zig_zag_rank2. cbv zeta.
  replace (size - 1 + (size - 1)) with (0 + (size - 1) * 2) by lia.
  rewrite Z.mod_add by lia. change (0 mod 2 =? 1) with false. cbv iota.
  destruct (Z.leb_spec (0 + (size - 1) * 2) size); nia.
Qed.

(** The first [size * size] cursors stay within the array, the [k]-th one
    having [k] cells before it. *)
Lemma zig_zag_cursor_rank (size : Z) (k : nat) :
  1 <= size -> Z.of_nat k < size * size ->
  in_square size (zig_zag_cursor size k) /\
  zig_zag_rank2 size (fst (zig_zag_cursor size k)) (snd (zig_zag_cursor size k))
  = 2 * Z.of_nat k.
Proof.
  intros Hs. induction k as [|k IH]; intros Hk.
  - cbn [zig_zag_cursor fst snd].
    split; [unfold in_square; cbn; lia|].
    unfold zig_zag_rank2. cbv zeta. change (0 + 0) with 0.
    change (0 mod 2 =? 1) with false. cbv iota.
    destruct (Z.leb_spec 0 size); lia.
  - destruct IH as [[Hx Hy] Hr]; [lia|].
    cbn [zig_zag_cursor]. destruct (zig_zag_cursor size k) as [x y].
    cbn [fst snd] in *.
    assert (Hlast : (x, y) <> (size - 1, size - 1)).
    { intros [= -> ->]. rewrite zig_zag_rank2_last in Hr by lia. lia. }
    pose proof (zig_zag_step_rank size x y Hx Hy Hlast) as Hstep.
    destruct (zig_zag_step x y size) as [x' y'].
    destruct Hstep as (Hx' & Hy' & Hr'). cbn [fst snd].
    split; [split; assumption|]. lia.
Qed.

Lemma zig_zag_cursor_in_square (size : Z) (k : nat) :
  1 <= size -> Z.of_nat k < size * size ->
  in_square size (zig_zag_cursor size k).
Proof. intros Hs H. now apply zig_zag_cursor_rank. Qed.

Lemma NoDup_map_injective {A B : Type} (f : A -> B) (l : list A) :
  (forall a b, f a = f b -> a = b) -> NoDup l -> NoDup (map f l).
Proof.
  intros Hinj H. induction H as [|a l Hnin Hnd IH]; cbn; constructor; auto.
  intros Hin. apply in_map_iff in Hin as (b & Hb & Hin).
  apply Hinj in Hb. now subst.
Qed.

Lemma zig_zag_path_NoDup (n : nat) :
  NoDup (zig_zag_path (Z.of_nat n) 0 (n * n)).
Proof.
  unfold zig_zag_path.
  apply (NoDup_map_inv (fun c => zig_zag_rank2 (Z.of_nat n) (fst c) (snd c))).
  rewrite map_map.
  rewrite (map_ext_in _ (fun k => 2 * Z.of_nat k)).
  - apply NoDup_map_injective; [|apply seq_NoDup].
    intros a b. lia.
  - intros k Hk. apply in_seq in Hk. apply zig_zag_cursor_rank; nia.
Qed.

(** The cells of an [n] x [n] array. *)
Lemma cells_complete (n : nat) (c : Z * Z) :
  in_square (Z.of_nat n) c ->
  In c (list_prod (map Z.of_nat (seq 0 n)) (map Z.of_nat (seq 0 n))).
Proof.
  destruct c as [x y]. intros [Hx Hy]. cbn [fst snd] in *.
  apply in_prod; apply in_map_iff.
  - exists (Z.to_nat x). split; [lia|]. apply in_seq. lia.
  - exists (Z.to_nat y). split; [lia|]. apply in_seq. lia.
Qed.

(** The traversal visits every cell of the array within its first
    [n * n] steps. *)
Lemma zig_zag_path_complete (n : nat) (c : Z * Z) :
  in_square (Z.of_nat n) c -> In c (zig_zag_path (Z.of_nat n) 0 (n * n)).
Proof.
  intros Hc.
  set (cells := list_prod (map Z.of_nat (seq 0 n)) (map Z.of_nat (seq 0 n))).
  assert (Hincl : incl cells (zig_zag_path (Z.of_nat n) 0 (n * n))).
  { apply NoDup_length_incl.
    - apply zig_zag_path_NoDup.
    - unfold cells, zig_zag_path.
      rewrite length_prod, !length_map, !length_seq. lia.
    - intros p Hp. unfold zig_zag_path in Hp. apply in_map_iff in Hp.
      destruct Hp as (k & <- & Hk). apply in_seq in Hk.
      apply cells_complete, zig_zag_cursor_in_square; nia. }
  apply Hincl, cells_complete, Hc.
Qed.

(** *** Reading and writing the cells of an array *)

Lemma py_index_in_range {A : Type} (l : list A) (i : Z) (d : A) :
  0 <= i < Z.of_nat (List.length l) ->
  py_index l i = Ok (nth (Z.to_nat i) l d).
Proof.
  intros Hi. apply py_index_nonneg; [lia|]. apply nth_error_nth'. lia.
Qed.

Lemma py_set_in_range {A : Type} (l : list A) (i : Z) (v : A) :
  0 <= i < Z.of_nat (List.length l) ->
  py_set l i v = Ok (replace_nth l (Z.to_nat i) v).
Proof.
  intros Hi. unfold py_set.
  destruct (Z.ltb_spec i 0); [lia|].
  destruct (Z.leb_spec 0 i); [|lia].
  destruct (Z.ltb_spec i (Z.of_nat (List.length l))); [|lia]. reflexivity.
Qed.

Lemma replace_nth_length {A : Type} (l : list A) (j : nat) (v : A) :
  (j < List.length l)%nat -> List.length (replace_nth l j v) = List.length l.
Proof.
  intros Hj. unfold replace_nth.
  rewrite length_app, length_firstn. cbn [List.length]. rewrite length_skipn.
  lia.
Qed.

Lemma replace_nth_same {A : Type} (l : list A) (j : nat) (v d : A) :
  (j < List.length l)%nat -> nth j (replace_nth l j v) d = v.
Proof.
  intros Hj. unfold replace_nth.
  rewrite app_nth2; rewrite length_firstn; [|lia].
  replace (j - Nat.min j (List.length l))%nat with O by lia. reflexivity.
Qed.

Lemma replace_nth_other {A : Type} (l : list A) (i j : nat) (v d : A) :
  (j < List.length l)%nat -> i <> j ->
  nth i (replace_nth l j v) d = nth i l d.
Proof.
  intros Hj Hij. unfold replace_nth.
  rewrite <- (firstn_skipn j l) at 3.
  destruct (Nat.lt_ge_cases i j) as [Hlt|Hge].
  - rewrite !app_nth1 by (rewrite length_firstn; lia). reflexivity.
  - rewrite !app_nth2 by (rewrite length_firstn; lia).
    rewrite length_firstn.
    replace (i - Nat.min j (List.length l))%nat
      with (S (i - S j))%nat by lia.
    cbn [nth].
    replace (skipn j l) with (nth j l d :: skipn (S j) l).
    + reflexivity.
    + clear -Hj. revert j Hj. induction l as [|a l IH]; intros j Hj.
      * cbn in Hj. lia.
      * destruct j as [|j]; [reflexivity|].
        cbn [skipn nth]. cbn [List.length] in Hj.
        rewrite <- (IH j) by lia. reflexivity.
Qed.

Lemma replace_nth_Forall {A : Type} (P : A -> Prop) (l : list A) (j : nat)
  (v : A) :
  (j < List.length l)%nat -> Forall P l -> P v -> Forall P (replace_nth l j v).
Proof.
  intros Hj Hl Hv.
  rewrite <- (firstn_skipn_middle j l (nth_error_nth' l v Hj)) in Hl.
  apply Forall_app in Hl as [H1 H2]. apply Forall_cons_iff in H2 as [_ H2].
  unfold replace_nth. apply Forall_app. split; [assumption|].
  now constructor.
Qed.

Lemma cursor_eq_dec (p q : Z * Z) : {p = q} + {p <> q}.
Proof. decide equality; apply Z.eq_dec. Qed.

Section SquareArrays.

Variable size : Z.
Hypothesis Hsize : 1 <= size.

Lemma is_square_row (a : matrix) (y : Z) :
  is_square size a -> 0 <= y < size ->
  Z.of_nat (List.length (nth (Z.to_nat y) a [])) = size.
Proof using Type.
  intros [Hlen Hrows] Hy. rewrite Forall_forall in Hrows.
  apply Hrows, nth_In. unfold shape0 in Hlen. lia.
Qed.

Lemma get2_in_square (a : matrix) (c : Z * Z) :
  is_square size a -> in_square size c ->
  get2 a (snd c) (fst c) = Ok (entry a c).
Proof using Type.
  intros Ha [Hx Hy]. unfold get2, entry.
  rewrite (py_index_in_range a (snd c) [])
    by (destruct Ha as [Hlen _]; unfold shape0 in Hlen; lia).
  cbn [bind]. apply py_index_in_range.
  rewrite is_square_row by assumption. lia.
Qed.

Lemma set2_in_square (a : matrix) (c : Z * Z) (v : Z) :
  is_square size a -> in_square size c ->
  exists a',
    set2 a (snd c) (fst c) v = Ok a' /\
    is_square size a' /\
    entry a' c = v /\
    (forall c', in_square size c' -> c' <> c -> entry a' c' = entry a c').
Proof using Hsize.
  intros Ha [Hx Hy]. pose proof Ha as [Hlen Hrows].
  unfold shape0 in Hlen.
  pose proof (is_square_row a (snd c) Ha Hy) as Hrow.
  set (row := nth (Z.to_nat (snd c)) a []) in *.
  exists (replace_nth a (Z.to_nat (snd c))
            (replace_nth row (Z.to_nat (fst c)) v)).
  split; [|split; [|split]].
  - unfold set2. rewrite (py_index_in_range a (snd c) []) by lia.
    cbn [bind]. fold row. rewrite py_set_in_range by lia. cbn [bind].
    apply py_set_in_range. lia.
  - split.
    + unfold shape0. rewrite replace_nth_length by lia. exact Hlen.
    + apply replace_nth_Forall; [lia|assumption|].
      rewrite replace_nth_length by lia. exact Hrow.
  - unfold entry. rewrite replace_nth_same by lia.
    apply replace_nth_same. lia.
  - intros [x' y'] [Hx' Hy'] Hne. unfold entry. cbn [fst snd] in *.
    destruct (Z.eq_dec y' (snd c)) as [->|Hy''].
    + rewrite replace_nth_same by lia.
      apply replace_nth_other; [fold row; lia|].
      intros E. apply Hne. destruct c as [x y]. cbn [fst snd] in *.
      f_equal. lia.
    + rewrite replace_nth_other by lia. reflexivity.
Qed.

(** Two arrays with the same cells are the same array. *)
Lemma square_ext (a b : matrix) :
  is_square size a -> is_square size b ->
  (forall c, in_square size c -> entry a c = entry b c) -> a = b.
Proof using Type.
  intros Ha Hb Hcells.
  pose proof Ha as [Hla _]. pose proof Hb as [Hlb _]. unfold shape0 in *.
  apply (nth_ext a b [] []); [lia|].
  intros j Hj.
  pose proof (is_square_row a (Z.of_nat j) Ha ltac:(lia)) as Hra.
  pose proof (is_square_row b (Z.of_nat j) Hb ltac:(lia)) as Hrb.
  rewrite Nat2Z.id in Hra, Hrb.
  apply (nth_ext _ _ 0 0); [lia|].
  intros i Hi.
  specialize (Hcells (Z.of_nat i, Z.of_nat j)). unfold entry in Hcells.
  cbn [fst snd] in Hcells. rewrite !Nat2Z.id in Hcells.
  apply Hcells. split; cbn [fst snd]; lia.
Qed.

Lemma np_empty_square (garbage : nat -> nat -> Z) :
  exists a, np_empty garbage size = Ok a /\ is_square size a.
Proof using Hsize.
  unfold np_empty. destruct (Z.ltb_spec size 0); [lia|].
  eexists. split; [reflexivity|]. split.
  - unfold shape0. rewrite length_map, length_seq. lia.
  - apply Forall_forall. intros row Hrow. apply in_map_iff in Hrow.
    destruct Hrow as (r & <- & _). rewrite length_map, length_seq. lia.
Qed.

(** *** The two traversals *)

Lemma zig_zag_path_cons (k n : nat) :
  zig_zag_path size k (S n)
  = zig_zag_cursor size k :: zig_zag_path size (S k) n.
Proof. reflexivity. Qed.

Lemma iter_zig_zag_loop_path (data : matrix) (n k : nat) :
  is_square size data ->
  Z.of_nat (k + n) <= size * size ->
  iter_zig_zag_loop n data (fst (zig_zag_cursor size k))
    (snd (zig_zag_cursor size k))
  = Ok (map (entry data) (zig_zag_path size k n)).
Proof using Hsize.
  intros Hd. revert k. induction n as [|n IH]; intros k Hk; [reflexivity|].
  cbn [iter_zig_zag_loop]. rewrite zig_zag_path_cons. cbn [map].
  rewrite get2_in_square
    by (assumption || apply zig_zag_cursor_in_square; lia).
  cbn [bind]. destruct Hd as [Hshape Hrows]. rewrite Hshape.
  specialize (IH (S k) ltac:(lia)). cbn [zig_zag_cursor] in IH.
  destruct (zig_zag_cursor size k) as [x y]. cbn [fst snd].
  destruct (zig_zag_step x y size) as [x' y']. cbn [fst snd] in IH.
  rewrite IH. reflexivity.
Qed.

Lemma inverse_iter_zig_zag_loop_path (data : matrix) (n k : nat)
  (ret : matrix) :
  is_square size ret ->
  Z.of_nat (k + n) <= size * size ->
  exists ret',
    inverse_iter_zig_zag_loop (map (entry data) (zig_zag_path size k n))
      size ret (fst (zig_zag_cursor size k)) (snd (zig_zag_cursor size k))
    = Ok ret' /\
    is_square size ret' /\
    forall c, in_square size c ->
      (In c (zig_zag_path size k n) -> entry ret' c = entry data c) /\
      (~ In c (zig_zag_path size k n) -> entry ret' c = entry ret c).
Proof using Hsize.
  revert k ret. induction n as [|n IH]; intros k ret Hret Hk.
  - exists ret. split; [reflexivity|]. split; [assumption|].
    intros c Hc. split; [intros []|reflexivity].
  - rewrite zig_zag_path_cons. cbn [map inverse_iter_zig_zag_loop].
    pose proof (zig_zag_cursor_in_square size k Hsize ltac:(lia)) as Hin.
    destruct (set2_in_square ret (zig_zag_cursor size k)
                (entry data (zig_zag_cursor size k)) Hret Hin)
      as (ret1 & Hset & Hsq1 & Hsame & Hother).
    rewrite Hset. cbn [bind].
    destruct (IH (S k) ret1 Hsq1 ltac:(lia)) as (ret' & Hloop & Hsq' & Hcells).
    cbn [zig_zag_cursor] in Hloop.
    destruct (zig_zag_cursor size k) as [x y] eqn:Ec. cbn [fst snd].
    destruct (zig_zag_step x y size) as [x' y'] eqn:Es.
    cbn [fst snd] in Hloop.
    exists ret'. split; [exact Hloop|]. split; [exact Hsq'|].
    intros c Hc. destruct (Hcells c Hc) as [Hvisited Hfresh].
    assert (Hdec : In c (zig_zag_path size (S k) n)
                   \/ ~ In c (zig_zag_path size (S k) n)).
    { destruct (in_dec cursor_eq_dec c (zig_zag_path size (S k) n)); auto. }
    split.
    + intros [<-|Hin']; [|auto].
      destruct Hdec as [Hd|Hd]; [auto|].
      now rewrite Hfresh.
    + intros Hnot. rewrite Hfresh by (intros H; apply Hnot; now right).
      apply Hother; [assumption|]. intros ->. apply Hnot. now left.
Qed.

End SquareArrays.

(** The sequence [iter_zig_zag] yields: the entries along the path. *)
Lemma iter_zig_zag_square (size : Z) (data : matrix) :
  1 <= size -> is_square size data ->
  iter_zig_zag data
  = Ok (map (entry data) (zig_zag_path size 0 (Z.to_nat (size * size)))).
Proof.
  intros Hs Hd. pose proof Hd as [Hshape Hrows]. unfold iter_zig_zag.
  assert (H1 : shape1 data = size).
  { unfold shape1, shape0 in *. destruct data as [|row data]; [cbn in *; lia|].
    cbn [hd]. now apply Forall_inv in Hrows. }
  rewrite Hshape, H1, Z.eqb_refl. cbn [negb].
  destruct (Z.eqb_spec (size * size) 0); [nia|].
  apply (iter_zig_zag_loop_path size Hs data _ 0 Hd). nia.
Qed.

(** Writing the entries of an array along the path fills an array of any
    contents with them. *)
Lemma inverse_iter_zig_zag_entries (size : Z) (data : matrix)
  (garbage : nat -> nat -> Z) (seq : list Z) (fill : Z) :
  1 <= size -> is_square size data ->
  seq ++ repeat fill (Z.to_nat (size ^ 2 - Z.of_nat (List.length seq)))
  = map (entry data) (zig_zag_path size 0 (Z.to_nat (size * size))) ->
  inverse_iter_zig_zag garbage seq size fill = Ok data.
Proof.
  intros Hs Hd Hseq. unfold inverse_iter_zig_zag. rewrite Hseq.
  destruct (np_empty_square size Hs garbage) as (ret & Hempty & Hret).
  rewrite Hempty. cbn [bind].
  destruct (inverse_iter_zig_zag_loop_path size Hs data
              (Z.to_nat (size * size)) 0 ret Hret ltac:(nia))
    as (ret' & Hloop & Hsq & Hcells).
  cbn [zig_zag_cursor fst snd] in Hloop. rewrite Hloop. f_equal.
  apply (square_ext size); [assumption|assumption|].
  intros c Hc. apply (Hcells c Hc).
  replace size with (Z.of_nat (Z.to_nat size)) in Hc |- * by lia.
  replace (Z.to_nat (Z.of_nat (Z.to_nat size) * Z.of_nat (Z.to_nat size)))
    with (Z.to_nat size * Z.to_nat size)%nat by lia.
  now apply zig_zag_path_complete.
Qed.

Lemma zig_zag_path_length (size : Z) (k n : nat) :
  List.length (zig_zag_path size k n) = n.
Proof. unfold zig_zag_path. now rewrite length_map, length_seq. Qed.

(** C3.  Zig-zag round trip: for [N >= 1] and an [N] x [N] integer array,
    [inverse_iter_zig_zag] rebuilds the array from the sequence
    [iter_zig_zag] yields, whatever the uninitialised array held and
    whatever the fill value. *)
Theorem zig_zag_roundtrip :
  forall (N : Z) (M : matrix) (garbage : nat -> nat -> Z) (fill : Z),
    1 <= N -> is_square N M ->
    exists seq,
      iter_zig_zag M = Ok seq /\
      inverse_iter_zig_zag garbage seq N fill = Ok M.
Proof.
  intros N M garbage fill HN HM.
  eexists. split; [apply (iter_zig_zag_square N M HN HM)|].
  apply inverse_iter_zig_zag_entries; [assumption|assumption|].
  rewrite length_map, zig_zag_path_length, Z.pow_2_r.
  replace (Z.to_nat (N * N - Z.of_nat (Z.to_nat (N * N)))) with O by nia.
  apply app_nil_r.
Qed.

(** ** [Encoder] *)

Lemma mapM_Forall2 {A B : Type} (f : A -> result B) (R : A -> B -> Prop)
  (l : list A) :
  (forall a, In a l -> exists b, f a = Ok b /\ R a b) ->
  exists bs, mapM f l = Ok bs /\ Forall2 R l bs.
Proof.
  induction l as [|a l IH]; intros H.
  - exists []. split; [reflexivity|constructor].
  - destruct (H a (or_introl eq_refl)) as (b & Hb & Hab).
    destruct IH as (bs & Hbs & Hall); [intros x Hx; apply H; now right|].
    exists (b :: bs). cbn [mapM]. rewrite Hb, Hbs.
    split; [reflexivity|now constructor].
Qed.

Lemma mapM_map {A B : Type} (f : A -> result B) (g : A -> B) (l : list A) :
  (forall a, In a l -> f a = Ok (g a)) -> mapM f l = Ok (map g l).
Proof.
  induction l as [|a l IH]; intros H; [reflexivity|].
  cbn [mapM map]. rewrite H by now left.
  rewrite IH by (intros x Hx; apply H; now right). reflexivity.
Qed.

Lemma block_zig_zag (block : matrix) :
  is_square 8 block ->
  iter_zig_zag block = Ok (block_dc block :: block_ac block).
Proof.
  intros Hb. rewrite (iter_zig_zag_square 8 block ltac:(lia) Hb).
  change (Z.to_nat (8 * 8)) with 64%nat. unfold block_dc, block_ac.
  rewrite (zig_zag_path_cons 8 0 63). reflexivity.
Qed.

Lemma block_ac_length (block : matrix) : List.length (block_ac block) = 63%nat.
Proof.
  unfold block_ac. rewrite (zig_zag_path_cons 8 0 63).
  cbn [map tl]. now rewrite length_map, zig_zag_path_length.
Qed.

(** The symbols of one block of a layer. *)
Lemma block_run_length (block : matrix) :
  is_square 8 block ->
  exists out,
    (zz <- iter_zig_zag block ;; encode_run_length (tl zz))
    = Ok (out ++ [EOB]) /\
    decode_symbols out = strip_trailing_zeros (block_ac block) /\
    Forall (symbol_ok (block_ac block)) out.
Proof.
  intros Hb. rewrite block_zig_zag by assumption. cbn [bind tl].
  apply encode_run_length_spec.
  intros E. pose proof (block_ac_length block) as H. rewrite E in H.
  discriminate.
Qed.

Lemma run_length_ac_spec (d : planes) (layer : layer_type) :
  Forall (is_square 8) (Encoder.data d layer) ->
  exists outs,
    Encoder.run_length_ac d layer
    = Ok (List.concat (map (fun out => out ++ [EOB]) outs)) /\
    Forall2 (fun block out =>
               decode_symbols out = strip_trailing_zeros (block_ac block) /\
               Forall (symbol_ok (block_ac block)) out)
            (Encoder.data d layer) outs.
Proof.
  intros Hblocks. unfold Encoder.run_length_ac.
  rewrite Forall_forall in Hblocks.
  destruct (mapM_Forall2
              (fun block => zz <- iter_zig_zag block ;; encode_run_length (tl zz))
              (fun block group =>
                 exists out, group = out ++ [EOB] /\
                   decode_symbols out = strip_trailing_zeros (block_ac block) /\
                   Forall (symbol_ok (block_ac block)) out)
              (Encoder.data d layer)) as (groups & Hgroups & Hall).
  { intros block Hin.
    destruct (block_run_length block (Hblocks block Hin)) as (out & H1 & H2).
    exists (out ++ [EOB]). split; [exact H1|].
    exists out. split; [reflexivity|exact H2]. }
  rewrite Hgroups. cbn [bind]. clear Hgroups.
  induction Hall as [|block group blocks groups (out & -> & Hout) _ IH].
  - exists []. split; [reflexivity|constructor].
  - destruct IH as (outs & Houts & Hall');
      [intros b Hb; apply Hblocks; now right|].
    exists (out :: outs). injection Houts as Houts.
    cbn [map List.concat]. rewrite Houts.
    split; [reflexivity|now constructor].
Qed.

Lemma count_eob_app (a b : list (Z * Z)) :
  count_eob (a ++ b) = (count_eob a + count_eob b)%nat.
Proof. unfold count_eob. now rewrite filter_app, length_app. Qed.

Lemma count_eob_none (keys : list Z) (out : list (Z * Z)) :
  Forall (symbol_ok keys) out -> count_eob out = O.
Proof.
  intros H. unfold count_eob. induction H as [|s out Hs _ IH]; [reflexivity|].
  cbn [filter]. now rewrite (symbol_ok_not_eob keys s Hs).
Qed.

Lemma symbol_ok_not_In_eob (keys : list Z) (out : list (Z * Z)) :
  Forall (symbol_ok keys) out -> ~ In EOB out.
Proof.
  intros H Hin. rewrite Forall_forall in H.
  pose proof (symbol_ok_not_eob keys EOB (H EOB Hin)). discriminate.
Qed.

(** C8.  [EOB] invariant: the symbols of a non-empty vector contain [EOB]
    once, as their last element; so the run-length stream of a layer of
    8 x 8 blocks contains as many [EOB] symbols as the layer has blocks. *)
Theorem eob_once_per_block :
  (forall a : list Z,
      a <> [] ->
      exists front,
        encode_run_length a = Ok (front ++ [EOB]) /\
        ~ In EOB front /\
        count_eob (front ++ [EOB]) = 1%nat) /\
  (forall (d : planes) (layer : layer_type),
      Forall (is_square 8) (Encoder.data d layer) ->
      exists stream,
        Encoder.run_length_ac d layer = Ok stream /\
        count_eob stream = List.length (Encoder.data d layer)).
Proof.
  split.
  - intros a Ha.
    destruct (encode_run_length_spec a Ha) as (out & Henc & _ & Hok).
    exists out. split; [exact Henc|]. split.
    + now apply symbol_ok_not_In_eob with (keys := a).
    + rewrite count_eob_app, (count_eob_none a out Hok). reflexivity.
  - intros d layer Hblocks.
    destruct (run_length_ac_spec d layer Hblocks) as (outs & Hrun & Hall).
    eexists. split; [exact Hrun|]. clear Hrun.
    generalize dependent (Encoder.data d layer). intros blocks _ Hall.
    induction Hall as [|block out blocks outs [_ Hout] _ IH]; [reflexivity|].
    cbn [map List.concat List.length].
    rewrite !count_eob_app, (count_eob_none _ out Hout), IH. reflexivity.
Qed.

(** ** The groups of the decoder, continued *)

Lemma mapM_as_pair (pairs : list (Z * Z)) :
  mapM Decoder.as_pair (map (fun p => VPair (fst p) (snd p)) pairs) = Ok pairs.
Proof.
  induction pairs as [|[run v] pairs IH]; [reflexivity|].
  cbn [map mapM Decoder.as_pair fst snd bind]. now rewrite IH.
Qed.

(** C10.  The decoder keeps the groups that end with [EOB] only: when the
    symbols decoded from the AC bits of a layer are groups ending with their
    only [EOB] followed by symbols without [EOB], the AC coefficients of the
    layer are those of the groups, the symbols after the last [EOB] being
    dropped without an error; symbols without any [EOB] give no block at
    all. *)
Theorem decoder_drops_symbols_after_last_eob :
  forall (d : bitstreams) (layer : layer_type),
    (forall (groups : list (list (Z * Z))) (trailing : list (Z * Z)),
        Forall (fun g => ~ In EOB g) groups ->
        ~ In EOB trailing ->
        decode_huffman (bits_of d AC layer) AC layer
        = Ok (map (fun p => VPair (fst p) (snd p))
                  (List.concat (map (fun g => g ++ [EOB]) groups)
                   ++ trailing)) ->
        Decoder.ac d layer
        = Ok (map (fun g => decode_run_length (g ++ [EOB])) groups)) /\
    (forall trailing : list (Z * Z),
        ~ In EOB trailing ->
        decode_huffman (bits_of d AC layer) AC layer
        = Ok (map (fun p => VPair (fst p) (snd p)) trailing) ->
        Decoder.ac d layer = Ok []).
Proof.
  intros d layer.
  assert (Hno : forall l : list (Z * Z),
             ~ In EOB l -> Forall (fun s => pair_eqb s EOB = false) l).
  { intros l Hl. apply Forall_forall. intros s Hs.
    destruct (pair_eqb s EOB) eqn:E; [|reflexivity].
    apply pair_eqb_eq in E. subst s. contradiction. }
  assert (Hac : forall groups trailing,
             Forall (fun g => ~ In EOB g) groups ->
             ~ In EOB trailing ->
             decode_huffman (bits_of d AC layer) AC layer
             = Ok (map (fun p => VPair (fst p) (snd p))
                       (List.concat (map (fun g => g ++ [EOB]) groups)
                        ++ trailing)) ->
             Decoder.ac d layer
             = Ok (map (fun g => decode_run_length (g ++ [EOB])) groups)).
  { intros groups trailing Hgroups Htrailing Hdec.
    unfold Decoder.ac. rewrite Hdec. cbn [bind]. rewrite mapM_as_pair.
    cbn [bind]. rewrite DecoderFacts.isplit_groups.
    - now rewrite map_map.
    - eapply Forall_impl; [|exact Hgroups]. exact Hno.
    - now apply Hno. }
  split; [exact Hac|].
  intros trailing Htrailing Hdec.
  exact (Hac [] trailing (Forall_nil _) Htrailing Hdec).
Qed.

(** ** [Decoder] *)

(** Writing at most [size * size] values along the path succeeds. *)
Lemma inverse_iter_zig_zag_loop_total (size : Z) (vals : list Z) :
  1 <= size ->
  forall (k : nat) (ret : matrix),
    is_square size ret ->
    Z.of_nat (k + List.length vals) <= size * size ->
    exists ret',
      inverse_iter_zig_zag_loop vals size ret (fst (zig_zag_cursor size k))
        (snd (zig_zag_cursor size k)) = Ok ret' /\
      is_square size ret'.
Proof.
  intros Hs. induction vals as [|v vals IH]; intros k ret Hret Hk.
  - exists ret. split; [reflexivity|assumption].
  - cbn [List.length] in Hk. cbn [inverse_iter_zig_zag_loop].
    pose proof (zig_zag_cursor_in_square size k Hs ltac:(lia)) as Hin.
    destruct (set2_in_square size Hs ret (zig_zag_cursor size k) v Hret Hin)
      as (ret1 & Hset & Hsq1 & _).
    rewrite Hset. cbn [bind].
    destruct (IH (S k) ret1 Hsq1 ltac:(lia)) as (ret' & Hloop & Hsq').
    cbn [zig_zag_cursor] in Hloop.
    destruct (zig_zag_cursor size k) as [x y]. cbn [fst snd].
    destruct (zig_zag_step x y size) as [x' y']. cbn [fst snd] in Hloop.
    exists ret'. split; assumption.
Qed.

Lemma inverse_iter_zig_zag_total (size : Z) (garbage : nat -> nat -> Z)
  (seq : list Z) (fill : Z) :
  1 <= size -> Z.of_nat (List.length seq) <= size * size ->
  exists a,
    inverse_iter_zig_zag garbage seq size fill = Ok a /\ is_square size a.
Proof.
  intros Hs Hlen. unfold inverse_iter_zig_zag.
  destruct (np_empty_square size Hs garbage) as (ret & Hempty & Hret).
  rewrite Hempty. cbn [bind].
  apply (inverse_iter_zig_zag_loop_total size _ Hs 0 ret Hret).
  rewrite length_app, repeat_length, Z.pow_2_r. lia.
Qed.

Lemma shape_layer_ok (garbage : nat -> nat -> Z) (dcs : list Z)
  (acs : list (list Z)) :
  List.length dcs = List.length acs ->
  Forall (fun ac => (List.length ac <= 63)%nat) acs ->
  exists blocks,
    Decoder.shape_layer garbage dcs acs = Ok blocks /\
    List.length blocks = List.length dcs /\
    Forall (is_square 8) blocks.
Proof.
  intros Hlen Hacs. unfold Decoder.shape_layer.
  rewrite Hlen, Z.eqb_refl. cbn [negb]. unfold Decoder.zip.
  revert dcs Hlen. induction Hacs as [|ac acs Hac _ IH]; intros dcs Hlen.
  - destruct dcs; [|discriminate]. exists []. cbn. auto.
  - destruct dcs as [|dc dcs]; [discriminate|].
    injection Hlen as Hlen. cbn [combine mapM].
    destruct (inverse_iter_zig_zag_total 8 garbage (dc :: ac) 0 ltac:(lia))
      as (block & Hblock & Hsq).
    { cbn [List.length]. lia. }
    rewrite Hblock. cbn [bind].
    destruct (IH dcs Hlen) as (blocks & Hblocks & Hl & Hall).
    rewrite Hblocks. cbn [bind]. exists (block :: blocks).
    split; [reflexivity|]. split; [cbn; now rewrite Hl|now constructor].
Qed.

Lemma shape_layer_mismatch (garbage : nat -> nat -> Z) (dcs : list Z)
  (acs : list (list Z)) :
  List.length dcs <> List.length acs ->
  Decoder.shape_layer garbage dcs acs = Raise ValueError.
Proof.
  intros Hlen. unfold Decoder.shape_layer.
  destruct (Z.eqb_spec (Z.of_nat (List.length dcs))
              (Z.of_nat (List.length acs))); [lia|reflexivity].
Qed.

Lemma np_split2_even {A : Type} (a : list A) :
  Z.of_nat (List.length a) mod 2 = 0 ->
  exists front back,
    Decoder.np_split2 a = Ok (front, back) /\ a = front ++ back /\
    List.length front = List.length back.
Proof.
  intros Heven. unfold Decoder.np_split2. rewrite Heven. cbn [Z.eqb].
  eexists _, _. split; [reflexivity|]. split.
  - symmetry. apply firstn_skipn.
  - rewrite length_firstn, length_skipn.
    pose proof (Z.div_mod (Z.of_nat (List.length a)) 2 ltac:(lia)). lia.
Qed.

(** C9, amended.  With the DC values and the AC groups of both layers
    decoded, [decode] raises an error whenever the number of DC values of a
    layer differs from its number of AC groups or the chrominance counts are
    odd; when the three checks pass and no AC group holds more than 63
    coefficients it returns the block sequences, one 8 x 8 block per DC
    value, the chrominance blocks split evenly between the last two. *)
Theorem decoder_shape_checks :
  forall (garbage : nat -> nat -> Z) (d : bitstreams)
         (dc_l dc_c : list Z) (ac_l ac_c : list (list Z)),
    Decoder.dc d LUMINANCE = Ok dc_l ->
    Decoder.dc d CHROMINANCE = Ok dc_c ->
    Decoder.ac d LUMINANCE = Ok ac_l ->
    Decoder.ac d CHROMINANCE = Ok ac_c ->
    (List.length dc_l <> List.length ac_l \/
     List.length dc_c <> List.length ac_c \/
     Z.of_nat (List.length dc_c) mod 2 <> 0 \/
     Z.of_nat (List.length ac_c) mod 2 <> 0 ->
     exists e, Decoder.decode garbage d = Raise e) /\
    (List.length dc_l = List.length ac_l ->
     List.length dc_c = List.length ac_c ->
     Z.of_nat (List.length dc_c) mod 2 = 0 ->
     Z.of_nat (List.length ac_c) mod 2 = 0 ->
     Forall (fun ac => (List.length ac <= 63)%nat) (ac_l ++ ac_c) ->
     exists y cb cr,
       Decoder.decode garbage d = Ok (Planes y cb cr) /\
       List.length y = List.length dc_l /\
       List.length cb = List.length cr /\
       (List.length cb + List.length cr)%nat = List.length dc_c /\
       Forall (is_square 8) (y ++ cb ++ cr)).
Proof.
  intros garbage d dc_l dc_c ac_l ac_c Hdl Hdc Hal Hac.
  unfold Decoder.decode. rewrite Hdl, Hdc, Hal, Hac. cbn [bind]. split.
  - intros Hbad.
    destruct (Z.eqb_spec (Z.of_nat (List.length dc_c) mod 2) 0) as [Hd|Hd];
      cbn [negb orb]; [|now eexists].
    destruct (Z.eqb_spec (Z.of_nat (List.length ac_c) mod 2) 0) as [Ha|Ha];
      cbn [negb]; [|now eexists].
    destruct (Nat.eq_dec (List.length dc_l) (List.length ac_l)) as [Hl|Hl].
    + destruct (Decoder.shape_layer garbage dc_l ac_l) as [shaped_l|e];
        cbn [bind]; [|now eexists].
      rewrite shape_layer_mismatch by tauto. now eexists.
    + rewrite shape_layer_mismatch by assumption. now eexists.
  - intros Hl Hc Hd Ha Hlen. apply Forall_app in Hlen as [Hlen_l Hlen_c].
    rewrite Hd, Ha. cbn [Z.eqb negb orb].
    destruct (shape_layer_ok garbage dc_l ac_l Hl Hlen_l)
      as (shaped_l & Hsl & Hll & Hsql).
    destruct (shape_layer_ok garbage dc_c ac_c Hc Hlen_c)
      as (shaped_c & Hsc & Hlc & Hsqc).
    rewrite Hsl, Hsc. cbn [bind].
    destruct (np_split2_even shaped_c) as (cb & cr & Hsplit & Heq & Hhalf).
    { now rewrite Hlc. }
    rewrite Hsplit. exists shaped_l, cb, cr.
    split; [reflexivity|]. split; [assumption|]. split; [assumption|].
    split.
    + rewrite <- Hlc, Heq, length_app. reflexivity.
    + rewrite <- Heq. apply Forall_app. split; assumption.
Qed.

(** C9, as stated, fails when the checks pass on an AC group of more than
    63 coefficients: one luminance DC value with one luminance group of 64
    coefficients, and no chrominance, pass the three checks, and [decode]
    raises [IndexError] when it writes the 65th value of the block. *)
Lemma decoder_shape_checks_counterexample :
  let d := Bitstreams "00" "" (join (repeat "001" 64 ++ ["1010"])) "" in
  let garbage := fun _ _ : nat => 0 in
  Decoder.dc d LUMINANCE = Ok [0] /\
  Decoder.ac d LUMINANCE = Ok [repeat 1 64] /\
  Decoder.dc d CHROMINANCE = Ok [] /\
  Decoder.ac d CHROMINANCE = Ok [] /\
  Decoder.decode garbage d = Raise IndexError.
Proof.
  cbv zeta. repeat split; vm_compute; reflexivity.
Qed.

(** ** Differential coding *)

Lemma encode_differential_from (rest pre : list Z) (prev : Z) :
  mapM (fun '(idx, item) =>
          if idx =? 0 then Ok item
          else p <- py_index (pre ++ prev :: rest) (idx - 1) ;; Ok (item - p))
       (enumerate_from (Z.of_nat (List.length pre) + 1) rest)
  = Ok (diff_from prev rest).
Proof.
  revert pre prev. induction rest as [|x rest IH]; intros pre prev.
  - reflexivity.
  - cbn [enumerate_from mapM diff_from].
    destruct (Z.eqb_spec (Z.of_nat (List.length pre) + 1) 0); [lia|].
    rewrite (py_index_middle pre prev (x :: rest)) by lia. cbn [bind].
    specialize (IH (pre ++ [prev]) x).
    rewrite <- app_assoc, length_app in IH. cbn [app List.length] in IH.
    replace (Z.of_nat (List.length pre + 1) + 1)
      with (Z.of_nat (List.length pre) + 1 + 1) in IH by lia.
    rewrite IH. reflexivity.
Qed.

Lemma encode_differential_spec (seq : list Z) :
  encode_differential seq = Ok (diff_list seq).
Proof.
  unfold encode_differential, enumerate. destruct seq as [|x seq].
  - reflexivity.
  - cbn [enumerate_from mapM diff_list]. cbn [Z.eqb bind].
    pose proof (encode_differential_from seq [] x) as H.
    cbn [app List.length] in H. change (Z.of_nat 0 + 1) with (0 + 1) in H.
    rewrite H. reflexivity.
Qed.

(** In a dtype each difference is the exact one, wrapped around. *)
Lemma encode_differential_np_from (dt : dtype) (rest pre : list Z) (prev : Z) :
  mapM (fun '(idx, item) =>
          if idx =? 0 then Ok item
          else p <- py_index (pre ++ prev :: rest) (idx - 1) ;;
               Ok (dtype_wrap dt (item - p)))
       (enumerate_from (Z.of_nat (List.length pre) + 1) rest)
  = Ok (map (dtype_wrap dt) (diff_from prev rest)).
Proof.
  revert pre prev. induction rest as [|x rest IH]; intros pre prev.
  - reflexivity.
  - cbn [enumerate_from mapM diff_from map].
    destruct (Z.eqb_spec (Z.of_nat (List.length pre) + 1) 0); [lia|].
    rewrite (py_index_middle pre prev (x :: rest)) by lia. cbn [bind].
    specialize (IH (pre ++ [prev]) x).
    rewrite <- app_assoc, length_app in IH. cbn [app List.length] in IH.
    replace (Z.of_nat (List.length pre + 1) + 1)
      with (Z.of_nat (List.length pre) + 1 + 1) in IH by lia.
    rewrite IH. reflexivity.
Qed.

Lemma encode_differential_np_spec (dt : dtype) (seq : list Z) :
  encode_differential_np dt seq = Ok (np_diff_list dt seq).
Proof.
  unfold encode_differential_np, enumerate. destruct seq as [|x seq].
  - reflexivity.
  - cbn [enumerate_from mapM np_diff_list]. cbn [Z.eqb bind].
    pose proof (encode_differential_np_from dt seq [] x) as H.
    cbn [app List.length] in H. change (Z.of_nat 0 + 1) with (0 + 1) in H.
    rewrite H. reflexivity.
Qed.

Lemma dtype_wrap_in_dtype (dt : dtype) (v : Z) :
  in_dtype dt v -> dtype_wrap dt v = v.
Proof.
  unfold in_dtype, dtype_wrap, dtype_min, dtype_max.
  assert (H : 2 ^ dtype_bits dt = 2 * 2 ^ (dtype_bits dt - 1)).
  { apply pow2_step. destruct dt; cbn; lia. }
  assert (0 < 2 ^ (dtype_bits dt - 1))
    by (apply pow2_pos; destruct dt; cbn; lia).
  intros Hv. rewrite Z.mod_small by lia. lia.
Qed.

(** Differences that fit the dtype are computed exactly. *)
Lemma np_diff_list_exact (dt : dtype) (seq : list Z) :
  Forall (in_dtype dt) (diff_list seq) -> np_diff_list dt seq = diff_list seq.
Proof.
  destruct seq as [|x seq]; [reflexivity|].
  cbn [diff_list np_diff_list]. intros H. apply Forall_inv_tail in H.
  f_equal. induction H as [|v l Hv _ IH]; [reflexivity|].
  cbn [map]. now rewrite IH, dtype_wrap_in_dtype.
Qed.

Lemma accumulate_diff_from (prev : Z) (seq : list Z) :
  accumulate_from prev (diff_from prev seq) = seq.
Proof.
  revert prev. induction seq as [|x seq IH]; intros prev; [reflexivity|].
  cbn [diff_from accumulate_from].
  replace (prev + (x - prev)) with x by lia. now rewrite IH.
Qed.

(** The differential round trip. *)
Lemma decode_encode_differential (seq : list Z) :
  decode_differential (diff_list seq) = seq.
Proof.
  destruct seq as [|x seq]; [reflexivity|].
  unfold decode_differential. cbn [diff_list accumulate].
  now rewrite accumulate_diff_from.
Qed.

(** ** Streams of Huffman codes *)

Lemma mapM_compose {A B C : Type} (f : B -> result C) (g : A -> B)
  (l : list A) : mapM f (map g l) = mapM (fun a => f (g a)) l.
Proof.
  induction l as [|a l IH]; [reflexivity|]. cbn [map mapM]. now rewrite IH.
Qed.

Lemma encode_huffman_stream (layer : layer_type) (m : dc_ac)
  (vs : list hvalue) :
  Forall (fun v => valid_value v /\ mode_of v = m) vs ->
  exists codes,
    mapM (fun v => encode_huffman v layer) vs = Ok codes /\
    Forall2 (decodes_as m layer) codes vs.
Proof.
  induction 1 as [|v vs [Hv Hm] _ IH].
  - exists []. split; [reflexivity|constructor].
  - destruct (encode_huffman_decodes v layer Hv) as (code & Hcode & Hdec).
    destruct IH as (codes & Hcodes & Hall).
    exists (code :: codes). cbn [mapM]. rewrite Hcode, Hcodes.
    split; [reflexivity|]. constructor; [now rewrite <- Hm|assumption].
Qed.

Lemma mapM_as_int (ints : list Z) :
  mapM Decoder.as_int (map VInt ints) = Ok ints.
Proof.
  induction ints as [|v ints IH]; [reflexivity|].
  cbn [map mapM Decoder.as_int bind]. now rewrite IH.
Qed.

(** The DC bit string of differences within range decodes to them. *)
Lemma encode_dc_decodes (diff : list Z) (layer : layer_type) :
  Forall (fun v => Z.abs v <= 2047) diff ->
  exists bits,
    Encoder.encode_dc diff layer = Ok bits /\
    decode_huffman bits DC layer = Ok (map VInt diff).
Proof.
  intros Hdiff.
  destruct (encode_huffman_stream layer DC (map VInt diff))
    as (codes & Hcodes & Hall).
  { apply Forall_map. eapply Forall_impl; [|exact Hdiff].
    intros v Hv. split; [exact Hv|reflexivity]. }
  exists (join codes). unfold Encoder.encode_dc.
  rewrite mapM_compose in Hcodes. rewrite Hcodes. cbn [bind].
  split; [reflexivity|]. now apply decode_huffman_codes.
Qed.

Lemma mapM_symbol_value (layer : layer_type) (stream : list (Z * Z)) :
  mapM (fun '(run, v) => encode_huffman (VPair run v) layer) stream
  = mapM (fun s => encode_huffman (symbol_value s) layer) stream.
Proof.
  induction stream as [|[run v] stream IH]; [reflexivity|].
  cbn [mapM]. now rewrite IH.
Qed.

(** The AC bit string of valid symbols decodes to them. *)
Lemma encode_ac_decodes (stream : list (Z * Z)) (layer : layer_type) :
  Forall (fun s => valid_value (symbol_value s)) stream ->
  exists bits,
    Encoder.encode_ac stream layer = Ok bits /\
    decode_huffman bits AC layer = Ok (map symbol_value stream).
Proof.
  intros Hs.
  destruct (encode_huffman_stream layer AC (map symbol_value stream))
    as (codes & Hcodes & Hall).
  { apply Forall_map. eapply Forall_impl; [|exact Hs].
    intros s Hv. split; [exact Hv|reflexivity]. }
  exists (join codes). unfold Encoder.encode_ac.
  rewrite mapM_compose in Hcodes.
  rewrite (mapM_symbol_value layer stream), Hcodes. cbn [bind].
  split; [reflexivity|]. now apply decode_huffman_codes.
Qed.

(** ** The codec, layer by layer *)

Lemma block_dc_get2 (block : matrix) :
  is_square 8 block -> get2 block 0 0 = Ok (block_dc block).
Proof.
  intros Hb. apply (get2_in_square 8 block (0, 0) Hb).
  split; cbn; lia.
Qed.

Lemma diff_dc_spec (dt : dtype) (d : planes) (layer : layer_type) :
  Forall (is_square 8) (Encoder.data d layer) ->
  Encoder.diff_dc dt d layer
  = Ok (np_diff_list dt (map block_dc (Encoder.data d layer))).
Proof.
  intros Hblocks. unfold Encoder.diff_dc.
  rewrite (mapM_map _ block_dc).
  - cbn [bind]. apply encode_differential_np_spec.
  - intros block Hin. apply block_dc_get2.
    rewrite Forall_forall in Hblocks. now apply Hblocks.
Qed.

Lemma decoder_dc_spec (d : bitstreams) (layer : layer_type) (diff : list Z) :
  decode_huffman (bits_of d DC layer) DC layer = Ok (map VInt diff) ->
  Decoder.dc d layer = Ok (decode_differential diff).
Proof.
  intros H. unfold Decoder.dc. rewrite H. cbn [bind].
  now rewrite mapM_as_int.
Qed.

Lemma mapM_as_pair_symbols (stream : list (Z * Z)) :
  mapM Decoder.as_pair (map symbol_value stream) = Ok stream.
Proof.
  induction stream as [|[run v] stream IH]; [reflexivity|].
  cbn [map mapM symbol_value Decoder.as_pair fst snd bind]. now rewrite IH.
Qed.

Lemma decoder_ac_spec (d : bitstreams) (layer : layer_type)
  (outs : list (list (Z * Z))) :
  Forall (Forall (fun s => pair_eqb s EOB = false)) outs ->
  decode_huffman (bits_of d AC layer) AC layer
  = Ok (map symbol_value (List.concat (map (fun out => out ++ [EOB]) outs))) ->
  Decoder.ac d layer = Ok (map decode_symbols outs).
Proof.
  intros Houts H. unfold Decoder.ac. rewrite H. cbn [bind].
  rewrite mapM_as_pair_symbols. cbn [bind].
  rewrite <- (app_nil_r (List.concat _)).
  rewrite DecoderFacts.isplit_groups by (assumption || constructor).
  rewrite map_map. f_equal. apply map_ext. intros out.
  apply decode_run_length_eob.
Qed.

Lemma symbol_ok_valid (keys : list Z) (s : Z * Z) :
  Forall (fun v => Z.abs v <= 1023) keys ->
  symbol_ok keys s -> valid_value (symbol_value s).
Proof.
  intros Hkeys [->|(Hrun & Hv & Hin)].
  - right. now left.
  - destruct s as [run v]. cbn [fst snd symbol_value valid_value] in *.
    right. right. rewrite Forall_forall in Hkeys.
    specialize (Hkeys v Hin). lia.
Qed.

(** The AC coefficients of a block are those of its cells other than the
    first. *)
Lemma block_ac_range (block : matrix) :
  (forall r c : Z, 0 <= r < 8 -> 0 <= c < 8 -> (r, c) <> (0, 0) ->
                   Z.abs (entry block (c, r)) <= 1023) ->
  Forall (fun v => Z.abs v <= 1023) (block_ac block).
Proof.
  intros Hcells. unfold block_ac. rewrite (zig_zag_path_cons 8 0 63).
  cbn [map tl]. apply Forall_map. unfold zig_zag_path.
  apply Forall_map. apply Forall_forall. intros k Hk. apply in_seq in Hk.
  destruct (zig_zag_cursor_rank 8 k ltac:(lia) ltac:(lia)) as [[Hx Hy] Hr].
  destruct (zig_zag_cursor 8 k) as [x y]. cbn [fst snd] in *.
  apply Hcells; [assumption|assumption|].
  intros [= -> ->]. change (zig_zag_rank2 8 0 0) with 0 in Hr. lia.
Qed.

Lemma block_cells (block : matrix) :
  map (entry block) (zig_zag_path 8 0 64) = block_dc block :: block_ac block.
Proof.
  unfold block_dc, block_ac. rewrite (zig_zag_path_cons 8 0 63). reflexivity.
Qed.

(** The coefficients the decoder has for a block, padded with zeros to 64,
    are the cells of the block along the path. *)
Lemma block_padding (block : matrix) :
  let seq := block_dc block :: strip_trailing_zeros (block_ac block) in
  seq ++ repeat 0 (Z.to_nat (8 ^ 2 - Z.of_nat (List.length seq)))
  = map (entry block) (zig_zag_path 8 0 (Z.to_nat (8 * 8))).
Proof.
  cbv zeta. change (Z.to_nat (8 * 8)) with 64%nat. rewrite block_cells.
  pose proof (strip_pad (block_ac block)) as Hpad.
  pose proof (strip_length (block_ac block)) as Hle.
  rewrite block_ac_length in Hpad, Hle.
  set (ac := block_ac block) in *.
  set (s := strip_trailing_zeros ac) in *.
  rewrite <- Hpad. cbn [app List.length]. f_equal. f_equal. f_equal.
  change (8 ^ 2) with 64. lia.
Qed.

Lemma shape_layer_blocks (garbage : nat -> nat -> Z) (blocks : list matrix) :
  Forall (is_square 8) blocks ->
  Decoder.shape_layer garbage (map block_dc blocks)
    (map (fun block => strip_trailing_zeros (block_ac block)) blocks)
  = Ok blocks.
Proof.
  intros Hblocks. unfold Decoder.shape_layer.
  rewrite !length_map, Z.eqb_refl. cbn [negb]. unfold Decoder.zip.
  induction Hblocks as [|block blocks Hb _ IH]; [reflexivity|].
  cbn [map combine mapM].
  rewrite (inverse_iter_zig_zag_entries 8 block garbage _ 0 ltac:(lia) Hb
             (block_padding block)).
  cbn [bind]. rewrite IH. reflexivity.
Qed.

Lemma np_split2_halves {A : Type} (front back : list A) :
  List.length front = List.length back ->
  Decoder.np_split2 (front ++ back) = Ok (front, back).
Proof.
  intros Hlen. unfold Decoder.np_split2.
  rewrite length_app, <- Hlen.
  replace (Z.of_nat (List.length front + List.length front))
    with (Z.of_nat (List.length front) * 2) by lia.
  rewrite Z.mod_mul, Z.div_mul by lia. cbn [Z.eqb].
  rewrite Nat2Z.id, firstn_app, skipn_app, Nat.sub_diag, firstn_all, skipn_all.
  cbn. now rewrite app_nil_r.
Qed.

Lemma stream_valid (blocks : list matrix) (outs : list (list (Z * Z))) :
  Forall (fun block => Forall (fun v => Z.abs v <= 1023) (block_ac block))
         blocks ->
  Forall2 block_symbols blocks outs ->
  Forall (fun s => valid_value (symbol_value s))
         (List.concat (map (fun out => out ++ [EOB]) outs)).
Proof.
  intros Hac Hall. revert Hac.
  induction Hall as [|block out blocks outs [_ Hout] _ IH]; intros Hac;
    [constructor|].
  cbn [map List.concat]. apply Forall_app. split.
  - apply Forall_app. split.
    + eapply Forall_impl; [|exact Hout]. intros s.
      apply symbol_ok_valid. now apply Forall_inv in Hac.
    + constructor; [|constructor]. left. reflexivity.
  - apply IH. now apply Forall_inv_tail in Hac.
Qed.

Lemma stream_decoded (blocks : list matrix) (outs : list (list (Z * Z))) :
  Forall2 block_symbols blocks outs ->
  map decode_symbols outs
  = map (fun block => strip_trailing_zeros (block_ac block)) blocks.
Proof.
  induction 1 as [|block out blocks outs [Hdec _] _ IH]; [reflexivity|].
  cbn [map]. now rewrite Hdec, IH.
Qed.

Lemma stream_no_eob (blocks : list matrix) (outs : list (list (Z * Z))) :
  Forall2 block_symbols blocks outs ->
  Forall (Forall (fun s => pair_eqb s EOB = false)) outs.
Proof.
  induction 1 as [|block out blocks outs [_ Hout] _ IH]; constructor;
    [|exact IH].
  eapply Forall_impl; [|exact Hout]. intros s. apply symbol_ok_not_eob.
Qed.

(** What the encoder writes for one layer, and what the decoder reads back
    from it. *)
Lemma layer_roundtrip (dt : dtype) (d : planes) (layer : layer_type) :
  Forall (is_square 8) (Encoder.data d layer) ->
  Forall (fun v => -2047 <= v <= 2047 /\ in_dtype dt v)
         (diff_list (map block_dc (Encoder.data d layer))) ->
  Forall (fun block => Forall (fun v => Z.abs v <= 1023) (block_ac block))
         (Encoder.data d layer) ->
  exists diff stream dc_bits ac_bits,
    Encoder.diff_dc dt d layer = Ok diff /\
    Encoder.run_length_ac d layer = Ok stream /\
    Encoder.encode_dc diff layer = Ok dc_bits /\
    Encoder.encode_ac stream layer = Ok ac_bits /\
    forall b : bitstreams,
      bits_of b DC layer = dc_bits -> bits_of b AC layer = ac_bits ->
      Decoder.dc b layer = Ok (map block_dc (Encoder.data d layer)) /\
      Decoder.ac b layer
      = Ok (map (fun block => strip_trailing_zeros (block_ac block))
                (Encoder.data d layer)).
Proof.
  intros Hblocks Hdc Hac.
  pose proof (diff_dc_spec dt d layer Hblocks) as Hdiff.
  rewrite np_diff_list_exact in Hdiff
    by (eapply Forall_impl; [|exact Hdc]; now intros v [_ Hv]).
  assert (Hdc' : Forall (fun v => Z.abs v <= 2047)
                   (diff_list (map block_dc (Encoder.data d layer))))
    by (eapply Forall_impl; [|exact Hdc]; cbv beta; intros v [Hv _]; lia).
  destruct (encode_dc_decodes _ layer Hdc') as (dc_bits & Hedc & Hddc).
  destruct (run_length_ac_spec d layer Hblocks) as (outs & Hrun & Hall).
  change (Forall2 block_symbols (Encoder.data d layer) outs) in Hall.
  destruct (encode_ac_decodes _ layer (stream_valid _ outs Hac Hall))
    as (ac_bits & Heac & Hdac).
  eexists _, _, dc_bits, ac_bits.
  split; [exact Hdiff|]. split; [exact Hrun|]. split; [exact Hedc|].
  split; [exact Heac|].
  intros b Hb_dc Hb_ac. split.
  - rewrite (decoder_dc_spec b layer
               (diff_list (map block_dc (Encoder.data d layer))))
      by (rewrite Hb_dc; exact Hddc).
    now rewrite decode_encode_differential.
  - rewrite (decoder_ac_spec b layer outs).
    + f_equal. now apply stream_decoded.
    + now apply stream_no_eob with (blocks := Encoder.data d layer).
    + rewrite Hb_ac. exact Hdac.
Qed.

(** ** The codec *)

(** C1, amended.  Full codec round trip: for 8 x 8 blocks [y], [cb], [cr]
    held in arrays of signed integers, with as many [cb] as [cr] blocks, at
    least one block per layer, every DPCM DC difference within
    [-2047, 2047] and within the range of the dtype of its layer, so that
    it is computed without wrap-around, and every AC coefficient within
    [-1023, 1023], the decoder returns, from the four bit strings of the
    encoder, exactly the blocks, in their order. *)
Theorem codec_roundtrip :
  forall (garbage : nat -> nat -> Z) (dt : layer_type -> dtype) (d : planes),
    Forall (is_square 8) (plane_y d) ->
    Forall (is_square 8) (plane_cb d) ->
    Forall (is_square 8) (plane_cr d) ->
    (forall layer : layer_type,
        Forall (block_in_dtype (dt layer)) (Encoder.data d layer)) ->
    List.length (plane_cb d) = List.length (plane_cr d) ->
    plane_y d <> [] -> plane_cb d <> [] -> plane_cr d <> [] ->
    (forall layer : layer_type,
        Forall (fun v => -2047 <= v <= 2047 /\ in_dtype (dt layer) v)
               (diff_list (map block_dc (Encoder.data d layer)))) ->
    (forall block : matrix,
        In block (plane_y d ++ plane_cb d ++ plane_cr d) ->
        forall r c : Z,
          0 <= r < 8 -> 0 <= c < 8 -> (r, c) <> (0, 0) ->
          -1023 <= entry block (c, r) <= 1023) ->
    exists bits,
      Encoder.encode dt d = Ok bits /\ Decoder.decode garbage bits = Ok d.
Proof.
  intros garbage dt d Hy Hcb Hcr _ Hlen _ _ _ Hdc Hac.
  assert (Hsq : forall layer, Forall (is_square 8) (Encoder.data d layer)).
  { intros [|]; cbn [Encoder.data]; [assumption|].
    apply Forall_app. split; assumption. }
  assert (Hac' : forall layer,
             Forall (fun block =>
                       Forall (fun v => Z.abs v <= 1023) (block_ac block))
                    (Encoder.data d layer)).
  { intros layer. apply Forall_forall. intros block Hin.
    apply block_ac_range. intros r c Hr Hc Hne.
    assert (Hin' : In block (plane_y d ++ plane_cb d ++ plane_cr d)).
    { destruct layer; cbn [Encoder.data] in Hin.
      - apply in_or_app. now left.
      - apply in_or_app. now right. }
    specialize (Hac block Hin' r c Hr Hc Hne). lia. }
  destruct (layer_roundtrip (dt LUMINANCE) d LUMINANCE (Hsq _) (Hdc _)
              (Hac' _))
    as (diff_l & rl_l & dc_l & ac_l & Hdl & Hrl & Hedl & Heal & Hdec_l).
  destruct (layer_roundtrip (dt CHROMINANCE) d CHROMINANCE (Hsq _) (Hdc _)
              (Hac' _))
    as (diff_c & rl_c & dc_c & ac_c & Hdcc & Hrc & Hedc & Heac & Hdec_c).
  exists (Bitstreams dc_l dc_c ac_l ac_c). split.
  - unfold Encoder.encode.
    rewrite Hdl, Hdcc. cbn [bind]. rewrite Hedl. cbn [bind].
    rewrite Hrl, Hrc. cbn [bind]. rewrite Heal. cbn [bind].
    rewrite Hedc. cbn [bind]. rewrite Heac. reflexivity.
  - destruct (Hdec_l (Bitstreams dc_l dc_c ac_l ac_c) eq_refl eq_refl)
      as [Hdc_l Hac_l].
    destruct (Hdec_c (Bitstreams dc_l dc_c ac_l ac_c) eq_refl eq_refl)
      as [Hdc_c Hac_c].
    unfold Decoder.decode. rewrite Hdc_l, Hdc_c. cbn [bind].
    rewrite Hac_l, Hac_c. cbn [bind].
    assert (Heven : Z.of_nat (List.length (Encoder.data d CHROMINANCE)) mod 2
                    = 0).
    { cbn [Encoder.data]. rewrite length_app, Hlen.
      replace (Z.of_nat (List.length (plane_cr d) + List.length (plane_cr d)))
        with (Z.of_nat (List.length (plane_cr d)) * 2) by lia.
      apply Z.mod_mul. lia. }
    rewrite !length_map, Heven. cbn [Z.eqb negb orb].
    rewrite !shape_layer_blocks by apply Hsq. cbn [bind Encoder.data].
    rewrite np_split2_halves by assumption. cbn [bind].
    destruct d. reflexivity.
Qed.

(** The claim without the condition on the dtype fails: two luminance
    blocks of dtype int8 with the DC coefficients 100 and -100 and no AC
    coefficient meet its conditions, the exact difference -200 and the
    difference 56 the encoder computes being both within [-2047, 2047];
    the encoder returns its bit strings, and the decoder returns from them
    the DC coefficients 100 and 156. *)
Lemma codec_roundtrip_counterexample :
  let d := Planes [dc_only_block 100; dc_only_block (-100)]
                  [dc_only_block 0] [dc_only_block 0] in
  let dt := fun _ : layer_type => Int8 in
  (forall layer, Forall (is_square 8) (Encoder.data d layer)) /\
  (forall layer, Forall (block_in_dtype (dt layer)) (Encoder.data d layer)) /\
  List.length (plane_cb d) = List.length (plane_cr d) /\
  diff_list (map block_dc (Encoder.data d LUMINANCE)) = [100; -200] /\
  Encoder.diff_dc (dt LUMINANCE) d LUMINANCE = Ok [100; 56] /\
  Encoder.diff_dc (dt CHROMINANCE) d CHROMINANCE = Ok [0; 0] /\
  (forall block, In block (plane_y d ++ plane_cb d ++ plane_cr d) ->
     Forall (fun v => v = 0) (block_ac block)) /\
  exists bits,
    Encoder.encode dt d = Ok bits /\
    Decoder.decode zero_garbage bits
    = Ok (Planes [dc_only_block 100; dc_only_block 156]
                 [dc_only_block 0] [dc_only_block 0]) /\
    Decoder.decode zero_garbage bits <> Ok d.
Proof.
  cbv zeta. split; [|split; [|split; [|split; [|split; [|split; [|split]]]]]].
  - intros [|]; repeat constructor.
  - intros [|]; repeat constructor; vm_compute; discriminate.
  - reflexivity.
  - vm_compute. reflexivity.
  - vm_compute. reflexivity.
  - vm_compute. reflexivity.
  - intros block Hin.
    cbn [plane_y plane_cb plane_cr app In] in Hin.
    destruct Hin as [<-|[<-|[<-|[<-|[]]]]]; vm_compute; repeat constructor.
  - eexists. split; [vm_compute; reflexivity|].
    split; [vm_compute; reflexivity|].
    vm_compute. discriminate.
Qed.

(** ** The scenarios of the specification *)

(** A block with DC 5 and no AC: the luminance bits are [100] [101] for the
    DC and the [EOB] codeword for the AC. *)
Example scenario_dc_only_block :
  Encoder.encode_dc [5] LUMINANCE = Ok "100101" /\
  (rl <- encode_run_length (block_ac (dc_only_block 5)) ;;
   Encoder.encode_ac rl LUMINANCE) = Ok "1010".
Proof. split; vm_compute; reflexivity. Qed.

(** A single nonzero AC coefficient at the first zig-zag position. *)
Example scenario_single_ac :
  encode_run_length (1 :: repeat 0 62) = Ok [(0, 1); EOB] /\
  Encoder.encode_ac [(0, 1); EOB] LUMINANCE = Ok "0011010".
Proof. split; vm_compute; reflexivity. Qed.

(** Sixteen zeros before a 2: [ZRL], then the 2 with no run, then [EOB]. *)
Example scenario_zrl :
  encode_run_length (repeat 0 16 ++ [2] ++ repeat 0 46)
  = Ok [ZRL; (0, 2); EOB] /\
  Encoder.encode_ac [ZRL; (0, 2); EOB] LUMINANCE
  = Ok ("11111111001" ++ "01" ++ "10" ++ "1010")%string.
Proof. split; vm_compute; reflexivity. Qed.

(** One Cb block and one Cr block: the chrominance DC values 10 and 7 are
    coded as 10 and -3 and come back as one block each. *)
Example scenario_chrominance_split :
  let d := Planes [dc_only_block 0] [dc_only_block 10] [dc_only_block 7] in
  Encoder.diff_dc Int64 d CHROMINANCE = Ok [10; -3] /\
  (bits <- Encoder.encode default_int d ;; Decoder.decode zero_garbage bits)
  = Ok d.
Proof. cbv zeta. split; vm_compute; reflexivity. Qed.

(** Two luminance blocks with DC 3 and -2: the differences 3 and -5. *)
Example scenario_negative_dc_difference :
  encode_differential [3; -2] = Ok [3; -5] /\
  Encoder.encode_dc [3; -5] LUMINANCE
  = Ok ("011" ++ "11" ++ "100" ++ "010")%string.
Proof. split; vm_compute; reflexivity. Qed.

(** The zig-zag order of a 3 x 3 array, and its inverse. *)
Example scenario_zig_zag_3x3 :
  iter_zig_zag [[1; 2; 3]; [4; 5; 6]; [7; 8; 9]]
  = Ok [1; 2; 4; 7; 5; 3; 6; 8; 9] /\
  inverse_iter_zig_zag zero_garbage [1; 2; 4; 7; 5; 3; 6; 8; 9] 3 0
  = Ok [[1; 2; 3]; [4; 5; 6]; [7; 8; 9]].
Proof. split; vm_compute; reflexivity. Qed.

(** ** The properties at sample inputs *)

Local Ltac index_cases i :=
  let H := fresh in
  assert (H : i = 0 \/ i = 1 \/ i = 2 \/ i = 3 \/ i = 4 \/ i = 5 \/ i = 6
              \/ i = 7) by lia;
  destruct H as [->|[->|[->|[->|[->|[->|[->| ->]]]]]]].

Lemma codec_roundtrip_witness :
  exists bits,
    Encoder.encode (fun _ => Int8) sample_planes = Ok bits /\
    Decoder.decode zero_garbage bits = Ok sample_planes.
Proof.
  apply (codec_roundtrip zero_garbage (fun _ => Int8) sample_planes).
  - repeat constructor.
  - repeat constructor.
  - repeat constructor.
  - intros [|]; unfold block_in_dtype;
      repeat (apply Forall_cons || apply Forall_nil);
      vm_compute; split; discriminate.
  - reflexivity.
  - discriminate.
  - discriminate.
  - discriminate.
  - intros [|]; cbn [Encoder.data sample_planes plane_y plane_cb plane_cr app
                       map diff_list diff_from];
      repeat (apply Forall_cons || apply Forall_nil);
      vm_compute; repeat split; discriminate.
  - intros block Hin r c Hr Hc Hne.
    cbn [sample_planes plane_y plane_cb plane_cr app In] in Hin.
    destruct Hin as [<-|[<-|[<-|[<-|[]]]]];
      index_cases r; index_cases c;
      try (exfalso; apply Hne; reflexivity); vm_compute; split; discriminate.
Defined.

Lemma run_length_roundtrip_strips_trailing_zeros_witness :
  exists symbols,
    encode_run_length (1 :: repeat 0 62) = Ok symbols /\
    decode_run_length symbols = strip_trailing_zeros (1 :: repeat 0 62) /\
    decode_run_length symbols
    ++ repeat 0 (63 - List.length (decode_run_length symbols))
    = 1 :: repeat 0 62 /\
    (decode_run_length symbols = 1 :: repeat 0 62
     <-> last (1 :: repeat 0 62) 1 <> 0).
Proof.
  apply (run_length_roundtrip_strips_trailing_zeros (1 :: repeat 0 62)).
  reflexivity.
Defined.

Lemma zig_zag_roundtrip_witness :
  exists seq,
    iter_zig_zag [[1; 2; 3]; [4; 5; 6]; [7; 8; 9]] = Ok seq /\
    inverse_iter_zig_zag zero_garbage seq 3 0
    = Ok [[1; 2; 3]; [4; 5; 6]; [7; 8; 9]].
Proof.
  apply (zig_zag_roundtrip 3 [[1; 2; 3]; [4; 5; 6]; [7; 8; 9]] zero_garbage 0).
  - lia.
  - repeat constructor.
Defined.

Lemma huffman_tables_injective_prefix_free_witness :
  lookup (HUFFMAN_CATEGORY_CODEWORD AC CHROMINANCE) (KPair 14 1)
  = Ok "11111111100000" /\
  prefix_of "11111111100000" "11111111100000" /\
  KPair 14 1 = KPair 14 1 /\
  "11111111100000" = "11111111100000".
Proof.
  pose proof (huffman_tables_injective_prefix_free AC CHROMINANCE)
    as (_ & Hinj & Hfree).
  assert (Hl : lookup (HUFFMAN_CATEGORY_CODEWORD AC CHROMINANCE) (KPair 14 1)
               = Ok "11111111100000") by reflexivity.
  assert (Hp : prefix_of "11111111100000" "11111111100000")
    by (exists ""; reflexivity).
  split; [exact Hl|]. split; [exact Hp|]. split.
  - exact (Hinj (KPair 14 1) (KPair 14 1) "11111111100000" Hl Hl).
  - exact (Hfree (KPair 14 1) (KPair 14 1) _ _ Hl Hl Hp).
Defined.

Lemma huffman_single_symbol_roundtrip_witness :
  (exists bits,
      encode_huffman (VInt (-5)) LUMINANCE = Ok bits /\
      decode_huffman bits DC LUMINANCE = Ok [VInt (-5)]) /\
  (exists bits,
      encode_huffman (VPair 3 (-1023)) CHROMINANCE = Ok bits /\
      decode_huffman bits AC CHROMINANCE = Ok [VPair 3 (-1023)]).
Proof.
  split.
  - apply (huffman_single_symbol_roundtrip LUMINANCE (VInt (-5))).
    cbn. lia.
  - apply (huffman_single_symbol_roundtrip CHROMINANCE (VPair 3 (-1023))).
    cbn. right. right. lia.
Defined.

Lemma category_classification_canonical_witness :
  exists size index : Z,
    index_2d HUFFMAN_CATEGORIES (-5) = Ok (size, index) /\
    size = Z.log2 (Z.abs (-5)) + 1 /\
    0 <= index /\
    (forall j : nat,
        nth_error (canonical_order size) j = Some (-5) <-> j = Z.to_nat index) /\
    category_value size index = Ok (-5).
Proof.
  apply (proj2 category_classification_canonical (-5)).
  - discriminate.
  - cbn. lia.
Defined.

Lemma encode_huffman_raises_iff_out_of_bounds_witness :
  encode_huffman (VInt 2048) LUMINANCE = Raise ValueError /\
  (exists bits, encode_huffman (VInt (-2047)) LUMINANCE = Ok bits) /\
  encode_huffman (VPair 3 0) LUMINANCE = Raise ValueError /\
  (exists bits, encode_huffman (VPair 15 1023) LUMINANCE = Ok bits).
Proof.
  destruct (encode_huffman_raises_iff_out_of_bounds LUMINANCE) as [Hdc Hac].
  split; [|split; [|split]].
  - apply (proj1 (Hdc 2048)). cbn. lia.
  - apply (proj2 (Hdc (-2047))). cbn. lia.
  - apply (proj1 (Hac 3 0 ltac:(lia) ltac:(discriminate) ltac:(discriminate))).
    left. reflexivity.
  - apply (proj2 (Hac 15 1023 ltac:(lia) ltac:(discriminate)
                    ltac:(discriminate))).
    cbn. lia.
Defined.

Lemma eob_once_per_block_witness :
  (exists front,
      encode_run_length [0; 0; 7] = Ok (front ++ [EOB]) /\
      ~ In EOB front /\
      count_eob (front ++ [EOB]) = 1%nat) /\
  (exists stream,
      Encoder.run_length_ac sample_planes CHROMINANCE = Ok stream /\
      count_eob stream
      = List.length (Encoder.data sample_planes CHROMINANCE)).
Proof.
  split.
  - apply (proj1 eob_once_per_block [0; 0; 7]). discriminate.
  - apply (proj2 eob_once_per_block sample_planes CHROMINANCE).
    repeat constructor.
Defined.

Lemma decoder_shape_checks_witness :
  (exists e,
      Decoder.decode zero_garbage (Bitstreams "00" "" "" "") = Raise e) /\
  (exists y cb cr,
      Decoder.decode zero_garbage (Bitstreams "00" "0000" "1010" "0000")
      = Ok (Planes y cb cr) /\
      List.length y = 1%nat /\
      List.length cb = List.length cr /\
      (List.length cb + List.length cr)%nat = 2%nat /\
      Forall (is_square 8) (y ++ cb ++ cr)).
Proof.
  split.
  - apply (proj1 (decoder_shape_checks zero_garbage
                    (Bitstreams "00" "" "" "")
                    [0] (@nil Z) (@nil (list Z)) (@nil (list Z))
                    eq_refl eq_refl eq_refl eq_refl)).
    left. discriminate.
  - apply (proj2 (decoder_shape_checks zero_garbage
                    (Bitstreams "00" "0000" "1010" "0000")
                    [0] [0; 0] [[]] [[]; []]
                    eq_refl eq_refl eq_refl eq_refl)).
    + reflexivity.
    + reflexivity.
    + reflexivity.
    + reflexivity.
    + repeat constructor.
Defined.

Lemma decoder_drops_symbols_after_last_eob_witness :
  Decoder.ac (Bitstreams "" "" "1010001" "") LUMINANCE
  = Ok (map (fun g => decode_run_length (g ++ [EOB])) [[]]) /\
  Decoder.ac (Bitstreams "" "" "001" "") LUMINANCE = Ok [].
Proof.
  split.
  - apply (proj1 (decoder_drops_symbols_after_last_eob
                    (Bitstreams "" "" "1010001" "") LUMINANCE)
             [[]] [(0, 1)]).
    + repeat constructor. intros [].
    + intros [H|[]]. discriminate.
    + reflexivity.
  - apply (proj2 (decoder_drops_symbols_after_last_eob
                    (Bitstreams "" "" "001" "") LUMINANCE) [(0, 1)]).
    + intros [H|[]]. discriminate.
    + reflexivity.
Defined.

(** * Further properties of the code *)

(** ** Differential coding, both ways *)

Lemma diff_list_length (seq : list Z) :
  List.length (diff_list seq) = List.length seq.
Proof.
  destruct seq as [|x seq]; [reflexivity|]. cbn [diff_list List.length].
  f_equal. revert x. induction seq as [|y seq IH]; intros x; [reflexivity|].
  cbn [diff_from List.length]. now rewrite IH.
Qed.

Lemma diff_from_accumulate (prev : Z) (seq : list Z) :
  diff_from prev (accumulate_from prev seq) = seq.
Proof.
  revert prev. induction seq as [|x seq IH]; intros prev; [reflexivity|].
  cbn [accumulate_from diff_from]. rewrite IH. f_equal. lia.
Qed.

(** X1.  Differential round trip: [encode_differential] never raises, keeps
    the length of the sequence, and [decode_differential] gives the sequence
    back from the differences, for every integer sequence, the empty one
    included. *)
Theorem differential_roundtrip :
  forall seq : list Z,
    exists diff,
      encode_differential seq = Ok diff /\
      List.length diff = List.length seq /\
      decode_differential diff = seq.
Proof.
  intros seq. exists (diff_list seq).
  split; [apply encode_differential_spec|].
  split; [apply diff_list_length|apply decode_encode_differential].
Qed.

(** X2.  The other way round: the differences of the running sums of a
    sequence are the sequence, so the two functions are inverse bijections
    on integer sequences. *)
Theorem differential_of_running_sums :
  forall diff : list Z,
    encode_differential (decode_differential diff) = Ok diff.
Proof.
  intros diff. rewrite encode_differential_spec. f_equal.
  destruct diff as [|x diff]; [reflexivity|].
  unfold decode_differential. cbn [accumulate diff_list].
  now rewrite diff_from_accumulate.
Qed.

(** ** The category table beyond its last row *)

Lemma index_2d_from_missing (n k : nat) (v : Z) :
  (1 <= k)%nat ->
  2 ^ (Z.of_nat (k + n) - 1) <= Z.abs v ->
  index_2d_from (map canonical_order (map Z.of_nat (seq k n))) v (Z.of_nat k)
  = Raise ValueError.
Proof.
  revert k. induction n as [|n IH]; intros k Hk Hv; [reflexivity|].
  cbn [seq map index_2d_from].
  rewrite index_row_canonical by lia.
  assert (Hmono : 2 ^ Z.of_nat k <= 2 ^ (Z.of_nat (k + S n) - 1))
    by (apply Z.pow_le_mono_r; lia).
  destruct (Z.ltb_spec (Z.abs v) (2 ^ Z.of_nat k)); [lia|].
  rewrite andb_false_r.
  replace (Z.of_nat k + 1) with (Z.of_nat (S k)) by lia.
  apply IH; [lia|].
  replace (S k + n)%nat with (k + S n)%nat by lia. exact Hv.
Qed.

(** X3.  The category lookup fails exactly beyond the table: [index_2d] on
    [HUFFMAN_CATEGORIES] raises [ValueError] for the integers of magnitude
    32768 or more, and for no other integer. *)
Theorem index_2d_raises_iff_beyond_table :
  forall v : Z,
    index_2d HUFFMAN_CATEGORIES v = Raise ValueError <-> 32768 <= Z.abs v.
Proof.
  intros v. split.
  - intros H. destruct (Z.le_gt_cases 32768 (Z.abs v)) as [|Hlt]; [assumption|].
    destruct (Z.eq_dec v 0) as [->|Hne].
    + rewrite index_2d_zero in H. discriminate.
    + rewrite index_2d_nonzero in H by lia. discriminate.
  - intros Hv. unfold index_2d. rewrite HUFFMAN_CATEGORIES_rows.
    cbn [index_2d_from index_row].
    destruct (Z.eqb_spec v 0); [lia|].
    apply (index_2d_from_missing 15 1); [lia|].
    change (2 ^ (Z.of_nat (1 + 15) - 1)) with 32768. exact Hv.
Qed.

(** ** [encode_huffman] off its tables *)

Lemma lookup_missing (t : list (hkey * string)) (key : hkey) :
  (forall cw, ~ In (key, cw) t) -> lookup t key = Raise KeyError.
Proof.
  induction t as [|[k cw] t IH]; intros H; [reflexivity|].
  cbn [lookup]. destruct (hkey_eqb key k) eqn:E.
  - apply hkey_eqb_eq in E. subst k. exfalso. apply (H cw). now left.
  - apply IH. intros cw' Hin. apply (H cw'). now right.
Qed.

Lemma lookup_run_out_of_table (layer : layer_type) (run size : Z) :
  ~ 0 <= run <= 15 ->
  lookup (HUFFMAN_CATEGORY_CODEWORD AC layer) (KPair run size)
  = Raise KeyError.
Proof.
  intros Hrun. apply lookup_missing. intros cw Hin.
  assert (Hall : table_runs_in_range (HUFFMAN_CATEGORY_CODEWORD AC layer)
                 = true) by (destruct layer; vm_compute; reflexivity).
  unfold table_runs_in_range in Hall. rewrite forallb_forall in Hall.
  specialize (Hall _ Hin). cbn [fst] in Hall.
  apply andb_true_iff in Hall as [H1 H2].
  apply Z.leb_le in H1, H2. lia.
Qed.

(** X4.  A run outside [0, 15] has no codeword: for such a run
    [encode_huffman] raises [ValueError] when the value is 0 or of magnitude
    1024 or more, its range check coming first, and [KeyError], from the
    table lookup, for every value it accepts. *)
Theorem encode_huffman_run_out_of_table :
  forall (layer : layer_type) (run value : Z),
    ~ 0 <= run <= 15 ->
    (value = 0 \/ 1024 <= Z.abs value ->
     encode_huffman (VPair run value) layer = Raise ValueError) /\
    (1 <= Z.abs value <= 1023 ->
     encode_huffman (VPair run value) layer = Raise KeyError).
Proof.
  intros layer run value Hrun.
  assert (E : pair_eqb (run, value) EOB || pair_eqb (run, value) ZRL = false).
  { unfold pair_eqb, EOB, ZRL. cbn [fst snd].
    destruct (Z.eqb_spec run 0), (Z.eqb_spec run 15);
      first [reflexivity | lia]. }
  unfold encode_huffman. rewrite E. split.
  - intros Hv.
    destruct (Z.eqb_spec value 0); [reflexivity|].
    destruct (Z.leb_spec value (-1024)); [reflexivity|].
    destruct (Z.geb_spec value 1024); [reflexivity|]. lia.
  - intros Hv.
    destruct (Z.eqb_spec value 0); [lia|].
    destruct (Z.leb_spec value (-1024)); [lia|].
    destruct (Z.geb_spec value 1024); [lia|]. cbv [orb].
    rewrite index_2d_nonzero by lia. cbn [bind].
    now rewrite lookup_run_out_of_table.
Qed.

(** ** Streams of Huffman codes, continued *)

(** X5.  Stream round trip: the concatenated bit strings of any sequence of
    values [encode_huffman] accepts, all DC or all AC, decode in that mode
    and layer to the sequence, value by value, the whole string being
    consumed. *)
Theorem huffman_stream_roundtrip :
  forall (layer : layer_type) (m : dc_ac) (values : list hvalue),
    Forall (fun v => valid_value v /\ mode_of v = m) values ->
    exists codes,
      mapM (fun v => encode_huffman v layer) values = Ok codes /\
      decode_huffman (join codes) m layer = Ok values.
Proof.
  intros layer m values Hvalid.
  destruct (encode_huffman_stream layer m values Hvalid)
    as (codes & Hcodes & Hall).
  exists codes. split; [exact Hcodes|]. now apply decode_huffman_codes.
Qed.

(** X6.  Unique decodability: two sequences of accepted values of one mode
    whose concatenated bit strings for one layer are equal are the same
    sequence. *)
Theorem huffman_stream_injective :
  forall (layer : layer_type) (m : dc_ac) (values1 values2 : list hvalue)
         (codes1 codes2 : list string),
    Forall (fun v => valid_value v /\ mode_of v = m) values1 ->
    Forall (fun v => valid_value v /\ mode_of v = m) values2 ->
    mapM (fun v => encode_huffman v layer) values1 = Ok codes1 ->
    mapM (fun v => encode_huffman v layer) values2 = Ok codes2 ->
    join codes1 = join codes2 ->
    values1 = values2.
Proof.
  intros layer m values1 values2 codes1 codes2 H1 H2 E1 E2 Hjoin.
  destruct (encode_huffman_stream layer m values1 H1) as (c1 & Hc1 & Hall1).
  destruct (encode_huffman_stream layer m values2 H2) as (c2 & Hc2 & Hall2).
  rewrite E1 in Hc1. rewrite E2 in Hc2.
  injection Hc1 as <-. injection Hc2 as <-.
  pose proof (decode_huffman_codes m layer codes1 values1 Hall1) as D1.
  pose proof (decode_huffman_codes m layer codes2 values2 Hall2) as D2.
  rewrite Hjoin in D1. rewrite D1 in D2. now injection D2.
Qed.

(** ** [decode_huffman] on bits that are not a stream of codes *)

Lemma tables_in_domain (m : dc_ac) (layer : layer_type) :
  table_in_domain m (HUFFMAN_CATEGORY_CODEWORD m layer) = true.
Proof. destruct m, layer; vm_compute; reflexivity. Qed.

Lemma table_key_in_domain (m : dc_ac) (layer : layer_type) (key : hkey)
  (cw : string) :
  In (key, cw) (HUFFMAN_CATEGORY_CODEWORD m layer) ->
  key_in_domain m key = true.
Proof.
  intros Hin. pose proof (tables_in_domain m layer) as H.
  unfold table_in_domain in H. rewrite forallb_forall in H.
  exact (H _ Hin).
Qed.

(** The decoding loop walks through the codes of a stream, whatever comes
    after them. *)
Lemma decode_huffman_loop_prefix (m : dc_ac) (layer : layer_type)
  (codes : list string) (vs : list hvalue) :
  Forall2 (decodes_as m layer) codes vs ->
  forall (pre rest : string) (fuel : nat),
    decode_huffman_loop (List.length vs + fuel) (pre ++ join codes ++ rest)
      m layer (str_len pre)
    = (tl <- decode_huffman_loop fuel (pre ++ join codes ++ rest) m layer
               (str_len (pre ++ join codes)) ;;
       Ok (vs ++ tl)).
Proof.
  induction 1 as [|code v codes vs Hcv Hall IH]; intros pre rest fuel.
  - cbn [join List.length Nat.add app]. rewrite str_append_nil_r.
    destruct (decode_huffman_loop fuel _ m layer (str_len pre)); reflexivity.
  - cbn [join List.length Nat.add].
    rewrite !str_append_assoc.
    rewrite (decode_huffman_loop_step m layer code v pre
               (join codes ++ rest) (List.length vs + fuel) Hcv).
    specialize (IH (pre ++ code)%string rest fuel).
    rewrite !str_append_assoc in IH. rewrite IH.
    destruct (decode_huffman_loop fuel _ m layer _); reflexivity.
Qed.

Lemma drop_last_substring (w : string) (k : nat) :
  (S k <= String.length w)%nat ->
  drop_last (substring 0 (S k) w) = substring 0 k w.
Proof.
  revert k. induction w as [|c w IH]; intros k Hk; [cbn in Hk; lia|].
  cbn [String.length] in Hk. destruct k as [|k].
  - cbn. destruct w; reflexivity.
  - specialize (IH k ltac:(lia)).
    change (substring 0 (S (S k)) (String c w))
      with (String c (substring 0 (S k) w)).
    change (substring 0 (S k) (String c w)) with (String c (substring 0 k w)).
    rewrite <- IH.
    destruct w as [|d w]; [cbn in Hk; lia|]. reflexivity.
Qed.

(** The inner loop finds nothing when no prefix of its window is a
    codeword. *)
Lemma search_codeword_none (t : list (hkey * string)) (w : string)
  (bound : nat) :
  (forall n : nat, (1 <= n <= bound)%nat ->
                   inv_lookup t (substring 0 n w) = None) ->
  forall (k fuel : nat),
    (k <= bound)%nat -> (k <= String.length w)%nat -> (k <= fuel)%nat ->
    search_codeword t fuel (substring 0 k w) = Raise KeyError.
Proof.
  intros Hnone. induction k as [|k IH]; intros fuel Hb Hk Hfuel.
  - replace (substring 0 0 w) with "" by (destruct w; reflexivity).
    destruct fuel; reflexivity.
  - destruct fuel as [|fuel]; [lia|].
    cbn [search_codeword].
    destruct (String.eqb_spec (substring 0 (S k) w) "") as [E|_].
    + reflexivity.
    + rewrite Hnone by lia. rewrite drop_last_substring by lia.
      apply IH; lia.
Qed.

Lemma decode_huffman_loop_no_prefix (m : dc_ac) (layer : layer_type)
  (pre rest : string) (fuel : nat) :
  rest <> "" ->
  (forall n : nat, (1 <= n <= 16)%nat ->
     inv_lookup (HUFFMAN_CATEGORY_CODEWORD m layer) (substring 0 n rest)
     = None) ->
  decode_huffman_loop (S fuel) (pre ++ rest) m layer (str_len pre)
  = Raise KeyError.
Proof.
  intros Hne Hnone. cbn [decode_huffman_loop].
  rewrite str_len_append.
  assert (Hlen : 0 < str_len rest).
  { unfold str_len. destruct rest; [contradiction|cbn; lia]. }
  destruct (Z.ltb_spec (str_len pre) (str_len pre + str_len rest)); [|lia].
  set (w := if str_len pre + str_len rest - str_len pre >? 16 then 16
            else str_len pre + str_len rest - str_len pre).
  assert (Hw : 0 <= w <= 16 /\ w <= str_len rest).
  { subst w. destruct (Z.gtb_spec (str_len pre + str_len rest - str_len pre) 16);
      lia. }
  assert (Hslice : slice (pre ++ rest) (str_len pre) (str_len pre + w)
                   = substring 0 (Z.to_nat w) rest).
  { unfold slice. unfold str_len at 1. rewrite Nat2Z.id.
    replace (Z.to_nat (str_len pre + w - str_len pre)) with (Z.to_nat w)
      by lia.
    apply substring_append_skip. }
  rewrite Hslice.
  rewrite (search_codeword_none _ rest 16 Hnone); [reflexivity| | |].
  - lia.
  - unfold str_len in *. lia.
  - rewrite substring_0_length. unfold str_len in *. lia.
Qed.

Lemma decode_huffman_after_codes (m : dc_ac) (layer : layer_type)
  (codes : list string) (vs : list hvalue) (rest : string) :
  Forall2 (decodes_as m layer) codes vs -> rest <> "" ->
  exists fuel,
    decode_huffman (join codes ++ rest) m layer
    = (tl <- decode_huffman_loop (S fuel) (join codes ++ rest) m layer
               (str_len (join codes)) ;;
       Ok (vs ++ tl)).
Proof.
  intros Hall Hne. unfold decode_huffman.
  pose proof (join_length_ge m layer codes vs Hall) as Hlen.
  assert (Hrest : (1 <= String.length rest)%nat)
    by (destruct rest; [contradiction|cbn; lia]).
  exists (String.length (join codes ++ rest) - List.length vs - 1)%nat.
  rewrite str_length_append in *.
  replace (String.length (join codes) + String.length rest)%nat
    with (List.length vs
          + S (String.length (join codes) + String.length rest
               - List.length vs - 1))%nat at 1 by lia.
  exact (decode_huffman_loop_prefix m layer codes vs Hall "" rest _).
Qed.

Lemma decode_huffman_loop_truncated (m : dc_ac) (layer : layer_type)
  (key : hkey) (cw pre tail : string) (fuel : nat) :
  In (key, cw) (HUFFMAN_CATEGORY_CODEWORD m layer) ->
  str_len tail < key_size key ->
  decode_huffman_loop (S fuel) (pre ++ cw ++ tail) m layer (str_len pre)
  = Raise IndexError.
Proof.
  intros Hin Htail.
  pose proof (tables_wf m layer) as Hwf.
  destruct (table_wf_entry _ Hwf key cw Hin) as [Hne H16].
  pose proof (table_key_in_domain m layer key cw Hin) as Hdom.
  pose proof (str_len_nonneg tail) as Ht0.
  assert (Hcw : 0 < str_len cw).
  { unfold str_len. destruct cw; [contradiction|cbn; lia]. }
  set (bit_seq := (pre ++ cw ++ tail)%string).
  assert (Hlen : str_len bit_seq = str_len pre + (str_len cw + str_len tail)).
  { unfold bit_seq. now rewrite !str_len_append. }
  cbn [decode_huffman_loop].
  destruct (Z.ltb_spec (str_len pre) (str_len bit_seq)); [|lia].
  set (w := if str_len bit_seq - str_len pre >? 16 then 16
            else str_len bit_seq - str_len pre).
  assert (Hw : str_len cw <= w).
  { subst w. unfold str_len in *.
    destruct (Z.gtb_spec (Z.of_nat (String.length bit_seq)
                          - Z.of_nat (String.length pre)) 16); lia. }
  assert (Hslice : exists u,
             slice bit_seq (str_len pre) (str_len pre + w) = (cw ++ u)%string).
  { unfold slice, str_len. rewrite Nat2Z.id. unfold bit_seq.
    rewrite substring_append_skip.
    rewrite substring_0_append by (unfold str_len in *; lia).
    eexists. reflexivity. }
  destruct Hslice as [u Hu]. rewrite Hu.
  rewrite (search_codeword_found _ Hwf key cw Hin)
    by (rewrite str_length_append; lia).
  cbn [bind].
  assert (Hdiff : forall size, str_len tail < size ->
             diff_value bit_seq (str_len pre + str_len cw) size
             = Raise IndexError).
  { intros size Hsize. unfold diff_value. rewrite Hlen.
    destruct (Z.geb_spec (str_len pre + str_len cw)
                (str_len pre + (str_len cw + str_len tail))); [reflexivity|].
    destruct (Z.gtb_spec (str_len pre + str_len cw + size)
                (str_len pre + (str_len cw + str_len tail))); [reflexivity|].
    lia. }
  unfold decode_key. destruct m, key as [size|run size];
    cbn [key_in_domain key_size] in Hdom, Htail; try discriminate.
  - apply andb_true_iff in Hdom as [H0 H11]. apply Z.leb_le in H0, H11.
    destruct (Z.eqb_spec size 0); [lia|].
    rewrite py_index_categories by lia. cbn [bind].
    rewrite Hdiff by assumption. reflexivity.
  - assert (1 <= size <= 10).
    { apply andb_true_iff in Hdom as [_ Hs].
      apply orb_true_iff in Hs as [Hs|Hs].
      - apply andb_true_iff in Hs as [H1 H2]. apply Z.leb_le in H1, H2. lia.
      - apply andb_true_iff in Hs as [Hs _]. apply Z.eqb_eq in Hs. lia. }
    unfold pair_eqb, EOB, ZRL. cbn [fst snd].
    destruct (Z.eqb_spec size 0); [lia|]. rewrite !andb_false_r. cbv [orb].
    rewrite py_index_categories by lia. cbn [bind].
    rewrite Hdiff by assumption. reflexivity.
Qed.

Lemma substring_0_prefix (s : string) (n : nat) :
  prefix_of (substring 0 n s) s.
Proof.
  revert n. induction s as [|c s IH]; intros n.
  - exists "". destruct n; reflexivity.
  - destruct n as [|n]; [now exists (String c s)|].
    destruct (IH n) as [r Hr]. exists r. cbn [substring append]. now f_equal.
Qed.

Lemma prefix_of_trans (a b c : string) :
  prefix_of a b -> prefix_of b c -> prefix_of a c.
Proof.
  intros [r ->] [r' ->]. exists (r ++ r')%string. apply str_append_assoc.
Qed.

(** X7.  No prefix: when, after a stream of codes, bits remain of which no
    prefix of 1 to 16 bits is a codeword of the table, [decode_huffman],
    consumed to its end, raises [KeyError]. *)
Theorem decode_huffman_no_prefix_raises :
  forall (layer : layer_type) (m : dc_ac) (values : list hvalue)
         (codes : list string) (rest : string),
    Forall (fun v => valid_value v /\ mode_of v = m) values ->
    mapM (fun v => encode_huffman v layer) values = Ok codes ->
    rest <> "" ->
    (forall n : nat, (1 <= n <= 16)%nat ->
       inv_lookup (HUFFMAN_CATEGORY_CODEWORD m layer) (substring 0 n rest)
       = None) ->
    decode_huffman (join codes ++ rest) m layer = Raise KeyError.
Proof.
  intros layer m values codes rest Hvalid Hcodes Hne Hnone.
  destruct (encode_huffman_stream layer m values Hvalid) as (c & Hc & Hall).
  rewrite Hcodes in Hc. injection Hc as <-.
  destruct (decode_huffman_after_codes m layer codes values rest Hall Hne)
    as [fuel ->].
  now rewrite decode_huffman_loop_no_prefix.
Qed.

(** X8.  A stream cut inside a codeword: when the bits after a stream of
    codes are a non-empty proper prefix of a codeword, [decode_huffman],
    consumed to its end, raises [KeyError]. *)
Theorem decode_huffman_cut_codeword_raises :
  forall (layer : layer_type) (m : dc_ac) (values : list hvalue)
         (codes : list string) (key : hkey) (cw part : string),
    Forall (fun v => valid_value v /\ mode_of v = m) values ->
    mapM (fun v => encode_huffman v layer) values = Ok codes ->
    lookup (HUFFMAN_CATEGORY_CODEWORD m layer) key = Ok cw ->
    prefix_of part cw -> part <> "" -> part <> cw ->
    decode_huffman (join codes ++ part) m layer = Raise KeyError.
Proof.
  intros layer m values codes key cw part Hvalid Hcodes Hcw Hpre Hne Hneq.
  destruct (encode_huffman_stream layer m values Hvalid) as (c & Hc & Hall).
  rewrite Hcodes in Hc. injection Hc as <-.
  destruct (decode_huffman_after_codes m layer codes values part Hall Hne)
    as [fuel ->].
  rewrite decode_huffman_loop_no_prefix; [reflexivity|assumption|].
  intros n Hn.
  destruct (inv_lookup (HUFFMAN_CATEGORY_CODEWORD m layer)
              (substring 0 n part)) as [k|] eqn:E; [|reflexivity].
  exfalso. apply inv_lookup_In in E. apply lookup_In in Hcw.
  pose proof (table_prefix_free _ (tables_wf m layer) _ _ _ _ E Hcw
                (prefix_of_trans _ _ _ (substring_0_prefix part n) Hpre))
    as Heq.
  destruct (substring_0_prefix part n) as [r Hr].
  destruct Hpre as [r' Hr'].
  rewrite Heq in Hr. rewrite Hr in Hr'. rewrite str_append_assoc in Hr'.
  symmetry in Hr'. apply str_append_inv_r in Hr'.
  assert (r = "") by (destruct r; [reflexivity|discriminate]).
  subst r. rewrite str_append_nil_r in Hr. congruence.
Qed.

(** X9.  A stream cut inside the amplitude bits: when the bits after a
    stream of codes are a codeword followed by fewer bits than its category
    announces, [decode_huffman], consumed to its end, raises
    [IndexError]. *)
Theorem decode_huffman_cut_amplitude_raises :
  forall (layer : layer_type) (m : dc_ac) (values : list hvalue)
         (codes : list string) (key : hkey) (cw tail : string),
    Forall (fun v => valid_value v /\ mode_of v = m) values ->
    mapM (fun v => encode_huffman v layer) values = Ok codes ->
    lookup (HUFFMAN_CATEGORY_CODEWORD m layer) key = Ok cw ->
    str_len tail < key_size key ->
    decode_huffman (join codes ++ cw ++ tail) m layer = Raise IndexError.
Proof.
  intros layer m values codes key cw tail Hvalid Hcodes Hcw Htail.
  destruct (encode_huffman_stream layer m values Hvalid) as (c & Hc & Hall).
  rewrite Hcodes in Hc. injection Hc as <-.
  apply lookup_In in Hcw.
  destruct (table_wf_entry _ (tables_wf m layer) key cw Hcw) as [Hne _].
  destruct (decode_huffman_after_codes m layer codes values (cw ++ tail)
              Hall) as [fuel ->].
  { destruct cw; [contradiction|discriminate]. }
  now rewrite (decode_huffman_loop_truncated m layer key cw).
Qed.

(** ** [decode_huffman] on arbitrary bits *)

Lemma binary_append (a b : string) :
  binary (a ++ b) = binary a && binary b.
Proof.
  induction a as [|c a IH]; [reflexivity|].
  cbn [append binary]. rewrite IH. now rewrite andb_assoc.
Qed.

Lemma binary_zeros (n : nat) : binary (zeros n) = true.
Proof. induction n as [|n IH]; [reflexivity|exact IH]. Qed.

Lemma binary_bin_pos (p : positive) (acc : string) :
  binary acc = true -> binary (bin_pos p acc) = true.
Proof.
  revert acc. induction p as [p IH|p IH|]; intros acc Hacc; cbn [bin_pos].
  - apply IH. exact Hacc.
  - apply IH. exact Hacc.
  - exact Hacc.
Qed.

Lemma binary_format_0b (idx size : Z) :
  0 <= idx -> binary (format_0b idx size) = true.
Proof.
  intros Hidx. destruct idx as [|p|p]; [| |lia]; unfold format_0b.
  - rewrite binary_append, binary_zeros. reflexivity.
  - rewrite binary_append, binary_zeros. now apply binary_bin_pos.
Qed.

(** Every string is its first [n] characters followed by the others. *)
Lemma string_split (r : string) (n : nat) :
  (n <= String.length r)%nat ->
  exists b, r = (substring 0 n r ++ b)%string.
Proof.
  revert n. induction r as [|c r IH]; intros n Hn.
  - exists "". cbn in Hn. now replace n with O by lia.
  - destruct n as [|n]; [now exists (String c r)|].
    cbn [String.length] in Hn. destruct (IH n ltac:(lia)) as [b Hb].
    exists b. cbn [substring append]. now f_equal.
Qed.

(** The bits of a binary string read as a number below [2 ^ length]. *)
Lemma int2_acc_binary (s : string) (a : Z) :
  binary s = true ->
  exists n, int2_acc s a = Ok n /\
            a * 2 ^ str_len s <= n < (a + 1) * 2 ^ str_len s.
Proof.
  revert a. induction s as [|c s IH]; intros a Hb.
  - exists a. split; [reflexivity|]. change (str_len "") with 0. lia.
  - cbn [binary] in Hb. apply andb_true_iff in Hb as [Hc Hs].
    assert (Hlen : 2 ^ str_len (String c s) = 2 * 2 ^ str_len s).
    { unfold str_len. cbn [String.length].
      rewrite Nat2Z.inj_succ, Z.pow_succ_r by lia. reflexivity. }
    assert (Hp : 0 < 2 ^ str_len s) by (apply pow2_pos, str_len_nonneg).
    cbn [int2_acc]. destruct (Ascii.eqb c "0").
    + destruct (IH (2 * a) Hs) as (n & Hn & Hbound).
      exists n. split; [exact Hn|]. rewrite Hlen. nia.
    + cbn [orb] in Hc. rewrite Hc.
      destruct (IH (2 * a + 1) Hs) as (n & Hn & Hbound).
      exists n. split; [exact Hn|]. rewrite Hlen. nia.
Qed.

Lemma int2_acc_binary_inj (s s' : string) (a n : Z) :
  String.length s = String.length s' ->
  binary s = true -> binary s' = true ->
  int2_acc s a = Ok n -> int2_acc s' a = Ok n -> s = s'.
Proof.
  revert s' a. induction s as [|c s IH]; intros [|c' s'] a Hlen Hb Hb' H H';
    try discriminate; [reflexivity|].
  cbn [String.length] in Hlen. injection Hlen as Hlen.
  cbn [binary] in Hb, Hb'.
  apply andb_true_iff in Hb as [Hc Hs]. apply andb_true_iff in Hb' as [Hc' Hs'].
  assert (Hp : 0 < 2 ^ str_len s) by (apply pow2_pos, str_len_nonneg).
  assert (Hl : str_len s' = str_len s) by (unfold str_len; lia).
  cbn [int2_acc] in H, H'.
  assert (Hbit : forall x : ascii, Ascii.eqb x "0" || Ascii.eqb x "1" = true ->
             x = "0"%char \/ x = "1"%char).
  { intros x Hx. apply orb_true_iff in Hx as [Hx|Hx];
      apply Ascii.eqb_eq in Hx; auto. }
  destruct (Hbit c Hc) as [->| ->], (Hbit c' Hc') as [->| ->];
    change (Ascii.eqb "0" "0") with true in H, H';
    change (Ascii.eqb "1" "0") with false in H, H';
    change (Ascii.eqb "1" "1") with true in H, H'; cbv iota in H, H'.
  - f_equal. exact (IH s' _ Hlen Hs Hs' H H').
  - exfalso.
    destruct (int2_acc_binary s (2 * a) Hs) as (x & Hx & Bx).
    destruct (int2_acc_binary s' (2 * a + 1) Hs') as (y & Hy & By).
    rewrite Hl in By. rewrite Hx in H. rewrite Hy in H'.
    injection H as ->. injection H' as ->. nia.
  - exfalso.
    destruct (int2_acc_binary s (2 * a + 1) Hs) as (x & Hx & Bx).
    destruct (int2_acc_binary s' (2 * a) Hs') as (y & Hy & By).
    rewrite Hl in By. rewrite Hx in H. rewrite Hy in H'.
    injection H as ->. injection H' as ->. nia.
  - f_equal. exact (IH s' _ Hlen Hs Hs' H H').
Qed.

(** Amplitude bits are the only string of their width that reads as their
    index: writing the index back gives the bits. *)
Lemma format_0b_int2 (amp : string) (i : Z) :
  binary amp = true -> amp <> "" -> int2 amp = Ok i ->
  0 <= i < 2 ^ str_len amp /\ format_0b i (str_len amp) = amp.
Proof.
  intros Hb Hne Hi. rewrite int2_nonempty in Hi by exact Hne.
  destruct (int2_acc_binary amp 0 Hb) as (n & Hn & Hbound).
  rewrite Hn in Hi. injection Hi as ->.
  assert (Hsize : 1 <= str_len amp).
  { unfold str_len. destruct amp; [contradiction|cbn [String.length]; lia]. }
  split; [lia|].
  destruct (format_0b_roundtrip i (str_len amp) Hsize ltac:(lia)) as [Hlen Hint].
  apply (int2_acc_binary_inj _ _ 0 i).
  - apply Nat2Z.inj. exact Hlen.
  - apply binary_format_0b. lia.
  - exact Hb.
  - rewrite <- int2_nonempty; [exact Hint|].
    intros E. rewrite E in Hlen. cbn in Hlen. lia.
  - exact Hn.
Qed.

(** Row [s] of the category table has [2 ^ s] values, each at the index the
    encoder computes for it. *)
Lemma canonical_order_nth (s i : Z) :
  1 <= s -> 0 <= i < 2 ^ s ->
  exists v, py_index (canonical_order s) i = Ok v /\
            2 ^ (s - 1) <= Z.abs v < 2 ^ s /\ category_index s v = i.
Proof.
  intros Hs Hi.
  pose proof (pow2_pos (s - 1) ltac:(lia)) as Hp.
  pose proof (pow2_step s Hs) as Hstep.
  assert (Hlen : List.length (canonical_order s) = Z.to_nat (2 ^ s)).
  { unfold canonical_order. rewrite length_app, !range_length. lia. }
  destruct (nth_error (canonical_order s) (Z.to_nat i)) as [v|] eqn:E.
  - exists v. split; [apply py_index_nonneg; [lia|exact E]|].
    apply nth_error_canonical in E as [Hv Hj]; [|exact Hs].
    split; [exact Hv|].
    pose proof (category_index_bounds s v Hs Hv). lia.
  - apply nth_error_None in E. lia.
Qed.

Lemma lookup_of_In (m : dc_ac) (layer : layer_type) (key : hkey)
  (cw cw' : string) :
  In (key, cw) (HUFFMAN_CATEGORY_CODEWORD m layer) ->
  lookup (HUFFMAN_CATEGORY_CODEWORD m layer) key = Ok cw' -> cw' = cw.
Proof.
  intros Hin Hl. apply lookup_In in Hl.
  destruct (table_wf_pair _ (tables_wf m layer) _ _ _ _ Hl Hin) as [_ H].
  now apply H.
Qed.

Lemma log2_of_bounds (s v : Z) :
  1 <= s -> 2 ^ (s - 1) <= Z.abs v < 2 ^ s -> Z.log2 (Z.abs v) + 1 = s.
Proof.
  intros Hs Hv. rewrite (Z.log2_unique (Z.abs v) (s - 1)); [lia|lia|].
  replace (Z.succ (s - 1)) with s by lia. exact Hv.
Qed.

(** One key found in the table, at the bits that follow its codeword: the
    amplitude bits are missing, or the value read is one the encoder accepts
    and writes as these very bits. *)
Lemma decode_key_binary (m : dc_ac) (layer : layer_type) (key : hkey)
  (cw pre tail : string) :
  In (key, cw) (HUFFMAN_CATEGORY_CODEWORD m layer) ->
  binary tail = true ->
  match decode_key (pre ++ cw ++ tail) m key (str_len pre + str_len cw) with
  | Ok (item, size) =>
      valid_value item /\ mode_of item = m /\
      exists amp rest, tail = (amp ++ rest)%string /\ str_len amp = size /\
                       encode_huffman item layer = Ok (cw ++ amp)%string
  | Raise e => e = IndexError /\ str_len tail < key_size key
  end.
Proof.
  intros Hin Hbin.
  pose proof (table_key_in_domain m layer key cw Hin) as Hdom.
  pose proof (str_len_nonneg tail) as Ht0.
  assert (Hamp : forall size, 1 <= size <= 15 ->
    match (row <- py_index HUFFMAN_CATEGORIES size ;;
           i <- diff_value (pre ++ cw ++ tail) (str_len pre + str_len cw) size ;;
           py_index row i) with
    | Ok v => 2 ^ (size - 1) <= Z.abs v < 2 ^ size /\
              exists amp rest, tail = (amp ++ rest)%string /\
                               str_len amp = size /\
                               format_0b (category_index size v) size = amp
    | Raise e => e = IndexError /\ str_len tail < size
    end).
  { intros size Hsize. rewrite py_index_categories by exact Hsize. cbn [bind].
    destruct (Z.ltb_spec (str_len tail) size) as [Hlt|Hge].
    - replace (diff_value _ _ _) with (@Raise Z IndexError); [now split|].
      unfold diff_value. rewrite !str_len_append.
      destruct (Z.geb_spec (str_len pre + str_len cw)
                  (str_len pre + (str_len cw + str_len tail))); [reflexivity|].
      destruct (Z.gtb_spec (str_len pre + str_len cw + size)
                  (str_len pre + (str_len cw + str_len tail)));
        [reflexivity|lia].
    - destruct (string_split tail (Z.to_nat size)) as [rest Hrest].
      { unfold str_len in Hge. lia. }
      set (amp := substring 0 (Z.to_nat size) tail) in *.
      assert (Hlen : str_len amp = size).
      { unfold str_len, amp. rewrite substring_0_length.
        unfold str_len in Hge. lia. }
      assert (Hbamp : binary amp = true).
      { rewrite Hrest, binary_append in Hbin.
        now apply andb_true_iff in Hbin as [? _]. }
      assert (Hne : amp <> "").
      { intros E. rewrite E in Hlen. change (str_len "") with 0 in Hlen. lia. }
      rewrite Hrest. rewrite <- str_len_append, <- (str_append_assoc pre cw).
      rewrite (diff_value_at (pre ++ cw) amp rest size Hlen) by lia.
      destruct (int2 amp) as [i|e] eqn:Ei.
      2:{ exfalso. rewrite int2_nonempty in Ei by exact Hne.
          destruct (int2_acc_binary amp 0 Hbamp) as (n & Hn & _). congruence. }
      destruct (format_0b_int2 amp i Hbamp Hne Ei) as [Hi Hfmt].
      rewrite Hlen in Hi, Hfmt. cbn [bind].
      destruct (canonical_order_nth size i ltac:(lia) Hi) as (v & -> & Hv & Hci).
      split; [exact Hv|]. exists amp, rest. rewrite Hci. auto. }
  unfold decode_key. destruct m, key as [size|run size];
    cbn [key_in_domain key_size] in Hdom |- *; try discriminate.
  - apply andb_true_iff in Hdom as [H0 H11]. apply Z.leb_le in H0, H11.
    destruct (Z.eqb_spec size 0) as [->|Hnz].
    + split; [cbn; lia|]. split; [reflexivity|].
      exists "", tail. split; [reflexivity|]. split; [reflexivity|].
      destruct (encode_huffman_dc_zero layer) as (cw' & Hl & ->).
      rewrite (lookup_of_In DC layer _ cw cw' Hin Hl).
      now rewrite str_append_nil_r.
    + specialize (Hamp size ltac:(lia)).
      destruct (py_index HUFFMAN_CATEGORIES size) as [row|e]; cbn [bind] in *;
        [|destruct Hamp as [-> ?]; now split].
      destruct (diff_value _ _ _) as [i|e]; cbn [bind] in *;
        [|destruct Hamp as [-> ?]; now split].
      destruct (py_index row i) as [v|e]; cbn [bind] in *;
        [|destruct Hamp as [-> ?]; now split].
      destruct Hamp as (Hv & amp & rest & Ht & Hlen & Hfmt).
      assert (Hpow : 2 ^ size <= 2 ^ 11) by (apply Z.pow_le_mono_r; lia).
      change (2 ^ 11) with 2048 in Hpow.
      assert (Hv0 : v <> 0).
      { pose proof (pow2_pos (size - 1) ltac:(lia)). lia. }
      split; [cbn; lia|]. split; [reflexivity|].
      exists amp, rest. split; [exact Ht|]. split; [exact Hlen|].
      destruct (encode_huffman_dc_nonzero v layer Hv0 ltac:(lia))
        as (cw' & Hl & ->).
      rewrite (log2_of_bounds size v ltac:(lia) Hv) in *.
      rewrite (lookup_of_In DC layer _ cw cw' Hin Hl). now rewrite Hfmt.
  - apply andb_true_iff in Hdom as [Hrun Hs].
    apply andb_true_iff in Hrun as [Hr0 Hr15]. apply Z.leb_le in Hr0, Hr15.
    destruct (pair_eqb (run, size) EOB || pair_eqb (run, size) ZRL) eqn:Esp.
    + assert (Hsp : (run, size) = EOB \/ (run, size) = ZRL).
      { apply orb_true_iff in Esp as [E|E]; apply pair_eqb_eq in E; auto. }
      split; [cbn; tauto|]. split; [reflexivity|].
      assert (size = 0) as ->.
      { destruct Hsp as [[= _ ->]|[= _ ->]]; reflexivity. }
      exists "", tail. split; [reflexivity|]. split; [reflexivity|].
      destruct (encode_huffman_eob_zrl run 0 layer Hsp) as (cw' & Hl & ->).
      rewrite (lookup_of_In AC layer _ cw cw' Hin Hl).
      now rewrite str_append_nil_r.
    + assert (Hsize : 1 <= size <= 10).
      { apply orb_true_iff in Hs as [Hs|Hs].
        - apply andb_true_iff in Hs as [H1 H2]. apply Z.leb_le in H1, H2. lia.
        - exfalso. apply andb_true_iff in Hs as [Hs Hrun].
          apply Z.eqb_eq in Hs. subst size.
          apply orb_false_iff in Esp as [E1 E2].
          apply orb_true_iff in Hrun as [Hrun|Hrun];
            apply Z.eqb_eq in Hrun; subst run; discriminate. }
      specialize (Hamp size ltac:(lia)).
      destruct (py_index HUFFMAN_CATEGORIES size) as [row|e]; cbn [bind] in *;
        [|destruct Hamp as [-> ?]; now split].
      destruct (diff_value _ _ _) as [i|e]; cbn [bind] in *;
        [|destruct Hamp as [-> ?]; now split].
      destruct (py_index row i) as [v|e]; cbn [bind] in *;
        [|destruct Hamp as [-> ?]; now split].
      destruct Hamp as (Hv & amp & rest & Ht & Hlen & Hfmt).
      assert (Hpow : 2 ^ size <= 2 ^ 10) by (apply Z.pow_le_mono_r; lia).
      change (2 ^ 10) with 1024 in Hpow.
      assert (Hv0 : 1 <= Z.abs v).
      { pose proof (pow2_pos (size - 1) ltac:(lia)). lia. }
      split; [cbn; right; right; lia|]. split; [reflexivity|].
      exists amp, rest. split; [exact Ht|]. split; [exact Hlen|].
      destruct (encode_huffman_ac_nonzero run v layer ltac:(lia) ltac:(lia)
                  ltac:(lia)) as (cw' & Hl & ->).
      rewrite (log2_of_bounds size v ltac:(lia) Hv) in *.
      rewrite (lookup_of_In AC layer _ cw cw' Hin Hl). now rewrite Hfmt.
Qed.

Lemma drop_last_prefix (w : string) : prefix_of (drop_last w) w.
Proof.
  induction w as [|c w IH]; [now exists ""|].
  destruct w as [|d w]; [now exists (String c "")|].
  destruct IH as [r Hr]. exists r.
  change (drop_last (String c (String d w)))
    with (String c (drop_last (String d w))).
  cbn [append]. now f_equal.
Qed.

Lemma search_codeword_prefix (t : list (hkey * string)) (fuel : nat)
  (w : string) (key : hkey) (cs : string) :
  search_codeword t fuel w = Ok (key, cs) -> prefix_of cs w.
Proof.
  revert w. induction fuel as [|fuel IH]; intros w; cbn [search_codeword];
    destruct (String.eqb w ""); try discriminate;
    destruct (inv_lookup t w); try discriminate.
  - intros [= _ <-]. exists "". now rewrite str_append_nil_r.
  - intros [= _ <-]. exists "". now rewrite str_append_nil_r.
  - intros H. apply IH in H.
    exact (prefix_of_trans _ _ _ H (drop_last_prefix w)).
Qed.

(** The decoding loop on binary bits [rest] that follow [pre]: it raises
    [KeyError] or [IndexError], or yields values the encoder accepts and
    writes as [rest]. *)
Lemma decode_huffman_loop_binary (m : dc_ac) (layer : layer_type) (fuel : nat) :
  forall pre rest : string,
    binary rest = true ->
    match decode_huffman_loop fuel (pre ++ rest) m layer (str_len pre) with
    | Ok vs =>
        Forall (fun v => valid_value v /\ mode_of v = m) vs /\
        exists codes,
          mapM (fun v => encode_huffman v layer) vs = Ok codes /\
          join codes = rest
    | Raise e => e = KeyError \/ e = IndexError \/ e = OutOfFuel
    end.
Proof.
  induction fuel as [|fuel IH]; intros pre rest Hbin.
  - cbn [decode_huffman_loop]. rewrite str_len_append.
    destruct (Z.ltb_spec (str_len pre) (str_len pre + str_len rest)); [auto|].
    split; [constructor|]. exists []. split; [reflexivity|].
    symmetry. apply str_length_zero. unfold str_len in *. lia.
  - cbn [decode_huffman_loop]. rewrite str_len_append.
    destruct (Z.ltb_spec (str_len pre) (str_len pre + str_len rest)).
    2:{ split; [constructor|]. exists []. split; [reflexivity|].
        symmetry. apply str_length_zero. unfold str_len in *. lia. }
    set (w := if str_len pre + str_len rest - str_len pre >? 16 then 16
              else str_len pre + str_len rest - str_len pre).
    assert (Hslice : slice (pre ++ rest) (str_len pre) (str_len pre + w)
                     = substring 0 (Z.to_nat w) rest).
    { unfold slice, str_len. rewrite Nat2Z.id, substring_append_skip.
      f_equal. lia. }
    rewrite Hslice.
    set (window := substring 0 (Z.to_nat w) rest).
    pose proof (search_codeword_result (HUFFMAN_CATEGORY_CODEWORD m layer)
                  (String.length window) window (le_n _)) as Hres.
    destruct (search_codeword _ _ window) as [[key cs]|e] eqn:Es;
      cbn [bind]; [|auto].
    destruct Hres as [Hin _].
    apply search_codeword_prefix in Es.
    destruct (prefix_of_trans _ _ _ Es
                (substring_0_prefix rest (Z.to_nat w))) as [tail ->].
    rewrite binary_append in Hbin. apply andb_true_iff in Hbin as [_ Htail].
    pose proof (decode_key_binary m layer key cs pre tail Hin Htail) as Hkey.
    destruct (decode_key _ m key _) as [[item size]|e]; cbn [bind];
      [|destruct Hkey as [-> _]; auto].
    destruct Hkey as (Hvalid & Hmode & amp & rest' & -> & Hlen & Henc).
    rewrite binary_append in Htail. apply andb_true_iff in Htail as [_ Hrest'].
    specialize (IH (pre ++ cs ++ amp)%string rest' Hrest').
    rewrite !str_len_append in IH. rewrite <- Hlen.
    replace (pre ++ cs ++ amp ++ rest')%string
      with ((pre ++ cs ++ amp) ++ rest')%string
      by now rewrite !str_append_assoc.
    destruct (decode_huffman_loop fuel _ m layer _) as [vs|e]; cbn [bind];
      [|exact IH].
    destruct IH as (Hall & codes & Hcodes & Hjoin).
    split; [constructor; [now split|exact Hall]|].
    exists ((cs ++ amp)%string :: codes). cbn [mapM].
    rewrite Henc, Hcodes. cbn [bind join]. split; [reflexivity|].
    now rewrite Hjoin, str_append_assoc.
Qed.

(** X10.  What [decode_huffman], consumed to its end, does on a string of
    0s and 1s, whatever it holds: it raises [KeyError] or [IndexError], or it
    yields values of the domain of the encoder only (a DC difference within
    2047 in absolute value; EOB, ZRL or a run of 0 to 15 with a nonzero
    value within 1023). *)
Theorem decode_huffman_outcomes :
  forall (layer : layer_type) (m : dc_ac) (bits : string),
    binary bits = true ->
    match decode_huffman bits m layer with
    | Ok values => Forall (fun v => valid_value v /\ mode_of v = m) values
    | Raise e => e = KeyError \/ e = IndexError
    end.
Proof.
  intros layer m bits Hbin.
  pose proof (decode_huffman_total bits m layer) as Htotal.
  pose proof (decode_huffman_loop_binary m layer (String.length bits) ""
                bits Hbin) as Hloop.
  unfold decode_huffman in *. change (str_len "") with 0 in Hloop.
  change ("" ++ bits)%string with bits in Hloop.
  destruct (decode_huffman_loop _ bits m layer 0) as [vs|e].
  - exact (proj1 Hloop).
  - destruct Hloop as [H|[H|H]]; [auto|auto|]. subst e. contradiction.
Qed.

(** X11.  Decoding is inverse to encoding on its side too: when
    [decode_huffman] yields values from a string of 0s and 1s,
    [encode_huffman] accepts each of them and the concatenation of their
    bits is the string that was decoded. *)
Theorem decode_huffman_reencodes :
  forall (layer : layer_type) (m : dc_ac) (bits : string)
         (values : list hvalue),
    binary bits = true ->
    decode_huffman bits m layer = Ok values ->
    exists codes,
      mapM (fun v => encode_huffman v layer) values = Ok codes /\
      join codes = bits.
Proof.
  intros layer m bits values Hbin Hdec.
  pose proof (decode_huffman_loop_binary m layer (String.length bits) ""
                bits Hbin) as Hloop.
  unfold decode_huffman in Hdec. change (str_len "") with 0 in Hloop.
  change ("" ++ bits)%string with bits in Hloop.
  rewrite Hdec in Hloop. exact (proj2 Hloop).
Qed.

(** ** Run-length coding, continued *)

Lemma groupby_snoc_zero (seq : list Z) :
  groupby (seq ++ [0]) = snoc_zero (groupby seq).
Proof.
  induction seq as [|x seq IH]; [reflexivity|].
  cbn [app groupby]. rewrite IH.
  destruct (groupby seq) as [|[n key] [|g groups]]; cbn [snoc_zero];
    repeat (match goal with
            | |- context [?a =? ?b] => destruct (Z.eqb_spec a b); subst
            end; cbn [snoc_zero]);
    first [reflexivity | contradiction | lia].
Qed.

Lemma drop_zero_tail_snoc_zero (groups : list (Z * Z)) :
  drop_zero_tail (snoc_zero groups) = drop_zero_tail groups.
Proof.
  induction groups as [|[n key] groups IH]; [reflexivity|].
  destruct groups as [|g groups].
  - cbn [snoc_zero]. destruct (Z.eqb_spec key 0) as [->|Hkey].
    + reflexivity.
    + cbn. destruct (Z.eqb_spec key 0); [contradiction|reflexivity].
  - change (snoc_zero ((n, key) :: g :: groups))
      with ((n, key) :: snoc_zero (g :: groups)).
    assert (Hne : snoc_zero (g :: groups) <> []).
    { destruct g as [n' key'], groups; cbn [snoc_zero];
        [destruct (key' =? 0)|]; discriminate. }
    destruct (snoc_zero (g :: groups)) as [|g' groups'] eqn:E;
      [contradiction|].
    change (drop_zero_tail ((n, key) :: g' :: groups'))
      with ((n, key) :: drop_zero_tail (g' :: groups')).
    change (drop_zero_tail ((n, key) :: g :: groups))
      with ((n, key) :: drop_zero_tail (g :: groups)).
    now rewrite IH.
Qed.

(** What [encode_run_length] returns depends on the groups without a last
    group of zeros only. *)
Lemma encode_run_length_groups (seq : list Z) :
  seq <> [] ->
  encode_run_length seq
  = (ret <- run_length_loop (drop_zero_tail (groupby seq))
              (enumerate (drop_zero_tail (groupby seq))) false [] ;;
     Ok (ret ++ [EOB])).
Proof.
  intros Hne. unfold encode_run_length. cbv zeta.
  pose proof (groupby_nonempty seq Hne) as Hg.
  remember (groupby seq) as groups eqn:Egroups. clear Egroups.
  destruct (exists_last Hg) as (front & lastg & Hsplit).
  assert (Hpi : py_index groups (-1) = Ok lastg)
    by (rewrite Hsplit; apply py_index_last).
  rewrite Hpi. cbn [bind].
  assert (Hlast : lastg = last groups (0, 0)).
  { rewrite Hsplit. now rewrite last_last. }
  rewrite Hlast.
  destruct (drop_zero_tail_eq groups (0, 0)) as [Ed|]; [|contradiction].
  now rewrite Ed.
Qed.

Lemma encode_run_length_app_zeros (seq : list Z) (n : nat) :
  seq <> [] ->
  encode_run_length (seq ++ repeat 0 n) = encode_run_length seq.
Proof.
  intros Hne. induction n as [|n IH].
  - now rewrite app_nil_r.
  - rewrite <- IH.
    replace (repeat 0 (S n)) with (repeat 0 n ++ [0])
      by (rewrite <- repeat_cons; reflexivity).
    rewrite app_assoc.
    assert (Hne' : seq ++ repeat 0 n <> [])
      by (destruct seq; [contradiction|discriminate]).
    rewrite (encode_run_length_groups (seq ++ repeat 0 n) Hne').
    rewrite encode_run_length_groups
      by (destruct (seq ++ repeat 0 n); discriminate).
    now rewrite groupby_snoc_zero, drop_zero_tail_snoc_zero.
Qed.

(** X12.  [encode_run_length] on sequences of any length: it raises
    [IndexError] on the empty sequence, and on every other sequence it
    returns symbols ending with [EOB], the symbols before it being [ZRL] or
    a run of 0 to 15 with a nonzero value of the sequence, which
    [decode_run_length] turns back into the sequence without its trailing
    zeros. *)
Theorem run_length_any_length :
  forall seq : list Z,
    match encode_run_length seq with
    | Ok symbols =>
        seq <> [] /\
        decode_run_length symbols = strip_trailing_zeros seq /\
        exists front,
          symbols = front ++ [EOB] /\ Forall (symbol_ok seq) front
    | Raise e => e = IndexError /\ seq = []
    end.
Proof.
  intros seq. destruct seq as [|x seq]; [now split|].
  destruct (encode_run_length_spec (x :: seq) ltac:(discriminate))
    as (out & -> & Hdec & Hall).
  split; [discriminate|]. split.
  - now rewrite decode_run_length_eob.
  - now exists out.
Qed.

(** X13.  Trailing zeros are not coded: appending zeros to a sequence that
    is not empty does not change the symbols [encode_run_length] returns. *)
Theorem encode_run_length_ignores_trailing_zeros :
  forall (seq : list Z) (n : nat),
    seq <> [] ->
    encode_run_length (seq ++ repeat 0 n) = encode_run_length seq.
Proof. exact encode_run_length_app_zeros. Qed.

(** X14.  A sequence of zeros only, of whatever length, is coded by the
    single symbol [EOB]. *)
Theorem encode_run_length_all_zeros :
  forall n : nat, encode_run_length (repeat 0 (S n)) = Ok [EOB].
Proof.
  intros n. change (repeat 0 (S n)) with ([0] ++ repeat 0 n).
  now rewrite encode_run_length_app_zeros.
Qed.

(** ** Zig-zag traversal, continued *)

(** No two of the first [size * size] steps are at the same cell. *)
Lemma zig_zag_cursor_injective (size : Z) (j k : nat) :
  1 <= size -> Z.of_nat j < size * size -> Z.of_nat k < size * size ->
  zig_zag_cursor size j = zig_zag_cursor size k -> j = k.
Proof.
  intros Hs Hj Hk E.
  destruct (zig_zag_cursor_rank size j Hs Hj) as [_ Rj].
  destruct (zig_zag_cursor_rank size k Hs Hk) as [_ Rk].
  rewrite E in Rj. lia.
Qed.

(** The cell after the last one is below the array. *)
Lemma zig_zag_cursor_after_last (size : Z) :
  1 <= size ->
  zig_zag_cursor size (Z.to_nat (size * size)) = (size - 1, size).
Proof.
  intros Hs.
  assert (Hlast : zig_zag_cursor size (Z.to_nat (size * size) - 1)
                  = (size - 1, size - 1)).
  { assert (Hin : In (size - 1, size - 1)
                     (zig_zag_path size 0 (Z.to_nat (size * size)))).
    { assert (Hn : size = Z.of_nat (Z.to_nat size)) by lia.
      pose proof (zig_zag_path_complete (Z.to_nat size) (size - 1, size - 1))
        as Hc.
      rewrite <- Hn in Hc.
      replace (Z.to_nat (size * size))
        with (Z.to_nat size * Z.to_nat size)%nat by lia.
      apply Hc. unfold in_square. cbn [fst snd]. lia. }
    unfold zig_zag_path in Hin. apply in_map_iff in Hin as (k & Ek & Hk).
    apply in_seq in Hk.
    destruct (zig_zag_cursor_rank size k Hs ltac:(lia)) as [_ Rk].
    rewrite Ek in Rk. cbn [fst snd] in Rk.
    rewrite zig_zag_rank2_last in Rk by exact Hs.
    replace (Z.to_nat (size * size) - 1)%nat with k by nia. exact Ek. }
  replace (Z.to_nat (size * size)) with (S (Z.to_nat (size * size) - 1)) by nia.
  cbn [zig_zag_cursor]. rewrite Hlast.
  unfold zig_zag_step, move_zig_zag_idx.
  replace (size - 1 + (size - 1)) with (0 + (size - 1) * 2) by lia.
  rewrite Z.mod_add by lia. change (0 mod 2 =? 1) with false. cbv iota.
  destruct (Z.ltb_spec (size - 1) (size - 1)); [lia|].
  f_equal. lia.
Qed.

Lemma inverse_iter_zig_zag_loop_app (size : Z) (front back : list Z) :
  forall (k : nat) (ret : matrix),
    inverse_iter_zig_zag_loop (front ++ back) size ret
      (fst (zig_zag_cursor size k)) (snd (zig_zag_cursor size k))
    = (ret' <- inverse_iter_zig_zag_loop front size ret
                 (fst (zig_zag_cursor size k)) (snd (zig_zag_cursor size k)) ;;
       inverse_iter_zig_zag_loop back size ret'
         (fst (zig_zag_cursor size (k + List.length front)))
         (snd (zig_zag_cursor size (k + List.length front)))).
Proof.
  induction front as [|v front IH]; intros k ret.
  - cbn [app inverse_iter_zig_zag_loop bind List.length].
    now rewrite Nat.add_0_r.
  - cbn [app inverse_iter_zig_zag_loop List.length].
    destruct (set2 ret _ _ v) as [ret1|e]; cbn [bind]; [|reflexivity].
    specialize (IH (S k) ret1). cbn [zig_zag_cursor] in IH.
    replace (k + S (List.length front))%nat
      with (S k + List.length front)%nat by lia.
    destruct (zig_zag_cursor size k) as [x y]. cbn [fst snd] in *.
    destruct (zig_zag_step x y size) as [x' y']. cbn [fst snd] in IH.
    exact IH.
Qed.

(** Writing values along the path, from step [k] on, puts the [i]-th value
    at the cell of step [k + i] and leaves the cells of the earlier steps as
    they were. *)
Lemma inverse_iter_zig_zag_loop_vals (size : Z) (vals : list Z) :
  1 <= size ->
  forall (k : nat) (ret : matrix),
    is_square size ret ->
    Z.of_nat (k + List.length vals) <= size * size ->
    exists ret',
      inverse_iter_zig_zag_loop vals size ret (fst (zig_zag_cursor size k))
        (snd (zig_zag_cursor size k)) = Ok ret' /\
      is_square size ret' /\
      (forall i : nat, (i < List.length vals)%nat ->
         entry ret' (zig_zag_cursor size (k + i)) = nth i vals 0) /\
      (forall j : nat, (j < k)%nat ->
         entry ret' (zig_zag_cursor size j) = entry ret (zig_zag_cursor size j)).
Proof.
  intros Hs. induction vals as [|v vals IH]; intros k ret Hret Hk.
  - exists ret. split; [reflexivity|]. split; [assumption|].
    split; [cbn; intros; lia|reflexivity].
  - cbn [List.length] in Hk. cbn [inverse_iter_zig_zag_loop].
    pose proof (zig_zag_cursor_in_square size k Hs ltac:(lia)) as Hin.
    destruct (set2_in_square size Hs ret (zig_zag_cursor size k) v Hret Hin)
      as (ret1 & Hset & Hsq1 & Hsame & Hother).
    rewrite Hset. cbn [bind].
    destruct (IH (S k) ret1 Hsq1 ltac:(lia))
      as (ret' & Hloop & Hsq' & Hvals & Hkeep).
    cbn [zig_zag_cursor] in Hloop.
    destruct (zig_zag_cursor size k) as [x y] eqn:Ek. cbn [fst snd].
    destruct (zig_zag_step x y size) as [x' y'] eqn:Estep.
    cbn [fst snd] in Hloop.
    exists ret'. split; [exact Hloop|]. split; [exact Hsq'|]. split.
    + intros [|i] Hi.
      * rewrite Nat.add_0_r, Ek. cbn [nth].
        rewrite <- Hsame. rewrite <- Ek. apply Hkeep. lia.
      * cbn [List.length] in Hi. cbn [nth].
        replace (k + S i)%nat with (S k + i)%nat by lia.
        apply Hvals. lia.
    + intros j Hj. rewrite (Hkeep j ltac:(lia)).
      apply Hother.
      * apply zig_zag_cursor_in_square; [exact Hs|lia].
      * rewrite <- Ek. intros E.
        apply zig_zag_cursor_injective in E; [lia|exact Hs|lia|lia].
Qed.

(** More values than cells: the value after the last cell is written below
    the array. *)
Lemma inverse_iter_zig_zag_too_long (size : Z) (garbage : nat -> nat -> Z)
  (seq : list Z) (fill : Z) :
  1 <= size -> size * size < Z.of_nat (List.length seq) ->
  inverse_iter_zig_zag garbage seq size fill = Raise IndexError.
Proof.
  intros Hs Hlen. unfold inverse_iter_zig_zag.
  destruct (np_empty_square size Hs garbage) as (ret & -> & Hret).
  cbn [bind]. rewrite Z.pow_2_r.
  replace (Z.to_nat (size * size - Z.of_nat (List.length seq))) with O by lia.
  cbn [repeat]. rewrite app_nil_r.
  set (n := Z.to_nat (size * size)).
  rewrite <- (firstn_skipn n seq).
  assert (Hfront : List.length (firstn n seq) = n)
    by (rewrite length_firstn; lia).
  destruct (skipn n seq) as [|v back] eqn:Eback.
  { apply (f_equal (@List.length Z)) in Eback.
    rewrite length_skipn in Eback. cbn in Eback. lia. }
  pose proof (inverse_iter_zig_zag_loop_app size (firstn n seq) (v :: back)
                0 ret) as Happ.
  cbn [zig_zag_cursor fst snd] in Happ. rewrite Happ. clear Happ.
  destruct (inverse_iter_zig_zag_loop_total size (firstn n seq) Hs 0 ret Hret
              ltac:(lia)) as (ret' & Hfill & Hsq).
  cbn [zig_zag_cursor fst snd] in Hfill. rewrite Hfill.
  cbn [bind]. rewrite Hfront. cbn [Nat.add]. unfold n.
  rewrite zig_zag_cursor_after_last by exact Hs. cbn [fst snd].
  cbn [inverse_iter_zig_zag_loop]. unfold set2.
  replace (py_index ret' size) with (@Raise (list Z) IndexError);
    [reflexivity|].
  destruct Hsq as [Hshape _]. unfold shape0 in Hshape.
  unfold py_index. rewrite Hshape.
  destruct (Z.ltb_spec size 0); [lia|].
  destruct (Z.ltb_spec size size); [lia|]. now rewrite andb_false_r.
Qed.

(** Filling an array along the path and reading it back along the path. *)
Lemma inverse_iter_zig_zag_vals (size : Z) (seq : list Z) (fill : Z)
  (garbage : nat -> nat -> Z) :
  1 <= size -> Z.of_nat (List.length seq) <= size * size ->
  exists a,
    inverse_iter_zig_zag garbage seq size fill = Ok a /\
    is_square size a /\
    iter_zig_zag a
    = Ok (seq ++ repeat fill
                   (Z.to_nat (size * size - Z.of_nat (List.length seq)))).
Proof.
  intros Hs Hlen. unfold inverse_iter_zig_zag.
  destruct (np_empty_square size Hs garbage) as (ret & -> & Hret).
  cbn [bind]. rewrite Z.pow_2_r.
  set (vals := seq ++ repeat fill
                       (Z.to_nat (size * size - Z.of_nat (List.length seq)))).
  assert (Hvlen : List.length vals = Z.to_nat (size * size)).
  { unfold vals. rewrite length_app, repeat_length. lia. }
  destruct (inverse_iter_zig_zag_loop_vals size vals Hs 0 ret Hret
              ltac:(lia)) as (a & Hloop & Hsq & Hvals & _).
  cbn [zig_zag_cursor fst snd] in Hloop. exists a.
  split; [exact Hloop|]. split; [exact Hsq|].
  rewrite (iter_zig_zag_square size a Hs Hsq). f_equal.
  apply (nth_ext _ _ 0 0).
  - now rewrite length_map, zig_zag_path_length.
  - intros i Hi. rewrite length_map, zig_zag_path_length in Hi.
    rewrite <- (Hvals i) by lia. cbn [Nat.add].
    unfold zig_zag_path. rewrite map_map.
    rewrite (nth_indep _ 0 ((fun k => entry a (zig_zag_cursor size k)) O))
      by (rewrite length_map, length_seq; exact Hi).
    rewrite (map_nth (fun k => entry a (zig_zag_cursor size k))).
    now rewrite seq_nth by exact Hi.
Qed.



(** ** [Encoder], continued *)

(** A loop whose body succeeds on the items that satisfy [P] and raises [E]
    on the others. *)
Lemma mapM_outcome {A B : Type} (f : A -> result B) (P : A -> Prop) (E : exn)
  (l : list A) :
  (forall a, In a l ->
     match f a with Ok _ => P a | Raise e => e = E /\ ~ P a end) ->
  match mapM f l with
  | Ok _ => Forall P l
  | Raise e => e = E /\ ~ Forall P l
  end.
Proof.
  induction l as [|a l IH]; intros H; [constructor|].
  cbn [mapM]. pose proof (H a (or_introl eq_refl)) as Ha.
  destruct (f a) as [b|e]; cbn [bind].
  - specialize (IH (fun x Hx => H x (or_intror Hx))).
    destruct (mapM f l) as [bs|e]; cbn [bind].
    + now constructor.
    + destruct IH as [-> Hn]. split; [reflexivity|].
      intros Hall. apply Hn. now apply Forall_inv_tail in Hall.
  - destruct Ha as [-> Hn]. split; [reflexivity|].
    intros Hall. apply Hn. now apply Forall_inv in Hall.
Qed.

Lemma encode_huffman_dc_outcome (v : Z) (layer : layer_type) :
  match encode_huffman (VInt v) layer with
  | Ok _ => Z.abs v <= 2047
  | Raise e => e = ValueError /\ ~ Z.abs v <= 2047
  end.
Proof.
  destruct (Z_le_gt_dec (Z.abs v) 2047) as [Hv|Hv].
  - destruct (Z.eq_dec v 0) as [->|Hne].
    + destruct (encode_huffman_dc_zero layer) as (cw & _ & ->). exact Hv.
    + destruct (encode_huffman_dc_nonzero v layer Hne Hv) as (cw & _ & ->).
      exact Hv.
  - unfold encode_huffman.
    destruct (Z.leb_spec v (-2048)); [split; [reflexivity|lia]|].
    destruct (Z.geb_spec v 2048); [split; [reflexivity|lia]|]. lia.
Qed.

Lemma encode_dc_outcome (diff : list Z) (layer : layer_type) :
  match Encoder.encode_dc diff layer with
  | Ok _ => Forall (fun v => Z.abs v <= 2047) diff
  | Raise e => e = ValueError /\ ~ Forall (fun v => Z.abs v <= 2047) diff
  end.
Proof.
  unfold Encoder.encode_dc.
  pose proof (mapM_outcome (fun v => encode_huffman (VInt v) layer)
                (fun v => Z.abs v <= 2047) ValueError diff
                (fun v _ => encode_huffman_dc_outcome v layer)) as H.
  destruct (mapM _ diff); exact H.
Qed.

(** A symbol of a block, [EOB] included, is coded when its value is within
    range, and makes [encode_huffman] raise [ValueError] when it is not. *)
Lemma encode_huffman_symbol_outcome (keys : list Z) (s : Z * Z)
  (layer : layer_type) :
  s = EOB \/ symbol_ok keys s ->
  match encode_huffman (symbol_value s) layer with
  | Ok _ => Z.abs (snd s) <= 1023
  | Raise e => e = ValueError /\ ~ Z.abs (snd s) <= 1023
  end.
Proof.
  intros Hs. destruct s as [run v]. unfold symbol_value. cbn [fst snd].
  assert (Hcases : (run, v) = EOB \/ (run, v) = ZRL \/
                   (0 <= run <= 15 /\ v <> 0)).
  { destruct Hs as [Hs|[Hs|(Hr & Hv & _)]]; auto. }
  destruct Hcases as [Hsp|[Hsp|[Hrun Hv]]].
  - destruct (encode_huffman_eob_zrl run v layer (or_introl Hsp))
      as (cw & _ & ->). injection Hsp as -> ->. cbn. lia.
  - destruct (encode_huffman_eob_zrl run v layer (or_intror Hsp))
      as (cw & _ & ->). injection Hsp as -> ->. cbn. lia.
  - destruct (Z_le_gt_dec (Z.abs v) 1023) as [Hb|Hb].
    + destruct (encode_huffman_ac_nonzero run v layer Hrun Hv Hb)
        as (cw & _ & ->). exact Hb.
    + unfold encode_huffman.
      assert (E : pair_eqb (run, v) EOB || pair_eqb (run, v) ZRL = false).
      { unfold pair_eqb, EOB, ZRL. cbn [fst snd].
        destruct (Z.eqb_spec v 0); [contradiction|].
        now rewrite !andb_false_r. }
      rewrite E. destruct (Z.eqb_spec v 0); [contradiction|].
      destruct (Z.leb_spec v (-1024)); [split; [reflexivity|lia]|].
      destruct (Z.geb_spec v 1024); [split; [reflexivity|lia]|]. lia.
Qed.

Lemma strip_In_nonzero (l : list Z) (x : Z) :
  In x l -> x <> 0 -> In x (strip_trailing_zeros l).
Proof.
  intros Hin Hx. rewrite <- (strip_pad l) in Hin.
  apply in_app_or in Hin as [H|H]; [exact H|].
  apply repeat_spec in H. contradiction.
Qed.

Lemma decode_symbols_In (out : list (Z * Z)) (v : Z) :
  In v (decode_symbols out) -> v = 0 \/ exists s, In s out /\ snd s = v.
Proof.
  unfold decode_symbols. intros H. apply in_flat_map in H as ([l k] & Hs & Hv).
  apply in_app_or in Hv as [Hv|Hv].
  - left. now apply repeat_spec in Hv.
  - right. exists (l, k). destruct Hv as [<-|[]]. now split.
Qed.

(** The values of the symbols of a block are within range exactly when its
    AC coefficients are. *)
Lemma block_symbols_range (block : matrix) (out : list (Z * Z)) :
  decode_symbols out = strip_trailing_zeros (block_ac block) ->
  Forall (symbol_ok (block_ac block)) out ->
  Forall (fun s => Z.abs (snd s) <= 1023) (out ++ [EOB]) <->
  Forall (fun v => Z.abs v <= 1023) (block_ac block).
Proof.
  intros Hdec Hok. rewrite !Forall_forall. split.
  - intros H v Hv. destruct (Z.eq_dec v 0) as [->|Hne]; [cbn; lia|].
    apply strip_In_nonzero in Hv; [|exact Hne]. rewrite <- Hdec in Hv.
    apply decode_symbols_In in Hv as [->|(s & Hs & <-)]; [contradiction|].
    apply H, in_or_app. now left.
  - intros H s Hs. apply in_app_or in Hs as [Hs|[<-|[]]]; [|cbn; lia].
    rewrite Forall_forall in Hok.
    destruct (Hok s Hs) as [->|(_ & _ & Hin)]; [cbn; lia|now apply H].
Qed.

Lemma Forall2_In_r {A B : Type} (R : A -> B -> Prop) (l : list A)
  (l' : list B) (b : B) :
  Forall2 R l l' -> In b l' -> exists a, In a l /\ R a b.
Proof.
  induction 1 as [|a b' l l' Hab _ IH]; intros Hin; [contradiction|].
  destruct Hin as [<-|Hin].
  - exists a. split; [now left|exact Hab].
  - destruct (IH Hin) as (a' & Ha' & Hr). exists a'. split; [now right|exact Hr].
Qed.

Lemma encode_ac_outcome (d : planes) (layer : layer_type) :
  Forall (is_square 8) (Encoder.data d layer) ->
  exists stream,
    Encoder.run_length_ac d layer = Ok stream /\
    match Encoder.encode_ac stream layer with
    | Ok _ =>
        Forall (fun block => Forall (fun v => Z.abs v <= 1023) (block_ac block))
               (Encoder.data d layer)
    | Raise e =>
        e = ValueError /\
        ~ Forall (fun block =>
                    Forall (fun v => Z.abs v <= 1023) (block_ac block))
                 (Encoder.data d layer)
    end.
Proof.
  intros Hblocks.
  destruct (run_length_ac_spec d layer Hblocks) as (outs & Hrun & Hall).
  eexists. split; [exact Hrun|]. clear Hrun.
  remember (Encoder.data d layer) as blocks eqn:E. clear E Hblocks.
  set (stream := List.concat (map (fun out => out ++ [EOB]) outs)).
  assert (Hshape : forall s, In s stream ->
             exists block, s = EOB \/ symbol_ok (block_ac block) s).
  { intros s Hs. unfold stream in Hs. apply in_concat in Hs as (g & Hg & Hs).
    apply in_map_iff in Hg as (out & <- & Hout).
    apply in_app_or in Hs as [Hs|[<-|[]]]; [|exists []; now left].
    destruct (Forall2_In_r _ _ _ out Hall Hout) as (block & _ & _ & Hok).
    exists block. right. rewrite Forall_forall in Hok. now apply Hok. }
  assert (Hrange : Forall (fun s => Z.abs (snd s) <= 1023) stream <->
                   Forall (fun block =>
                             Forall (fun v => Z.abs v <= 1023) (block_ac block))
                          blocks).
  { unfold stream. clear Hshape stream.
    induction Hall as [|block out blocks outs [Hdec Hok] _ IH].
    - cbn [map List.concat]. split; constructor.
    - cbn [map List.concat]. rewrite Forall_app, IH.
      rewrite (block_symbols_range block out Hdec Hok).
      split; [intros [? ?]; now constructor|].
      intros H. split; [now apply Forall_inv in H|
                        now apply Forall_inv_tail in H]. }
  unfold Encoder.encode_ac. rewrite mapM_symbol_value.
  pose proof (mapM_outcome (fun s => encode_huffman (symbol_value s) layer)
                (fun s => Z.abs (snd s) <= 1023) ValueError stream) as H.
  destruct (mapM _ stream); cbn [bind].
  - apply Hrange, H. intros s Hs. destruct (Hshape s Hs) as [block Hb].
    exact (encode_huffman_symbol_outcome _ s layer Hb).
  - destruct H as [-> Hn].
    + intros s Hs. destruct (Hshape s Hs) as [block Hb].
      exact (encode_huffman_symbol_outcome _ s layer Hb).
    + split; [reflexivity|]. intros Hall'. now apply Hn, Hrange.
Qed.

(** X17.  [Encoder.encode] on 8 x 8 blocks of signed integers, at least one
    per plane: it returns the four bit strings exactly when every DPCM DC
    difference of both layers, as it is computed in the dtype of the layer,
    with its wrap-around, is within [-2047, 2047] and every AC coefficient
    within [-1023, 1023]; with a value out of these ranges it raises
    [ValueError], and nothing else. *)
Theorem encoder_raises_iff_out_of_range :
  forall (dt : layer_type -> dtype) (d : planes),
    plane_y d <> [] -> plane_cb d <> [] -> plane_cr d <> [] ->
    (forall layer, Forall (is_square 8) (Encoder.data d layer)) ->
    (forall layer, Forall (block_in_dtype (dt layer)) (Encoder.data d layer)) ->
    let in_range :=
      forall layer,
        Forall (fun v => Z.abs v <= 2047)
               (np_diff_list (dt layer)
                  (map block_dc (Encoder.data d layer))) /\
        Forall (fun block => Forall (fun v => Z.abs v <= 1023) (block_ac block))
               (Encoder.data d layer) in
    match Encoder.encode dt d with
    | Ok _ => in_range
    | Raise e => e = ValueError /\ ~ in_range
    end.
Proof.
  intros dt d _ _ _ Hblocks _ in_range. unfold Encoder.encode.
  rewrite !diff_dc_spec by apply Hblocks. cbn [bind].
  pose proof (encode_dc_outcome
                (np_diff_list (dt LUMINANCE)
                   (map block_dc (Encoder.data d LUMINANCE)))
                LUMINANCE) as Hdl.
  pose proof (encode_dc_outcome
                (np_diff_list (dt CHROMINANCE)
                   (map block_dc (Encoder.data d CHROMINANCE)))
                CHROMINANCE) as Hdc.
  destruct (encode_ac_outcome d LUMINANCE (Hblocks _)) as (rl_l & -> & Hal).
  destruct (encode_ac_outcome d CHROMINANCE (Hblocks _)) as (rl_c & -> & Hac).
  destruct (Encoder.encode_dc _ LUMINANCE) as [dc_l|e]; cbn [bind].
  2:{ destruct Hdl as [-> Hn]. split; [reflexivity|].
      intros H. apply Hn, (H LUMINANCE). }
  destruct (Encoder.encode_ac rl_l LUMINANCE) as [ac_l|e]; cbn [bind].
  2:{ destruct Hal as [-> Hn]. split; [reflexivity|].
      intros H. apply Hn, (H LUMINANCE). }
  destruct (Encoder.encode_dc _ CHROMINANCE) as [dc_c|e]; cbn [bind].
  2:{ destruct Hdc as [-> Hn]. split; [reflexivity|].
      intros H. apply Hn, (H CHROMINANCE). }
  destruct (Encoder.encode_ac rl_c CHROMINANCE) as [ac_c|e]; cbn [bind].
  2:{ destruct Hac as [-> Hn]. split; [reflexivity|].
      intros H. apply Hn, (H CHROMINANCE). }
  intros [|]; split; assumption.
Qed.

(** ** [Decoder], continued *)

(** A loop whose body returns results that satisfy [Q] or raises an
    exception that satisfies [E]. *)
Lemma mapM_results {A B : Type} (f : A -> result B) (Q : B -> Prop)
  (E : exn -> Prop) (l : list A) :
  (forall a, In a l -> match f a with Ok b => Q b | Raise e => E e end) ->
  match mapM f l with
  | Ok bs => Forall Q bs /\ List.length bs = List.length l
  | Raise e => E e
  end.
Proof.
  induction l as [|a l IH]; intros H; [now split|].
  cbn [mapM]. pose proof (H a (or_introl eq_refl)) as Ha.
  destruct (f a) as [b|e]; cbn [bind]; [|exact Ha].
  specialize (IH (fun x Hx => H x (or_intror Hx))).
  destruct (mapM f l) as [bs|e]; cbn [bind]; [|exact IH].
  destruct IH as [Hall Hlen]. split; [now constructor|].
  cbn [List.length]. now rewrite Hlen.
Qed.

(** One block of the decoder: 8 x 8, or [IndexError] when the group has
    more than 63 coefficients. *)
Lemma decoder_block (garbage : nat -> nat -> Z) (dc : Z) (ac : list Z) :
  match inverse_iter_zig_zag garbage (dc :: ac) 8 0 with
  | Ok a => is_square 8 a /\ (List.length ac <= 63)%nat
  | Raise e => e = IndexError /\ (63 < List.length ac)%nat
  end.
Proof.
  destruct (le_lt_dec (List.length ac) 63) as [Hlen|Hlen].
  - destruct (inverse_iter_zig_zag_total 8 garbage (dc :: ac) 0 ltac:(lia))
      as (a & -> & Hsq); [cbn [List.length]; lia|]. now split.
  - rewrite inverse_iter_zig_zag_too_long; [now split|lia|].
    cbn [List.length]. lia.
Qed.

(** The blocks of a layer with as many DC values as AC groups: the first
    group of more than 63 coefficients, if any, raises [IndexError]. *)
Lemma shape_layer_outcome (garbage : nat -> nat -> Z) (dcs : list Z)
  (acs : list (list Z)) :
  List.length dcs = List.length acs ->
  match Decoder.shape_layer garbage dcs acs with
  | Ok blocks =>
      Forall (is_square 8) blocks /\ List.length blocks = List.length dcs /\
      Forall (fun ac => (List.length ac <= 63)%nat) acs
  | Raise e =>
      e = IndexError /\ Exists (fun ac => (63 < List.length ac)%nat) acs
  end.
Proof.
  intros Hlen. unfold Decoder.shape_layer, Decoder.zip.
  rewrite Hlen, Z.eqb_refl. cbn [negb].
  revert acs Hlen. induction dcs as [|dc dcs IH]; intros [|ac acs] Hlen;
    try discriminate; [repeat split; constructor|].
  cbn [combine mapM]. pose proof (decoder_block garbage dc ac) as Hb.
  destruct (inverse_iter_zig_zag garbage (dc :: ac) 8 0) as [a|e];
    cbn [bind].
  - specialize (IH acs ltac:(cbn [List.length] in Hlen; lia)).
    destruct (mapM _ (combine dcs acs)) as [blocks|e]; cbn [bind].
    + destruct IH as (Hall & Hl & Hshort). destruct Hb as [Hsq Hac].
      split; [now constructor|]. split; [cbn [List.length]; lia|].
      now constructor.
    + destruct IH as [-> Hex]. split; [reflexivity|now right].
  - destruct Hb as [-> Hac]. split; [reflexivity|now left].
Qed.

(** X18.  The order of the failures of [Decoder.decode], with the DC values
    and the AC groups of both layers decoded: an odd chrominance count
    raises [ValueError] first; then, layer by layer, luminance first, a
    number of DC values that differs from the number of AC groups raises
    [ValueError], and with equal numbers a group of more than 63
    coefficients raises [IndexError]. *)
Theorem decoder_failures_in_order :
  forall (garbage : nat -> nat -> Z) (d : bitstreams)
         (dc_l dc_c : list Z) (ac_l ac_c : list (list Z)),
    Decoder.dc d LUMINANCE = Ok dc_l ->
    Decoder.dc d CHROMINANCE = Ok dc_c ->
    Decoder.ac d LUMINANCE = Ok ac_l ->
    Decoder.ac d CHROMINANCE = Ok ac_c ->
    let long := fun ac : list Z => (63 < List.length ac)%nat in
    (Z.of_nat (List.length dc_c) mod 2 <> 0 \/
     Z.of_nat (List.length ac_c) mod 2 <> 0 ->
     Decoder.decode garbage d = Raise ValueError) /\
    (Z.of_nat (List.length dc_c) mod 2 = 0 ->
     Z.of_nat (List.length ac_c) mod 2 = 0 ->
     (List.length dc_l <> List.length ac_l ->
      Decoder.decode garbage d = Raise ValueError) /\
     (List.length dc_l = List.length ac_l ->
      (Exists long ac_l -> Decoder.decode garbage d = Raise IndexError) /\
      (~ Exists long ac_l ->
       (List.length dc_c <> List.length ac_c ->
        Decoder.decode garbage d = Raise ValueError) /\
       (List.length dc_c = List.length ac_c -> Exists long ac_c ->
        Decoder.decode garbage d = Raise IndexError)))).
Proof.
  intros garbage d dc_l dc_c ac_l ac_c Hdl Hdc Hal Hac long.
  unfold Decoder.decode. rewrite Hdl, Hdc, Hal, Hac. cbn [bind]. split.
  - intros Hodd.
    destruct (Z.eqb_spec (Z.of_nat (List.length dc_c) mod 2) 0) as [Hd|Hd];
      cbn [negb orb]; [|reflexivity].
    destruct (Z.eqb_spec (Z.of_nat (List.length ac_c) mod 2) 0) as [Ha|Ha];
      cbn [negb]; [|reflexivity].
    destruct Hodd; contradiction.
  - intros Hd Ha. rewrite Hd, Ha. cbn [Z.eqb negb orb]. split.
    + intros Hl. now rewrite shape_layer_mismatch.
    + intros Hl. pose proof (shape_layer_outcome garbage dc_l ac_l Hl) as Hsl.
      split.
      * intros Hex.
        destruct (Decoder.shape_layer garbage dc_l ac_l) as [blocks|e];
          cbn [bind].
        -- exfalso. destruct Hsl as (_ & _ & Hshort).
           apply Exists_exists in Hex as (ac & Hin & Hlong).
           rewrite Forall_forall in Hshort. specialize (Hshort ac Hin).
           unfold long in Hlong. lia.
        -- now destruct Hsl as [-> _].
      * intros Hnex.
        destruct (Decoder.shape_layer garbage dc_l ac_l) as [blocks|e];
          cbn [bind]; [|destruct Hsl as [_ Hex]; contradiction].
        split.
        -- intros Hc. now rewrite shape_layer_mismatch.
        -- intros Hc Hex.
           pose proof (shape_layer_outcome garbage dc_c ac_c Hc) as Hsc.
           destruct (Decoder.shape_layer garbage dc_c ac_c) as [blocks'|e];
             cbn [bind].
           ++ exfalso. destruct Hsc as (_ & _ & Hshort).
              apply Exists_exists in Hex as (ac & Hin & Hlong).
              rewrite Forall_forall in Hshort. specialize (Hshort ac Hin).
              unfold long in Hlong. lia.
           ++ now destruct Hsc as [-> _].
Qed.

(** [decode_huffman] on a string of 0s and 1s. *)
Lemma decode_huffman_binary (m : dc_ac) (layer : layer_type) (bits : string) :
  binary bits = true ->
  match decode_huffman bits m layer with
  | Ok vs =>
      Forall (fun v => valid_value v /\ mode_of v = m) vs /\
      exists codes,
        mapM (fun v => encode_huffman v layer) vs = Ok codes /\
        join codes = bits
  | Raise e => e = KeyError \/ e = IndexError
  end.
Proof.
  intros Hbin.
  pose proof (decode_huffman_total bits m layer) as Htotal.
  pose proof (decode_huffman_loop_binary m layer (String.length bits) ""
                bits Hbin) as Hloop.
  unfold decode_huffman in *. change (str_len "") with 0 in Hloop.
  change ("" ++ bits)%string with bits in Hloop.
  destruct (decode_huffman_loop _ bits m layer 0) as [vs|e]; [exact Hloop|].
  destruct Hloop as [H|[H|H]]; [auto|auto|]. subst e. contradiction.
Qed.

(** The values of a string of 0s and 1s decoded in DC mode are integers. *)
Lemma decoder_dc_outcome (d : bitstreams) (layer : layer_type) :
  binary (bits_of d DC layer) = true ->
  match Decoder.dc d layer with
  | Ok _ => True
  | Raise e => e = KeyError \/ e = IndexError
  end.
Proof.
  intros Hbin. unfold Decoder.dc.
  pose proof (decode_huffman_binary DC layer _ Hbin) as H.
  destruct (decode_huffman _ DC layer) as [vs|e]; cbn [bind]; [|exact H].
  destruct H as [Hall _].
  assert (Hints : exists ints, mapM Decoder.as_int vs = Ok ints).
  { induction Hall as [|v vs [_ Hm] _ [ints IH]]; [now exists []|].
    destruct v as [z|run z]; [|discriminate]. exists (z :: ints).
    cbn [mapM Decoder.as_int bind]. now rewrite IH. }
  destruct Hints as [ints ->]. exact I.
Qed.

(** The values of a string of 0s and 1s decoded in AC mode are pairs. *)
Lemma decoder_ac_outcome (d : bitstreams) (layer : layer_type) :
  binary (bits_of d AC layer) = true ->
  match Decoder.ac d layer with
  | Ok _ => True
  | Raise e => e = KeyError \/ e = IndexError
  end.
Proof.
  intros Hbin. unfold Decoder.ac.
  pose proof (decode_huffman_binary AC layer _ Hbin) as H.
  destruct (decode_huffman _ AC layer) as [vs|e]; cbn [bind]; [|exact H].
  destruct H as [Hall _].
  assert (Hpairs : exists pairs, mapM Decoder.as_pair vs = Ok pairs).
  { induction Hall as [|v vs [_ Hm] _ [pairs IH]]; [now exists []|].
    destruct v as [z|run z]; [discriminate|]. exists ((run, z) :: pairs).
    cbn [mapM Decoder.as_pair bind]. now rewrite IH. }
  destruct Hpairs as [pairs ->]. exact I.
Qed.

(** X19.  What [Decoder.decode] does with four strings of 0s and 1s,
    whatever they hold: it returns 8 x 8 blocks, as many for [cb] as for
    [cr], or it raises [KeyError], [IndexError] or [ValueError]. *)
Theorem decoder_outcomes :
  forall (garbage : nat -> nat -> Z) (d : bitstreams),
    (forall (m : dc_ac) (layer : layer_type), binary (bits_of d m layer) = true) ->
    match Decoder.decode garbage d with
    | Ok p =>
        Forall (is_square 8) (plane_y p ++ plane_cb p ++ plane_cr p) /\
        List.length (plane_cb p) = List.length (plane_cr p)
    | Raise e => e = KeyError \/ e = IndexError \/ e = ValueError
    end.
Proof.
  intros garbage d Hbin. unfold Decoder.decode.
  pose proof (decoder_dc_outcome d LUMINANCE (Hbin _ _)) as Hdl.
  pose proof (decoder_dc_outcome d CHROMINANCE (Hbin _ _)) as Hdc.
  pose proof (decoder_ac_outcome d LUMINANCE (Hbin _ _)) as Hal.
  pose proof (decoder_ac_outcome d CHROMINANCE (Hbin _ _)) as Hac.
  destruct (Decoder.dc d LUMINANCE) as [dc_l|e]; cbn [bind]; [|tauto].
  destruct (Decoder.dc d CHROMINANCE) as [dc_c|e]; cbn [bind]; [|tauto].
  destruct (Decoder.ac d LUMINANCE) as [ac_l|e]; cbn [bind]; [|tauto].
  destruct (Decoder.ac d CHROMINANCE) as [ac_c|e]; cbn [bind]; [|tauto].
  destruct (Z.eqb_spec (Z.of_nat (List.length dc_c) mod 2) 0) as [Hd|Hd];
    cbn [negb orb]; [|auto].
  destruct (Z.eqb_spec (Z.of_nat (List.length ac_c) mod 2) 0) as [Ha|Ha];
    cbn [negb]; [|auto].
  destruct (Nat.eq_dec (List.length dc_l) (List.length ac_l)) as [Hl|Hl];
    [|rewrite shape_layer_mismatch by exact Hl; cbn [bind]; auto].
  pose proof (shape_layer_outcome garbage dc_l ac_l Hl) as Hsl.
  destruct (Decoder.shape_layer garbage dc_l ac_l) as [y|e]; cbn [bind];
    [|destruct Hsl as [-> _]; auto].
  destruct (Nat.eq_dec (List.length dc_c) (List.length ac_c)) as [Hc|Hc];
    [|rewrite shape_layer_mismatch by exact Hc; cbn [bind]; auto].
  pose proof (shape_layer_outcome garbage dc_c ac_c Hc) as Hsc.
  destruct (Decoder.shape_layer garbage dc_c ac_c) as [c|e]; cbn [bind];
    [|destruct Hsc as [-> _]; auto].
  destruct Hsl as (Hy & _ & _). destruct Hsc as (Hsq & Hlen & _).
  destruct (np_split2_even c) as (cb & cr & -> & -> & Hhalves);
    [now rewrite Hlen|].
  cbn [plane_y plane_cb plane_cr]. split; [|exact Hhalves].
  apply Forall_app. split; assumption.
Qed.

(** ** The uninitialised array of [inverse_iter_zig_zag] *)

Lemma inverse_iter_zig_zag_garbage (garbage garbage' : nat -> nat -> Z)
  (seq : list Z) (size fill : Z) :
  inverse_iter_zig_zag garbage seq size fill
  = inverse_iter_zig_zag garbage' seq size fill.
Proof.
  destruct (Z_lt_le_dec size 1) as [Hsmall|Hs].
  - unfold inverse_iter_zig_zag, np_empty.
    destruct (Z.ltb_spec size 0); [reflexivity|].
    replace (Z.to_nat size) with O by lia. reflexivity.
  - destruct (Z_le_gt_dec (Z.of_nat (List.length seq)) (size * size))
      as [Hlen|Hlen].
    2:{ now rewrite !inverse_iter_zig_zag_too_long by lia. }
    unfold inverse_iter_zig_zag.
    destruct (np_empty_square size Hs garbage) as (ret & -> & Hret).
    destruct (np_empty_square size Hs garbage') as (ret' & -> & Hret').
    cbn [bind]. rewrite Z.pow_2_r.
    set (vals := seq ++ repeat fill
                         (Z.to_nat (size * size - Z.of_nat (List.length seq)))).
    assert (Hvlen : List.length vals = Z.to_nat (size * size)).
    { unfold vals. rewrite length_app, repeat_length. lia. }
    destruct (inverse_iter_zig_zag_loop_vals size vals Hs 0 ret Hret
                ltac:(lia)) as (a & Hloop & Hsq & Hvals & _).
    destruct (inverse_iter_zig_zag_loop_vals size vals Hs 0 ret' Hret'
                ltac:(lia)) as (a' & Hloop' & Hsq' & Hvals' & _).
    cbn [zig_zag_cursor fst snd] in Hloop, Hloop'.
    rewrite Hloop, Hloop'. f_equal.
    apply (square_ext size); [assumption|assumption|].
    intros c Hc.
    assert (Hn : size = Z.of_nat (Z.to_nat size)) by lia.
    pose proof (zig_zag_path_complete (Z.to_nat size) c) as Hpath.
    rewrite <- Hn in Hpath. specialize (Hpath Hc).
    unfold zig_zag_path in Hpath. apply in_map_iff in Hpath as (k & <- & Hk).
    apply in_seq in Hk.
    pose proof (Hvals k ltac:(nia)) as Hk1.
    pose proof (Hvals' k ltac:(nia)) as Hk2.
    cbn [Nat.add] in Hk1, Hk2. now rewrite Hk1, Hk2.
Qed.

Lemma mapM_ext {A B : Type} (f g : A -> result B) (l : list A) :
  (forall a, f a = g a) -> mapM f l = mapM g l.
Proof.
  intros H. induction l as [|a l IH]; [reflexivity|].
  cbn [mapM]. now rewrite H, IH.
Qed.

(** X20.  What [np.empty] left in the array never shows: the result of
    [inverse_iter_zig_zag], an array or an exception, is the same whatever
    the uninitialised array held, for every sequence, size and fill
    value. *)
Theorem inverse_iter_zig_zag_ignores_uninitialised_memory :
  forall (garbage garbage' : nat -> nat -> Z) (seq : list Z) (size fill : Z),
    inverse_iter_zig_zag garbage seq size fill
    = inverse_iter_zig_zag garbage' seq size fill.
Proof. exact inverse_iter_zig_zag_garbage. Qed.

(** X21.  The result of [Decoder.decode], blocks or an exception, is the
    same whatever the arrays it allocates held. *)
Theorem decoder_ignores_uninitialised_memory :
  forall (garbage garbage' : nat -> nat -> Z) (d : bitstreams),
    Decoder.decode garbage d = Decoder.decode garbage' d.
Proof.
  intros garbage garbage' d.
  assert (Hshape : forall dcs acs,
             Decoder.shape_layer garbage dcs acs
             = Decoder.shape_layer garbage' dcs acs).
  { intros dcs acs. unfold Decoder.shape_layer.
    destruct (negb _); [reflexivity|].
    apply mapM_ext. intros [dc ac].
    apply inverse_iter_zig_zag_garbage. }
  unfold Decoder.decode.
  destruct (Decoder.dc d LUMINANCE); cbn [bind]; [|reflexivity].
  destruct (Decoder.dc d CHROMINANCE); cbn [bind]; [|reflexivity].
  destruct (Decoder.ac d LUMINANCE); cbn [bind]; [|reflexivity].
  destruct (Decoder.ac d CHROMINANCE); cbn [bind]; [|reflexivity].
  destruct (_ || _); [reflexivity|].
  now rewrite !Hshape.
Qed.

(** ** The bits the encoder writes *)

Lemma tables_binary (m : dc_ac) (layer : layer_type) :
  table_binary (HUFFMAN_CATEGORY_CODEWORD m layer) = true.
Proof. destruct m, layer; vm_compute; reflexivity. Qed.

Lemma lookup_binary (m : dc_ac) (layer : layer_type) (key : hkey)
  (cw : string) :
  lookup (HUFFMAN_CATEGORY_CODEWORD m layer) key = Ok cw -> binary cw = true.
Proof.
  intros H. apply lookup_In in H.
  pose proof (tables_binary m layer) as Hall.
  unfold table_binary in Hall. rewrite forallb_forall in Hall.
  exact (Hall _ H).
Qed.

Lemma encode_huffman_binary (v : hvalue) (layer : layer_type) (bits : string) :
  encode_huffman v layer = Ok bits -> binary bits = true.
Proof.
  destruct v as [v|run v]; unfold encode_huffman.
  - destruct (Z.leb_spec v (-2048)); [discriminate|].
    destruct (Z.geb_spec v 2048); [discriminate|]. cbv [orb].
    destruct (Z.eq_dec v 0) as [->|Hne].
    + rewrite index_2d_zero. cbn [bind Z.eqb]. apply lookup_binary.
    + rewrite index_2d_nonzero by lia. cbn [bind].
      destruct (size_bounds_of_abs v 11 Hne ltac:(lia)) as [Hs Hvs].
      { change (2 ^ 11) with 2048. lia. }
      destruct (Z.eqb_spec (Z.log2 (Z.abs v) + 1) 0); [lia|].
      destruct (lookup _ _) as [cw|] eqn:Ecw; [|discriminate].
      cbn [bind]. intros [= <-]. rewrite binary_append.
      rewrite (lookup_binary _ _ _ _ Ecw), binary_format_0b; [reflexivity|].
      apply category_index_bounds; lia.
  - destruct (pair_eqb (run, v) EOB || pair_eqb (run, v) ZRL);
      [apply lookup_binary|].
    destruct (Z.eqb_spec v 0); [discriminate|].
    destruct (Z.leb_spec v (-1024)); [discriminate|].
    destruct (Z.geb_spec v 1024); [discriminate|]. cbv [orb].
    rewrite index_2d_nonzero by lia. cbn [bind].
    destruct (size_bounds_of_abs v 10 ltac:(assumption) ltac:(lia))
      as [Hs Hvs].
    { change (2 ^ 10) with 1024. lia. }
    destruct (lookup _ _) as [cw|] eqn:Ecw; [|discriminate].
    cbn [bind]. intros [= <-]. rewrite binary_append.
    rewrite (lookup_binary _ _ _ _ Ecw), binary_format_0b; [reflexivity|].
    apply category_index_bounds; lia.
Qed.

Lemma join_binary (codes : list string) :
  Forall (fun c => binary c = true) codes -> binary (join codes) = true.
Proof.
  induction 1 as [|c codes Hc _ IH]; [reflexivity|].
  cbn [join]. now rewrite binary_append, Hc, IH.
Qed.

Lemma mapM_Forall_ok {A B : Type} (f : A -> result B) (Q : B -> Prop)
  (l : list A) (bs : list B) :
  (forall a b, f a = Ok b -> Q b) -> mapM f l = Ok bs -> Forall Q bs.
Proof.
  intros H. revert bs. induction l as [|a l IH]; intros bs.
  - intros [= <-]. constructor.
  - cbn [mapM]. destruct (f a) as [b|] eqn:Eb; [|discriminate]. cbn [bind].
    destruct (mapM f l) as [bs'|]; [|discriminate]. cbn [bind].
    intros [= <-]. constructor; [exact (H a b Eb)|now apply IH].
Qed.

(** X22.  [encode_huffman] writes 0s and 1s only: every bit string it
    returns, for a DC difference or an AC pair, holds no other character. *)
Theorem encode_huffman_writes_bits :
  forall (v : hvalue) (layer : layer_type) (bits : string),
    encode_huffman v layer = Ok bits -> binary bits = true.
Proof. exact encode_huffman_binary. Qed.

(** X23.  The four bit strings [Encoder.encode] returns hold 0s and 1s
    only, so that each of them is an input on which [decode_huffman] is
    specified. *)
Theorem encoder_writes_bits :
  forall (dt : layer_type -> dtype) (d : planes) (bits : bitstreams),
    Encoder.encode dt d = Ok bits ->
    forall (m : dc_ac) (layer : layer_type), binary (bits_of bits m layer) = true.
Proof.
  intros dt d bits Henc.
  assert (Hdc : forall diff layer s,
             Encoder.encode_dc diff layer = Ok s -> binary s = true).
  { intros diff layer s. unfold Encoder.encode_dc.
    destruct (mapM _ diff) as [codes|] eqn:E; [|discriminate].
    cbn [bind]. intros [= <-]. apply join_binary.
    apply (mapM_Forall_ok _ _ _ _ (fun v => encode_huffman_binary _ layer) E). }
  assert (Hac : forall rl layer s,
             Encoder.encode_ac rl layer = Ok s -> binary s = true).
  { intros rl layer s. unfold Encoder.encode_ac.
    destruct (mapM _ rl) as [codes|] eqn:E; [|discriminate].
    cbn [bind]. intros [= <-]. apply join_binary.
    refine (mapM_Forall_ok _ _ _ _ _ E).
    intros [run v]. apply encode_huffman_binary. }
  unfold Encoder.encode in Henc.
  destruct (Encoder.diff_dc _ d LUMINANCE) as [diff_l|]; [|discriminate].
  destruct (Encoder.diff_dc _ d CHROMINANCE) as [diff_c|]; [|discriminate].
  cbn [bind] in Henc.
  destruct (Encoder.encode_dc diff_l LUMINANCE) as [dc_l|] eqn:E1;
    [|discriminate].
  destruct (Encoder.run_length_ac d LUMINANCE) as [rl_l|]; [|discriminate].
  destruct (Encoder.run_length_ac d CHROMINANCE) as [rl_c|]; [|discriminate].
  cbn [bind] in Henc.
  destruct (Encoder.encode_ac rl_l LUMINANCE) as [ac_l|] eqn:E2;
    [|discriminate].
  destruct (Encoder.encode_dc diff_c CHROMINANCE) as [dc_c|] eqn:E3;
    [|discriminate].
  destruct (Encoder.encode_ac rl_c CHROMINANCE) as [ac_c|] eqn:E4;
    [|discriminate].
  cbn [bind] in Henc. injection Henc as <-.
  intros [|] [|]; cbn [bits_of dc_luminance dc_chrominance ac_luminance
                          ac_chrominance]; eauto.
Qed.

(** ** [inverse_iter_zig_zag] without a size *)

Lemma smallest_square_from_spec (value : Z) (fuel : nat) :
  forall ret : Z,
    0 <= ret -> (forall r, 0 <= r < ret -> r * r < value) ->
    value <= ret + Z.of_nat fuel ->
    exists s,
      smallest_square_from fuel ret value = Ok s /\
      ret <= s /\ value <= s * s /\ (forall r, 0 <= r < s -> r * r < value).
Proof.
  induction fuel as [|fuel IH]; intros ret Hret Hbelow Hfuel;
    cbn [smallest_square_from]; rewrite Z.pow_2_r;
    destruct (Z.geb_spec (ret * ret) value) as [Hge|Hlt].
  - exists ret. repeat split; [lia|lia|exact Hbelow].
  - exfalso. nia.
  - exists ret. repeat split; [lia|lia|exact Hbelow].
  - destruct (IH (ret + 1)) as (s & Hs & Hle & Hsq & Hmin); [lia| |lia|].
    + intros r Hr. destruct (Z.eq_dec r ret) as [->|Hne]; [exact Hlt|].
      apply Hbelow. lia.
    + exists s. repeat split; [exact Hs|lia|exact Hsq|exact Hmin].
Qed.

(** The loop of [smallest_square_larger_than] ends: it returns the least
    [s >= 0] whose square is [value] or more. *)
Lemma smallest_square_larger_than_spec (value : Z) :
  exists s,
    smallest_square_larger_than value = Ok s /\
    0 <= s /\ value <= s * s /\ (forall r, 0 <= r < s -> r * r < value).
Proof.
  unfold smallest_square_larger_than.
  destruct (smallest_square_from_spec value (Z.to_nat value) 0)
    as (s & Hs & Hle & Hsq & Hmin); [lia|intros; lia|lia|].
  exists s. repeat split; assumption.
Qed.

Lemma smallest_square_of_square (n : Z) :
  0 <= n -> smallest_square_larger_than (n * n) = Ok n.
Proof.
  intros Hn.
  destruct (smallest_square_larger_than_spec (n * n))
    as (s & -> & Hs & Hsq & Hmin).
  f_equal. destruct (Z_lt_le_dec n s) as [Hlt|Hge].
  - specialize (Hmin n ltac:(lia)). lia.
  - nia.
Qed.

(** X24.  [inverse_iter_zig_zag] without a size does not fail on 64-bit
    integers: for every sequence of them that is not empty, and such a fill
    value, it takes the least [size] with [size * size] values at least and
    returns a [size] x [size] array, from which [iter_zig_zag] yields the
    sequence followed by copies of the fill value. *)
Theorem inverse_iter_zig_zag_default_size :
  forall (garbage : nat -> nat -> Z) (seq : list Z) (fill : Z),
    seq <> [] ->
    Forall (in_dtype Int64) seq -> in_dtype Int64 fill ->
    exists (size : Z) (a : matrix),
      smallest_square_larger_than (Z.of_nat (List.length seq)) = Ok size /\
      1 <= size /\
      Z.of_nat (List.length seq) <= size * size /\
      (forall r, 0 <= r < size -> r * r < Z.of_nat (List.length seq)) /\
      inverse_iter_zig_zag_default garbage seq fill = Ok a /\
      is_square size a /\
      iter_zig_zag a
      = Ok (seq ++ repeat fill
                     (Z.to_nat (size * size - Z.of_nat (List.length seq)))).
Proof.
  intros garbage seq fill Hne _ _. unfold inverse_iter_zig_zag_default.
  destruct (smallest_square_larger_than_spec (Z.of_nat (List.length seq)))
    as (size & Hsize & H0 & Hsq & Hmin).
  rewrite Hsize. cbn [bind]. exists size.
  assert (H1 : 1 <= size).
  { destruct seq as [|x seq]; [contradiction|].
    cbn [List.length] in Hsq. nia. }
  destruct (inverse_iter_zig_zag_vals size seq fill garbage H1 Hsq)
    as (a & Ha & Hsquare & Hiter).
  exists a.
  exact (conj eq_refl (conj H1 (conj Hsq (conj Hmin (conj Ha
           (conj Hsquare Hiter)))))).
Qed.

(** X25.  The zig-zag round trip with the size left out: the values
    [iter_zig_zag] yields from an [N] x [N] array, [N >= 1], are enough for
    [inverse_iter_zig_zag] to find [N] and rebuild the array. *)
Theorem zig_zag_roundtrip_default_size :
  forall (N : Z) (M : matrix) (garbage : nat -> nat -> Z) (fill : Z),
    1 <= N -> is_square N M ->
    exists seq,
      iter_zig_zag M = Ok seq /\
      inverse_iter_zig_zag_default garbage seq fill = Ok M.
Proof.
  intros N M garbage fill HN HM.
  eexists. split; [apply (iter_zig_zag_square N M HN HM)|].
  unfold inverse_iter_zig_zag_default.
  rewrite length_map, zig_zag_path_length.
  replace (Z.of_nat (Z.to_nat (N * N))) with (N * N) by nia.
  rewrite smallest_square_of_square by lia. cbn [bind].
  apply inverse_iter_zig_zag_entries; [exact HN|exact HM|].
  rewrite length_map, zig_zag_path_length, Z.pow_2_r.
  replace (Z.to_nat (N * N - Z.of_nat (Z.to_nat (N * N)))) with O by nia.
  apply app_nil_r.
Qed.

(** ** The groups of [isplit] *)

Lemma count_eob_not_In (g : list (Z * Z)) : ~ In EOB g -> count_eob g = O.
Proof.
  unfold count_eob. induction g as [|s g IH]; intros H; [reflexivity|].
  cbn [filter]. destruct (pair_eqb s EOB) eqn:E.
  - apply pair_eqb_eq in E. subst s. exfalso. apply H. now left.
  - apply IH. intros Hin. apply H. now right.
Qed.

Lemma isplit_decompose (l : list (Z * Z)) :
  forall acc : list (Z * Z),
    ~ In EOB acc ->
    exists groups trailing,
      Decoder.isplit l EOB acc = map (fun g => g ++ [EOB]) groups /\
      acc ++ l = List.concat (map (fun g => g ++ [EOB]) groups) ++ trailing /\
      Forall (fun g => ~ In EOB g) groups /\ ~ In EOB trailing.
Proof.
  induction l as [|s l IH]; intros acc Hacc.
  - exists [], acc. cbn [Decoder.isplit map List.concat app].
    rewrite app_nil_r. repeat split; [constructor|exact Hacc].
  - cbn [Decoder.isplit]. destruct (pair_eqb s EOB) eqn:E.
    + apply pair_eqb_eq in E. subst s.
      destruct (IH [] ltac:(intros [])) as (groups & trailing & Hs & Hl & Hg & Ht).
      exists (acc :: groups), trailing. rewrite Hs.
      cbn [map List.concat app] in *. rewrite Hl, <- !app_assoc.
      repeat split; [now constructor|exact Ht].
    + destruct (IH (acc ++ [s])) as (groups & trailing & Hs & Hl & Hg & Ht).
      { intros Hin. apply in_app_or in Hin as [Hin|[Heq|[]]];
          [contradiction|].
        rewrite Heq in E. discriminate. }
      exists groups, trailing. rewrite Hs, <- Hl, <- app_assoc.
      repeat split; assumption.
Qed.

(** X26.  [isplit] on any stream of symbols: the stream is the groups it
    yields followed by symbols without [EOB]; every group ends with its only
    [EOB], and there are as many groups as [EOB] symbols in the stream. *)
Theorem isplit_any_stream :
  forall stream : list (Z * Z),
    exists (groups : list (list (Z * Z))) (trailing : list (Z * Z)),
      Decoder.isplit stream EOB [] = map (fun g => g ++ [EOB]) groups /\
      stream = List.concat (map (fun g => g ++ [EOB]) groups) ++ trailing /\
      Forall (fun g => ~ In EOB g) groups /\
      ~ In EOB trailing /\
      List.length groups = count_eob stream.
Proof.
  intros stream.
  destruct (isplit_decompose stream [] ltac:(intros []))
    as (groups & trailing & Hs & Hl & Hg & Ht).
  exists groups, trailing. cbn [app] in Hl.
  repeat split; try assumption.
  rewrite Hl, count_eob_app, (count_eob_not_In trailing Ht), Nat.add_0_r.
  clear Hs Hl. induction Hg as [|g groups Hg _ IH]; [reflexivity|].
  cbn [map List.concat List.length]. rewrite !count_eob_app.
  rewrite (count_eob_not_In g Hg), <- IH. reflexivity.
Qed.

(** ** The further properties at sample inputs *)

Lemma index_2d_raises_iff_beyond_table_witness :
  index_2d HUFFMAN_CATEGORIES (-40000) = Raise ValueError.
Proof.
  apply (proj2 (index_2d_raises_iff_beyond_table (-40000))). cbn. lia.
Defined.

Lemma encode_huffman_run_out_of_table_witness :
  encode_huffman (VPair 16 0) LUMINANCE = Raise ValueError /\
  encode_huffman (VPair 16 5) LUMINANCE = Raise KeyError.
Proof.
  split.
  - apply (proj1 (encode_huffman_run_out_of_table LUMINANCE 16 0
                    ltac:(lia))).
    left. reflexivity.
  - apply (proj2 (encode_huffman_run_out_of_table LUMINANCE 16 5
                    ltac:(lia))).
    cbn. lia.
Defined.

Lemma huffman_stream_roundtrip_witness :
  exists codes,
    mapM (fun v => encode_huffman v CHROMINANCE)
         [VPair 0 5; VPair 15 0; VPair 2 (-3); VPair 0 0] = Ok codes /\
    decode_huffman (join codes) AC CHROMINANCE
    = Ok [VPair 0 5; VPair 15 0; VPair 2 (-3); VPair 0 0].
Proof.
  apply (huffman_stream_roundtrip CHROMINANCE AC).
  repeat (apply Forall_cons; [split; [|reflexivity]|]); [| | | |apply Forall_nil].
  - right. right. cbn. lia.
  - right. left. reflexivity.
  - right. right. cbn. lia.
  - left. reflexivity.
Defined.

Lemma huffman_stream_injective_witness : [VInt 3; VInt 0] = [VInt 3; VInt 0].
Proof.
  apply (huffman_stream_injective LUMINANCE DC [VInt 3; VInt 0]
           [VInt 3; VInt 0] ["01111"; "00"] ["01111"; "00"]).
  - repeat constructor; cbn; lia.
  - repeat constructor; cbn; lia.
  - reflexivity.
  - reflexivity.
  - reflexivity.
Defined.

Lemma decode_huffman_no_prefix_raises_witness :
  decode_huffman (join ["00"] ++ "1111111111111111") DC LUMINANCE
  = Raise KeyError.
Proof.
  apply (decode_huffman_no_prefix_raises LUMINANCE DC [VInt 0] ["00"]).
  - repeat constructor; cbn; lia.
  - reflexivity.
  - discriminate.
  - intros n Hn.
    do 17 (destruct n as [|n]; [first [lia | reflexivity]|]). lia.
Defined.

Lemma decode_huffman_cut_codeword_raises_witness :
  decode_huffman (join ["00"] ++ "01") DC LUMINANCE = Raise KeyError.
Proof.
  apply (decode_huffman_cut_codeword_raises LUMINANCE DC [VInt 0] ["00"]
           (KInt 2) "011" "01").
  - repeat constructor; cbn; lia.
  - reflexivity.
  - reflexivity.
  - exists "1". reflexivity.
  - discriminate.
  - discriminate.
Defined.

Lemma decode_huffman_cut_amplitude_raises_witness :
  decode_huffman (join ["00"] ++ "011" ++ "1") DC LUMINANCE = Raise IndexError.
Proof.
  apply (decode_huffman_cut_amplitude_raises LUMINANCE DC [VInt 0] ["00"]
           (KInt 2) "011" "1").
  - repeat constructor; cbn; lia.
  - reflexivity.
  - reflexivity.
  - reflexivity.
Defined.

Lemma decode_huffman_outcomes_witness :
  match decode_huffman "0001111" DC LUMINANCE with
  | Ok values => Forall (fun v => valid_value v /\ mode_of v = DC) values
  | Raise e => e = KeyError \/ e = IndexError
  end.
Proof.
  apply (decode_huffman_outcomes LUMINANCE DC "0001111"). reflexivity.
Defined.

Lemma decode_huffman_reencodes_witness :
  exists codes,
    mapM (fun v => encode_huffman v LUMINANCE) [VInt 0; VInt 3] = Ok codes /\
    join codes = "0001111".
Proof.
  apply (decode_huffman_reencodes LUMINANCE DC "0001111" [VInt 0; VInt 3]).
  - reflexivity.
  - reflexivity.
Defined.

Lemma encode_run_length_ignores_trailing_zeros_witness :
  encode_run_length ([5; 0; 3] ++ repeat 0 4) = encode_run_length [5; 0; 3].
Proof.
  apply (encode_run_length_ignores_trailing_zeros [5; 0; 3] 4). discriminate.
Defined.



Lemma encoder_raises_iff_out_of_range_witness :
  let d := Planes (map dc_only_block (map (fun k => 2047 * k) (range 1 17))
                   ++ [dc_only_block (-32768)])
                  [dc_only_block 0] [dc_only_block 0] in
  let dt := fun _ : layer_type => Int16 in
  let in_range :=
    forall layer,
      Forall (fun v => Z.abs v <= 2047)
             (np_diff_list (dt layer) (map block_dc (Encoder.data d layer))) /\
      Forall (fun block => Forall (fun v => Z.abs v <= 1023) (block_ac block))
             (Encoder.data d layer) in
  match Encoder.encode dt d with
  | Ok _ => in_range
  | Raise e => e = ValueError /\ ~ in_range
  end.
Proof.
  apply (encoder_raises_iff_out_of_range (fun _ => Int16)
           (Planes (map dc_only_block (map (fun k => 2047 * k) (range 1 17))
                    ++ [dc_only_block (-32768)])
                   [dc_only_block 0] [dc_only_block 0])).
  - discriminate.
  - discriminate.
  - discriminate.
  - intros [|]; repeat constructor.
  - intros [|]; unfold block_in_dtype;
      repeat (apply Forall_cons || apply Forall_nil);
      vm_compute; split; discriminate.
Defined.

Lemma decoder_failures_in_order_witness :
  Decoder.decode zero_garbage
    (Bitstreams "00" "" (join (repeat "001" 64 ++ ["1010"])) "")
  = Raise IndexError.
Proof.
  pose proof (decoder_failures_in_order zero_garbage
                (Bitstreams "00" "" (join (repeat "001" 64 ++ ["1010"])) "")
                [0] (@nil Z) [repeat 1 64] (@nil (list Z))
                eq_refl eq_refl eq_refl eq_refl) as H.
  cbv zeta in H. destruct H as [_ H].
  destruct (H eq_refl eq_refl) as [_ Hl].
  destruct (Hl eq_refl) as [Hlong _].
  apply Hlong. left. cbn. lia.
Defined.

Lemma decoder_outcomes_witness :
  match Decoder.decode zero_garbage (Bitstreams "00" "0000" "1010" "0000") with
  | Ok p =>
      Forall (is_square 8) (plane_y p ++ plane_cb p ++ plane_cr p) /\
      List.length (plane_cb p) = List.length (plane_cr p)
  | Raise e => e = KeyError \/ e = IndexError \/ e = ValueError
  end.
Proof.
  apply (decoder_outcomes zero_garbage
           (Bitstreams "00" "0000" "1010" "0000")).
  intros [|] [|]; reflexivity.
Defined.

Lemma encode_huffman_writes_bits_witness : binary "01101" = true.
Proof.
  apply (encode_huffman_writes_bits (VInt (-2)) LUMINANCE "01101").
  reflexivity.
Defined.

Lemma encoder_writes_bits_witness :
  exists bits,
    Encoder.encode default_int sample_planes = Ok bits /\
    forall (m : dc_ac) (layer : layer_type),
      binary (bits_of bits m layer) = true.
Proof.
  eexists. split; [vm_compute; reflexivity|].
  apply (encoder_writes_bits default_int sample_planes).
  vm_compute. reflexivity.
Defined.

Lemma zig_zag_roundtrip_default_size_witness :
  exists seq,
    iter_zig_zag [[1; 2]; [3; 4]] = Ok seq /\
    inverse_iter_zig_zag_default zero_garbage seq 0 = Ok [[1; 2]; [3; 4]].
Proof.
  apply (zig_zag_roundtrip_default_size 2 [[1; 2]; [3; 4]] zero_garbage 0).
  - lia.
  - split; [reflexivity|repeat constructor].
Defined.

Lemma inverse_iter_zig_zag_default_size_witness :
  exists (size : Z) (a : matrix),
    smallest_square_larger_than (Z.of_nat (List.length [1; 2; 3; 4; 5]))
    = Ok size /\
    1 <= size /\
    Z.of_nat (List.length [1; 2; 3; 4; 5]) <= size * size /\
    (forall r, 0 <= r < size ->
       r * r < Z.of_nat (List.length [1; 2; 3; 4; 5])) /\
    inverse_iter_zig_zag_default zero_garbage [1; 2; 3; 4; 5] 9 = Ok a /\
    is_square size a /\
    iter_zig_zag a
    = Ok ([1; 2; 3; 4; 5]
          ++ repeat 9 (Z.to_nat (size * size
                                 - Z.of_nat (List.length [1; 2; 3; 4; 5])))).
Proof.
  apply (inverse_iter_zig_zag_default_size zero_garbage [1; 2; 3; 4; 5] 9).
  - discriminate.
  - repeat (apply Forall_cons || apply Forall_nil);
      vm_compute; split; discriminate.
  - vm_compute. split; discriminate.
Defined.
